(** * passwdm: a shallow embedding of [cli.js]

    The development follows the layout of the source file:

    - JavaScript strings (sequences of UTF-16 code units), Node [Buffer]s
      (sequences of bytes) and the two encodings the program uses,
      ['hex'] and ['utf8'];
    - the ['aes-256-gcm'] cipher of Node's [crypto] module (FIPS 197 and
      NIST SP 800-38D), which [encryptText] and [decryptText] drive;
    - the effects of the program (store file, prompts, console, clock and
      the random sources) as a state-and-exception monad over a [World];
    - the password generator, [deprecateEntry] and the CLI flows;
    - the properties of the specification, one theorem per claim;
    - the start-up sequence and further properties of the code.

    The flows are modelled from [mainMenu] on, with [masterKey] already
    set.  The start of the program -- the setup wizard, the password
    check and the decoding of the key from the configuration file -- is
    modelled after them, over a [Machine] that adds the configuration
    file to the world.  The store file and the configuration file hold
    well-typed contents whenever they exist. *)

From Stdlib Require Import ZArith List Lia String Ascii.
From stdpp Require Import base tactics option list numbers.
Import ListNotations.
Local Open Scope Z_scope.

(** ** JavaScript strings and buffers *)

(** A JavaScript string is a finite sequence of 16-bit code units; a
    [Buffer] is a finite sequence of bytes.  Both are lists of integers,
    with the range carried by [is_jsstring] and [is_bytes]. *)
Abbreviation jsstring := (list Z) (only parsing).
Abbreviation buffer := (list Z) (only parsing).

Definition is_unit (c : Z) : Prop := 0 <= c < 65536.
Definition is_byte (b : Z) : Prop := 0 <= b < 256.
Definition is_jsstring (s : jsstring) : Prop := Forall is_unit s.
Definition is_bytes (b : buffer) : Prop := Forall is_byte b.

(** String literals of the source, as code units (the literals of
    [cli.js] that matter here are ASCII). *)
Definition js (s : string) : jsstring :=
  map (fun a => Z.of_N (N_of_ascii a)) (list_ascii_of_string s).

(** *** [buf.toString('hex')] and [Buffer.from(s, 'hex')] *)

Definition HEX_DIGITS : jsstring := Eval cbv in js "0123456789abcdef".

Definition hex_digit (d : Z) : Z := nth (Z.to_nat d) HEX_DIGITS 48.

(** [buf.toString('hex')]: two lower-case digits per byte. *)
Definition toString_hex (b : buffer) : jsstring :=
  flat_map (fun x => [hex_digit (x / 16); hex_digit (x mod 16)]) b.

(** The value of a code unit as a hexadecimal digit.  Node's decoder
    reads the low byte of the unit and looks that byte up, so that a unit
    above 255 counts as the digit its low byte spells; both cases of a
    letter are accepted. *)
Definition hex_value (u : Z) : option Z :=
  let c := u mod 256 in
  if (48 <=? c) && (c <=? 57) then Some (c - 48)
  else if (97 <=? c) && (c <=? 102) then Some (c - 87)
  else if (65 <=? c) && (c <=? 70) then Some (c - 55)
  else None.

(** [Buffer.from(s, 'hex')]: decodes pairs of units and stops, without
    an error, at the first pair with a unit whose low byte is not a
    hexadecimal digit; a trailing odd unit is dropped. *)
Fixpoint from_hex (s : jsstring) : buffer :=
  match s with
  | c1 :: c2 :: r =>
      match hex_value c1, hex_value c2 with
      | Some h, Some l => (16 * h + l) :: from_hex r
      | _, _ => []
      end
  | _ => []
  end.

(** *** [s.split(sep)] and [arr.join(sep)] for a one-unit separator *)

Fixpoint split_on (sep : Z) (s : jsstring) : list jsstring :=
  match s with
  | [] => [[]]
  | c :: r =>
      if c =? sep then [] :: split_on sep r
      else match split_on sep r with
           | h :: t => (c :: h) :: t
           | [] => [[c]]
           end
  end.

Fixpoint join_with (sep : Z) (parts : list jsstring) : jsstring :=
  match parts with
  | [] => []
  | [p] => p
  | p :: ps => p ++ sep :: join_with sep ps
  end.

Definition COLON : Z := 58.

(** *** The ['utf8'] encoding *)

Definition is_high_surrogate (c : Z) : bool := (0xD800 <=? c) && (c <=? 0xDBFF).
Definition is_low_surrogate (c : Z) : bool := (0xDC00 <=? c) && (c <=? 0xDFFF).

(** U+FFFD, which stands for whatever cannot be encoded or decoded. *)
Definition REPLACEMENT : Z := 0xFFFD.

Definition utf8_of_code_point (cp : Z) : buffer :=
  if cp <? 0x80 then [cp]
  else if cp <? 0x800 then [0xC0 + cp / 64; 0x80 + cp mod 64]
  else if cp <? 0x10000 then
    [0xE0 + cp / 4096; 0x80 + (cp / 64) mod 64; 0x80 + cp mod 64]
  else
    [0xF0 + cp / 262144; 0x80 + (cp / 4096) mod 64;
     0x80 + (cp / 64) mod 64; 0x80 + cp mod 64].

(** The bytes Node writes for a string under ['utf8']
    ([Buffer.from(s, 'utf8')], [cipher.update(s, 'utf8')]): a surrogate
    pair is one code point, a surrogate without its partner is written as
    U+FFFD. *)
Fixpoint utf8_encode (s : jsstring) : buffer :=
  match s with
  | [] => []
  | c :: r =>
      if is_high_surrogate c then
        match r with
        | d :: r' =>
            if is_low_surrogate d
            then utf8_of_code_point (0x10000 + (c - 0xD800) * 1024 + (d - 0xDC00))
                   ++ utf8_encode r'
            else utf8_of_code_point REPLACEMENT ++ utf8_encode r
        | [] => utf8_of_code_point REPLACEMENT
        end
      else if is_low_surrogate c then utf8_of_code_point REPLACEMENT ++ utf8_encode r
      else utf8_of_code_point c ++ utf8_encode r
  end.

Definition units_of_code_point (cp : Z) : jsstring :=
  if cp <? 0x10000 then [cp]
  else [0xD800 + (cp - 0x10000) / 1024; 0xDC00 + (cp - 0x10000) mod 1024].

(** State of the decoder inside a multi-byte sequence: the code point
    collected so far, the number of continuation bytes still expected and
    the range allowed for the next byte. *)
Record utf8_state := {
  u_cp : Z;
  u_remaining : nat;
  u_lower : Z;
  u_upper : Z
}.

(** A byte met outside a sequence: either a whole code point, the start
    of a sequence, or an error. *)
Definition utf8_lead (b : Z) : jsstring * option utf8_state :=
  if b <=? 0x7F then ([b], None)
  else if (0xC2 <=? b) && (b <=? 0xDF) then
    ([], Some {| u_cp := b mod 32; u_remaining := 1; u_lower := 0x80; u_upper := 0xBF |})
  else if (0xE0 <=? b) && (b <=? 0xEF) then
    ([], Some {| u_cp := b mod 16; u_remaining := 2;
                 u_lower := if b =? 0xE0 then 0xA0 else 0x80;
                 u_upper := if b =? 0xED then 0x9F else 0xBF |})
  else if (0xF0 <=? b) && (b <=? 0xF4) then
    ([], Some {| u_cp := b mod 8; u_remaining := 3;
                 u_lower := if b =? 0xF0 then 0x90 else 0x80;
                 u_upper := if b =? 0xF4 then 0x8F else 0xBF |})
  else ([REPLACEMENT], None).

(** [buf.toString('utf8')]: the decoder of the Encoding Standard, every
    ill-formed subsequence becoming one U+FFFD; no byte-order mark is
    removed. *)
Fixpoint utf8_decode_from (st : option utf8_state) (bs : buffer) : jsstring :=
  match bs with
  | [] => match st with Some _ => [REPLACEMENT] | None => [] end
  | b :: r =>
      match st with
      | None =>
          let '(out, st') := utf8_lead b in out ++ utf8_decode_from st' r
      | Some s =>
          if (u_lower s <=? b) && (b <=? u_upper s) then
            let cp := u_cp s * 64 + b mod 64 in
            match u_remaining s with
            | S (S k) =>
                utf8_decode_from
                  (Some {| u_cp := cp; u_remaining := S k;
                           u_lower := 0x80; u_upper := 0xBF |}) r
            | _ => units_of_code_point cp ++ utf8_decode_from None r
            end
          else
            let '(out, st') := utf8_lead b in
            REPLACEMENT :: out ++ utf8_decode_from st' r
      end
  end.

Definition utf8_decode (bs : buffer) : jsstring := utf8_decode_from None bs.

(** A string is well formed when its code units are in range and every
    surrogate is half of a pair. *)
Fixpoint well_formed_utf16 (s : jsstring) : bool :=
  match s with
  | [] => true
  | c :: r =>
      if is_high_surrogate c then
        match r with
        | d :: r' => is_low_surrogate d && well_formed_utf16 r'
        | [] => false
        end
      else negb (is_low_surrogate c) && (0 <=? c) && (c <? 65536)
           && well_formed_utf16 r
  end.

(** *** [String.prototype.trim] *)

Definition is_js_whitespace (c : Z) : bool :=
  ((9 <=? c) && (c <=? 13)) || (c =? 0x20) || (c =? 0xA0) || (c =? 0x1680)
  || ((0x2000 <=? c) && (c <=? 0x200A)) || (c =? 0x2028) || (c =? 0x2029)
  || (c =? 0x202F) || (c =? 0x205F) || (c =? 0x3000) || (c =? 0xFEFF).

Fixpoint trimStart (s : jsstring) : jsstring :=
  match s with
  | c :: r => if is_js_whitespace c then trimStart r else s
  | [] => []
  end.

Definition trim (s : jsstring) : jsstring := rev (trimStart (rev (trimStart s))).

(** ** The cipher: AES-256 (FIPS 197) *)

(** Multiplication in GF(2^8) modulo x^8 + x^4 + x^3 + x + 1. *)
Fixpoint gf8_mul_aux (n : nat) (a b acc : Z) : Z :=
  match n with
  | O => acc
  | S n' =>
      let acc' := if Z.testbit b 0 then Z.lxor acc a else acc in
      let a2 := Z.shiftl a 1 in
      let a' := if Z.testbit a2 8 then Z.lxor a2 283 else a2 in
      gf8_mul_aux n' a' (Z.shiftr b 1) acc'
  end.

Definition gf8_mul (a b : Z) : Z := gf8_mul_aux 8 a b 0.

(** The inverse, as the 254th power. *)
Definition gf8_inv (x : Z) : Z :=
  let x2 := gf8_mul x x in
  let x4 := gf8_mul x2 x2 in
  let x8 := gf8_mul x4 x4 in
  let x16 := gf8_mul x8 x8 in
  let x32 := gf8_mul x16 x16 in
  let x64 := gf8_mul x32 x32 in
  let x128 := gf8_mul x64 x64 in
  gf8_mul x2 (gf8_mul x4 (gf8_mul x8 (gf8_mul x16 (gf8_mul x32 (gf8_mul x64 x128))))).

Definition rotl8 (b k : Z) : Z :=
  Z.land (Z.lor (Z.shiftl b k) (Z.shiftr b (8 - k))) 255.

Definition sbox_of (x : Z) : Z :=
  let b := gf8_inv x in
  Z.lxor (Z.lxor (Z.lxor (Z.lxor (Z.lxor b (rotl8 b 1)) (rotl8 b 2)) (rotl8 b 3))
            (rotl8 b 4)) 99.

Definition SBOX : list Z :=
  Eval vm_compute in map (fun n => sbox_of (Z.of_nat n)) (seq 0 256).

Definition sbox (b : Z) : Z := nth (Z.to_nat b) SBOX 0.

Definition xor_bytes (a b : buffer) : buffer := zip_with Z.lxor a b.

Definition xtime (a : Z) : Z :=
  let a2 := Z.shiftl a 1 in if Z.testbit a2 8 then Z.lxor a2 283 else a2.

(** The state is the 16 bytes of the block, column after column. *)
Definition sub_bytes (s : buffer) : buffer := map sbox s.

Definition shift_rows (s : buffer) : buffer :=
  map (fun i => nth (4 * ((i / 4 + i mod 4) mod 4) + i mod 4)%nat s 0) (seq 0 16).

Definition mix_column (c : buffer) : buffer :=
  match c with
  | [a0; a1; a2; a3] =>
      [ Z.lxor (Z.lxor (Z.lxor (xtime a0) (Z.lxor (xtime a1) a1)) a2) a3;
        Z.lxor (Z.lxor (Z.lxor a0 (xtime a1)) (Z.lxor (xtime a2) a2)) a3;
        Z.lxor (Z.lxor (Z.lxor a0 a1) (xtime a2)) (Z.lxor (xtime a3) a3);
        Z.lxor (Z.lxor (Z.lxor (Z.lxor (xtime a0) a0) a1) a2) (xtime a3) ]
  | _ => c
  end.

Definition mix_columns (s : buffer) : buffer :=
  mix_column (take 4 s) ++ mix_column (take 4 (drop 4 s)) ++
  mix_column (take 4 (drop 8 s)) ++ mix_column (take 4 (drop 12 s)).

Definition rot_word (w : buffer) : buffer :=
  match w with a :: r => r ++ [a] | [] => [] end.

Definition RCON : list Z := [0; 1; 2; 4; 8; 16; 32; 64].

(** Key expansion for an 8-word key: [w] holds the bytes of the words
    produced so far and [i] is the index of the next word. *)
Fixpoint key_expansion_from (n i : nat) (w : buffer) : buffer :=
  match n with
  | O => w
  | S n' =>
      let prev := take 4 (drop (4 * (i - 1)) w) in
      let temp :=
        if (i mod 8 =? 0)%nat
        then xor_bytes (map sbox (rot_word prev)) [nth (i / 8) RCON 0; 0; 0; 0]
        else if (i mod 8 =? 4)%nat then map sbox prev else prev in
      key_expansion_from n' (S i)
        (w ++ xor_bytes (take 4 (drop (4 * (i - 8)) w)) temp)
  end.

Definition key_expansion (key : buffer) : buffer := key_expansion_from 52 8 key.

Definition round_key (w : buffer) (r : nat) : buffer := take 16 (drop (16 * r) w).

Fixpoint aes_rounds (n r : nat) (w s : buffer) : buffer :=
  match n with
  | O => s
  | S n' =>
      aes_rounds n' (S r) w
        (xor_bytes (mix_columns (shift_rows (sub_bytes s))) (round_key w r))
  end.

(** The cipher on one block, from an expanded key: 14 rounds. *)
Definition aes256_cipher (w : buffer) (block : buffer) : buffer :=
  let s := aes_rounds 13 1 w (xor_bytes block (round_key w 0)) in
  xor_bytes (shift_rows (sub_bytes s)) (round_key w 14).

(** ** Galois/Counter Mode (NIST SP 800-38D) *)

(** Blocks are 128-bit integers, the first byte being the most
    significant one. *)
Definition block_of_bytes (bs : buffer) : Z :=
  fold_left (fun acc b => acc * 256 + b) bs 0.

Definition bytes_of_block (n : nat) (x : Z) : buffer :=
  map (fun i => (x / 2 ^ (8 * Z.of_nat (n - 1 - i))) mod 256) (seq 0 n).

Definition GCM_R : Z := Z.shiftl 0xE1 120.

(** The product of two blocks in GF(2^128); the bits of [x] are read
    from the most significant one. *)
Fixpoint gf128_mul_aux (n : nat) (x v z : Z) : Z :=
  match n with
  | O => z
  | S n' =>
      let z' := if Z.testbit x (Z.of_nat n') then Z.lxor z v else z in
      let v' := if Z.testbit v 0 then Z.lxor (Z.shiftr v 1) GCM_R else Z.shiftr v 1 in
      gf128_mul_aux n' x v' z'
  end.

Definition gf128_mul (x y : Z) : Z := gf128_mul_aux 128 x y 0.

Definition ghash (h : Z) (blocks : list Z) : Z :=
  fold_left (fun y x => gf128_mul (Z.lxor y x) h) blocks 0.

(** The 16-byte blocks of a buffer, the last one padded with zeros. *)
Fixpoint blocks_of (fuel : nat) (bs : buffer) : list Z :=
  match fuel, bs with
  | S f, _ :: _ =>
      block_of_bytes (take 16 bs ++ replicate (16 - length (take 16 bs)) 0)
        :: blocks_of f (drop 16 bs)
  | _, _ => []
  end.

Definition bit_length (bs : buffer) : Z := 8 * Z.of_nat (length bs).

Definition inc32 (x : Z) : Z := (x / 2 ^ 32) * 2 ^ 32 + (x + 1) mod 2 ^ 32.

(** The pre-counter block: a 96-bit nonce is used as it is, any other
    one is hashed. *)
Definition pre_counter (h : Z) (iv : buffer) : Z :=
  if (length iv =? 12)%nat then block_of_bytes iv * 2 ^ 32 + 1
  else ghash h (blocks_of (length iv) iv ++ [bit_length iv]).

Section GCM.
(** The block cipher under a fixed key. *)
Variable E : Z -> Z.

(** Counter mode: each block of the input is combined with the cipher
    of the next counter block. *)
Fixpoint gctr (fuel : nat) (cb : Z) (bs : buffer) : buffer :=
  match fuel, bs with
  | S f, _ :: _ =>
      xor_bytes (take 16 bs) (bytes_of_block 16 (E cb))
        ++ gctr f (inc32 cb) (drop 16 bs)
  | _, _ => []
  end.

(** The full 16-byte tag of a ciphertext (no additional data). *)
Definition gcm_tag (iv ct : buffer) : buffer :=
  let h := E 0 in
  let s := ghash h (blocks_of (length ct) ct ++ [bit_length ct]) in
  bytes_of_block 16 (Z.lxor (E (pre_counter h iv)) s).

Definition gcm_encrypt (iv pt : buffer) : buffer * buffer :=
  let ct := gctr (length pt) (inc32 (pre_counter (E 0) iv)) pt in
  (ct, gcm_tag iv ct).

(** Decryption releases the plaintext only when the supplied tag is
    the recomputed one, cut to the supplied length. *)
Definition gcm_decrypt (iv ct tag : buffer) : option buffer :=
  if decide (take (length tag) (gcm_tag iv ct) = tag)
  then Some (gctr (length ct) (inc32 (pre_counter (E 0) iv)) ct)
  else None.
End GCM.

Definition aes256_block (w : buffer) (x : Z) : Z :=
  block_of_bytes (aes256_cipher w (bytes_of_block 16 x)).

(** AES-256 under [key], on blocks. *)
Definition aes_256 (key : buffer) : Z -> Z := aes256_block (key_expansion key).

(** ** Node's [crypto] interface for ['aes-256-gcm'] *)

Inductive Error :=
| ERR_INVALID_ARG_TYPE        (* TypeError of Buffer.from(undefined, 'hex') *)
| ERR_UNDEFINED_PROPERTY      (* TypeError: reading a property of undefined *)
| ERR_CRYPTO_INVALID_IV       (* createCipheriv, createDecipheriv: iv length *)
| ERR_CRYPTO_INVALID_KEYLEN   (* createCipheriv, createDecipheriv: key not 32 bytes *)
| ERR_CRYPTO_INVALID_AUTH_TAG (* setAuthTag: tag length not allowed *)
| ERR_AUTH_FAILED.            (* final: unable to authenticate data *)

#[global] Instance Error_eq_dec : EqDecision Error.
Proof. solve_decision. Defined.



Inductive result (A : Type) :=
| Ok (a : A)
| Err (e : Error).
Arguments Ok {A} a.
Arguments Err {A} e.

Definition result_bind {A B} (r : result A) (k : A -> result B) : result B :=
  match r with Ok a => k a | Err e => Err e end.

(** Tag lengths that [setAuthTag] accepts for GCM. *)
Definition is_valid_gcm_tag_length (n : nat) : bool :=
  ((n =? 4) || (n =? 8) || ((12 <=? n) && (n <=? 16)))%nat.

(** Nonce lengths that the constructor accepts for GCM: Node refuses an
    empty nonce, and OpenSSL 3 one of more than 128 bytes. *)
Definition is_valid_gcm_iv_length (n : nat) : bool :=
  ((1 <=? n) && (n <=? 128))%nat.

(** [createCipheriv('aes-256-gcm', key, iv)]: the checks of the
    constructor, on the nonce first and then on the key. *)
Definition createCipheriv (key iv : buffer) : result (Z -> Z) :=
  if is_valid_gcm_iv_length (length iv)
  then if decide (length key = 32%nat)
       then Ok (aes_256 key)
       else Err ERR_CRYPTO_INVALID_KEYLEN
  else Err ERR_CRYPTO_INVALID_IV.

(** [cipher.update(pt)], [cipher.final()] and [cipher.getAuthTag()]. *)
Definition cipher_run (key iv pt : buffer) : result (buffer * buffer) :=
  result_bind (createCipheriv key iv) (fun E => Ok (gcm_encrypt E iv pt)).

(** [createDecipheriv], [setAuthTag(tag)], [update(ct)] and [final()];
    [final] throws when the tag does not verify, so that no plaintext is
    returned. *)
Definition decipher_run (key iv ct tag : buffer) : result buffer :=
  result_bind (createCipheriv key iv) (fun E =>
    if is_valid_gcm_tag_length (length tag) then
      match gcm_decrypt E iv ct tag with
      | Some pt => Ok pt
      | None => Err ERR_AUTH_FAILED
      end
    else Err ERR_CRYPTO_INVALID_AUTH_TAG).

(** ** [encryptText] and [decryptText] *)

Definition IV_LEN : nat := 12.

(** [encryptText], given the bytes that [crypto.randomBytes(IV_LEN)]
    returned. *)
Definition encryptText_with (key iv : buffer) (plain : jsstring) : result jsstring :=
  result_bind (cipher_run key iv (utf8_encode plain)) (fun '(ct, tag) =>
    Ok (join_with COLON (map toString_hex [iv; ct; tag]))).

(** [Buffer.from(x, 'hex')] where [x] may be [undefined]. *)
Definition Buffer_from_hex (x : option jsstring) : result buffer :=
  match x with
  | Some s => Ok (from_hex s)
  | None => Err ERR_INVALID_ARG_TYPE
  end.

Definition decryptText (key : buffer) (payload : jsstring) : result jsstring :=
  let parts := split_on COLON payload in
  let ivHex := parts !! 0%nat in
  let ctHex := parts !! 1%nat in
  let tagHex := parts !! 2%nat in
  result_bind (Buffer_from_hex ivHex) (fun iv =>
  result_bind (Buffer_from_hex ctHex) (fun ct =>
  result_bind (Buffer_from_hex tagHex) (fun tag =>
  result_bind (decipher_run key iv ct tag) (fun pt =>
  Ok (utf8_decode pt))))).

(** ** The store and the world the program runs in *)

Record Entry := {
  id : jsstring;
  name : jsstring;
  secret : jsstring;
  createdAt : jsstring;
  deprecated : bool;
  deprecatedAt : option jsstring   (* [None]: the property is absent *)
}.

Record Store := { entries : list Entry }.

#[global] Instance Entry_eq_dec : EqDecision Entry.
Proof. solve_decision. Defined.

(** What the user answers to a prompt: the position chosen in a list, a
    line of text, or yes/no. *)
Inductive Answer :=
| Choose (k : nat)
| Text (s : jsstring)
| YesNo (b : bool).

(** Everything the program reads from outside: the values returned by
    successive calls of [Math.random] (numerators over 2^53),
    [crypto.randomBytes] (a stream of bytes), [crypto.randomUUID],
    [new Date().toISOString()], and the answers of the user. *)
Record Env := {
  math_random_src : nat -> Z;
  random_bytes_src : nat -> Z;
  uuid_src : nat -> jsstring;
  clock_src : nat -> jsstring;
  answers : nat -> Answer
}.

(** The prompts of [inquirer]; a list prompt is given with the values of
    its choices, the labels being display only. *)
Inductive Prompt :=
| PromptInput (message : jsstring)
| PromptList (message : jsstring) (choices : list jsstring)
| PromptConfirm (message : jsstring) (default : bool).

(** What the program prints. *)
Inductive Message :=
| MsgBanner
| MsgNewPassword (name pwd : jsstring)
| MsgNoActive
| MsgDecryptionFailed
| MsgReplaced (pwd : jsstring)
| MsgPassword (name pwd : jsstring)
| MsgRotated (pwd : jsstring)
| MsgNoDeprecated
| MsgDeprecated (name pwd : jsstring)
| MsgNoToDelete
| MsgDeleted (count : Z) (name : jsstring).

Inductive Event :=
| EvMathRandom
| EvRandomBytes (n : nat)
| EvRandomUUID
| EvDate
| EvPrompt (p : Prompt)
| EvLog (m : Message)
| EvWriteStore (s : Store).

(** The external sources, each read in order. *)
Inductive Source :=
| SrcMathRandom
| SrcRandomBytes
| SrcRandomUUID
| SrcClock
| SrcUser.

#[global] Instance Source_eq_dec : EqDecision Source.
Proof. solve_decision. Defined.

(** The state of a run: the module variable [masterKey], the contents of
    the store file ([None] when the file does not exist), how far each
    external source has been read, and what has happened so far. *)
Record World := {
  oracle : Env;
  masterKey : buffer;
  store_file : option Store;
  cursor : Source -> nat;
  trace : list Event
}.

Definition emit (ev : Event) (w : World) : World :=
  {| oracle := oracle w; masterKey := masterKey w; store_file := store_file w;
     cursor := cursor w; trace := trace w ++ [ev] |}.

Definition set_store_file (s : Store) (w : World) : World :=
  {| oracle := oracle w; masterKey := masterKey w; store_file := Some s;
     cursor := cursor w; trace := trace w |}.

(** [n] more values have been read from [src]. *)
Definition advance (src : Source) (n : nat) (w : World) : World :=
  {| oracle := oracle w; masterKey := masterKey w; store_file := store_file w;
     cursor := fun s => if decide (s = src) then (n + cursor w s)%nat else cursor w s;
     trace := trace w |}.

(** The values the sources give next. *)
Definition next_random (w : World) : Z :=
  math_random_src (oracle w) (cursor w SrcMathRandom).
Definition next_byte (w : World) (k : nat) : Z :=
  random_bytes_src (oracle w) (k + cursor w SrcRandomBytes).
Definition next_uuid (w : World) : jsstring :=
  uuid_src (oracle w) (cursor w SrcRandomUUID).
Definition next_date (w : World) (k : nat) : jsstring :=
  clock_src (oracle w) (k + cursor w SrcClock).
Definition next_answer (w : World) (k : nat) : Answer :=
  answers (oracle w) (k + cursor w SrcUser).

(** ** The monad of the program *)

(** A computation returns a value, throws, ends the process
    ([process.exit]), or stays pending on a prompt that is never
    answered. *)
Inductive Outcome (A : Type) :=
| Return (a : A)
| Throw (e : Error)
| Exit (code : Z)
| Pending.
Arguments Return {A} a.
Arguments Throw {A} e.
Arguments Exit {A} code.
Arguments Pending {A}.

Definition M (A : Type) : Type := World -> Outcome A * World.

#[global] Instance M_ret : MRet M := fun A a w => (Return a, w).

#[global] Instance M_bind : MBind M := fun A B k m w =>
  match m w with
  | (Return a, w') => k a w'
  | (Throw e, w') => (Throw e, w')
  | (Exit c, w') => (Exit c, w')
  | (Pending, w') => (Pending, w')
  end.

Definition throw {A} (e : Error) : M A := fun w => (Throw e, w).
Definition process_exit {A} (code : Z) : M A := fun w => (Exit code, w).
Definition pending {A} : M A := fun w => (Pending, w).
Definition effect (f : World -> World) : M unit := fun w => (Return tt, f w).
Definition get_masterKey : M buffer := fun w => (Return (masterKey w), w).

Definition lift {A} (r : result A) : M A :=
  match r with Ok a => mret a | Err e => throw e end.

(** *** External sources *)

Definition Math_random : M Z := fun w =>
  (Return (next_random w mod 2 ^ 53), emit EvMathRandom (advance SrcMathRandom 1 w)).

Definition randomBytes (n : nat) : M buffer := fun w =>
  (Return (map (fun k => next_byte w k mod 256) (seq 0 n)),
   emit (EvRandomBytes n) (advance SrcRandomBytes n w)).

Definition randomUUID : M jsstring := fun w =>
  (Return (next_uuid w), emit EvRandomUUID (advance SrcRandomUUID 1 w)).

(** [new Date().toISOString()] *)
Definition Date_toISOString : M jsstring := fun w =>
  (Return (next_date w 0), emit EvDate (advance SrcClock 1 w)).

Definition console_log (m : Message) : M unit := effect (emit (EvLog m)).

Definition prompt (p : Prompt) : M Answer := fun w =>
  (Return (next_answer w 0), emit (EvPrompt p) (advance SrcUser 1 w)).

(** A list prompt resolves with the value of the chosen position. *)
Definition prompt_list (message : jsstring) (choices : list jsstring) : M jsstring :=
  a ← prompt (PromptList message choices);
  match a with
  | Choose k => match choices !! k with Some v => mret v | None => pending end
  | _ => pending
  end.

(** An input prompt resolves once its validator accepts the line. *)
Definition prompt_input (message : jsstring) (validate : jsstring -> bool) : M jsstring :=
  a ← prompt (PromptInput message);
  match a with
  | Text s => if validate s then mret s else pending
  | _ => pending
  end.

Definition prompt_confirm (message : jsstring) (default : bool) : M bool :=
  a ← prompt (PromptConfirm message default);
  match a with
  | YesNo b => mret b
  | _ => pending
  end.

Definition pause : M unit :=
  prompt_confirm (js "Press ENTER") true;; mret tt.

(** *** Store I/O *)

Definition writeStoreFile (s : Store) : M unit :=
  effect (fun w => emit (EvWriteStore s) (set_store_file s w)).

Definition loadStore : M Store := fun w =>
  match store_file w with
  | Some s => (Return s, w)
  | None =>
      let empty := {| entries := [] |} in
      (Return empty, emit (EvWriteStore empty) (set_store_file empty w))
  end.

Definition saveStore (store : Store) : M unit := writeStoreFile store.

(** *** [encryptText] as the program calls it *)

Definition encryptText (plain : jsstring) : M jsstring :=
  iv ← randomBytes IV_LEN;
  key ← get_masterKey;
  lift (encryptText_with key iv plain).

(** ** Password generator and deprecation *)

Definition LOWER : jsstring := Eval cbv in js "abcdefghijklmnopqrstuvwxyz".
Definition UPPER : jsstring := Eval cbv in js "ABCDEFGHIJKLMNOPQRSTUVWXYZ".
Definition DIGITS : jsstring := Eval cbv in js "0123456789".
Definition SPECIAL : jsstring := Eval cbv in js "!@#$^&*~".

(** The product of two doubles is their exact product rounded to the
    nearest double, ties to the even significand.  A draw of
    [Math.random] is [r / 2^53] with [0 <= r < 2^53], and the numbers it
    is multiplied by ([s.length] and [i + 1]) are integers below [2^53]:
    both are doubles, and their exact product is [m / 2^53] for
    [m = r * n].  [round_to_double m] is the numerator, over [2^53], of
    the double nearest to [m / 2^53]: a double keeps 53 significant
    bits, so the [k] lowest bits of an [m] of [53 + k] bits are rounded
    away. *)
Definition round_to_double (m : Z) : Z :=
  let k := Z.log2 m - 52 in
  if k <=? 0 then m
  else
    let q := m / 2 ^ k in
    let rest := m mod 2 ^ k in
    let half := 2 ^ (k - 1) in
    if (half <? rest) || ((rest =? half) && Z.odd q)
    then (q + 1) * 2 ^ k
    else q * 2 ^ k.

(** [Math.floor(Math.random() * n)], for a multiplier [n] that a double
    holds exactly. *)
Definition floor_random_times (n : Z) : M Z :=
  r ← Math_random; mret (round_to_double (r * n) / 2 ^ 53).

(** [s[i]]: a one-unit string, or [undefined], which [join] prints as
    the empty string. *)
Definition char_at (s : jsstring) (i : Z) : jsstring :=
  if i <? 0 then []
  else match s !! Z.to_nat i with Some c => [c] | None => [] end.

Definition pick (s : jsstring) : M jsstring :=
  i ← floor_random_times (Z.of_nat (length s)); mret (char_at s i).

(** [while (pw.length < length) pw.push(pick(all))] *)
Fixpoint fill (fuel : nat) (len : Z) (all : jsstring) (pw : list jsstring)
  : M (list jsstring) :=
  match fuel with
  | O => pending
  | S f =>
      if Z.of_nat (length pw) <? len
      then c ← pick all; fill f len all (pw ++ [c])
      else mret pw
  end.

(** [[pw[i], pw[j]] = [pw[j], pw[i]]] *)
Definition swap (i j : nat) (pw : list jsstring) : list jsstring :=
  match pw !! i, pw !! j with
  | Some a, Some b => <[j := a]> (<[i := b]> pw)
  | _, _ => pw
  end.

(** [for (let i = pw.length - 1; i > 0; i--)], entered at [i]. *)
Fixpoint shuffle (i : nat) (pw : list jsstring) : M (list jsstring) :=
  match i with
  | O => mret pw
  | S i' =>
      j ← floor_random_times (Z.of_nat i + 1);
      shuffle i' (swap i (Z.to_nat j) pw)
  end.

Definition generatePassword (length : Z) : M jsstring :=
  let len := if length <? 8 then 8 else length in
  let all := LOWER ++ UPPER ++ DIGITS ++ SPECIAL in
  c1 ← pick LOWER;
  c2 ← pick UPPER;
  c3 ← pick DIGITS;
  c4 ← pick SPECIAL;
  pw ← fill (S (Z.to_nat len)) len all [c1; c2; c3; c4];
  pw ← shuffle (List.length pw - 1) pw;
  mret (concat pw).

Definition deprecateEntry (e : Entry) : M Entry :=
  now ← Date_toISOString;
  mret {| id := id e; name := name e; secret := secret e; createdAt := createdAt e;
          deprecated := true; deprecatedAt := Some now |}.

(** ** CLI flows *)

Definition new_entry (uuid nm enc now : jsstring) : Entry :=
  {| id := uuid; name := nm; secret := enc; createdAt := now;
     deprecated := false; deprecatedAt := None |}.

Definition generateFlow : M unit :=
  store ← loadStore;
  nm ← prompt_input (js "App/site name:") (fun s => bool_decide (trim s ≠ []));
  pwd ← generatePassword 12;
  enc ← encryptText pwd;
  uuid ← randomUUID;
  now ← Date_toISOString;
  saveStore {| entries := entries store ++ [new_entry uuid (trim nm) enc now] |};;
  console_log (MsgNewPassword nm pwd);;
  pause.

Definition showDeprecated : M unit :=
  store ← loadStore;
  let old := filter (fun e => deprecated e = true) (entries store) in
  if decide (old = []) then console_log MsgNoDeprecated;; pause
  else
    sel ← prompt_list (js "Select deprecated:") (map id old);
    match list_find (fun e => id e = sel) (entries store) with
    | None => throw ERR_UNDEFINED_PROPERTY
    | Some (_, entry) =>
        key ← get_masterKey;
        pwd ← lift (decryptText key (secret entry));
        console_log (MsgDeprecated (name entry) pwd);;
        pause
    end.

(** The [catch] block of [getFlow]; [found] is the result of
    [store.entries.find], which is never [undefined] here since the id
    comes from the same entries. *)
Definition getFlow_catch (found : option (nat * Entry)) : M unit :=
  console_log MsgDecryptionFailed;;
  onError ← prompt_list (js "Handle corrupted entry?") [js "back"; js "regen"];
  if decide (onError = js "regen") then
    s2 ← loadStore;
    match found with
    | None => throw ERR_UNDEFINED_PROPERTY
    | Some (_, entry) =>
        let kept := filter (fun e => id e ≠ id entry) (entries s2) in
        newPwd ← generatePassword 12;
        newEnc ← encryptText newPwd;
        uuid ← randomUUID;
        now ← Date_toISOString;
        saveStore {| entries := kept ++ [new_entry uuid (name entry) newEnc now] |};;
        console_log (MsgReplaced newPwd);;
        pause
    end
  else mret tt.

(** The [regen] block of [getFlow]: deprecate the entry and add a new
    one of the same name.  [entry] aliases [store.entries[i]], so the
    mutation made by [deprecateEntry] is seen through [store]. *)
Definition getFlow_regen (store : Store) (i : nat) (entry : Entry) : M unit :=
  entry' ← deprecateEntry entry;
  let mutated := <[i := entry']> (entries store) in
  newPwd ← generatePassword 12;
  newEnc ← encryptText newPwd;
  uuid ← randomUUID;
  now ← Date_toISOString;
  saveStore {| entries := mutated ++ [new_entry uuid (name entry') newEnc now] |};;
  console_log (MsgRotated newPwd);;
  pause.

Definition getFlow : M unit :=
  store ← loadStore;
  let active := filter (fun e => deprecated e = false) (entries store) in
  if decide (active = []) then console_log MsgNoActive;; pause
  else
    sel ← prompt_list (js "Select entry:") (map id active);
    let found := list_find (fun e => id e = sel) (entries store) in
    key ← get_masterKey;
    match found with
    | None => getFlow_catch found
    | Some (i, entry) =>
        match decryptText key (secret entry) with
        | Err _ => getFlow_catch found
        | Ok pwd =>
            console_log (MsgPassword (name entry) pwd);;
            next ← prompt_list (js "Next?")
                     [js "regen"; js "showOld"; js "back"; js "exit"];
            if decide (next = js "regen") then getFlow_regen store i entry
            else if decide (next = js "showOld") then showDeprecated
            else if decide (next = js "back") then mret tt
            else process_exit 0
        end
    end.

(** [[...new Set(xs)]]: the distinct values, in order of first
    occurrence. *)
Fixpoint set_values (seen xs : list jsstring) : list jsstring :=
  match xs with
  | [] => []
  | x :: r =>
      if decide (x ∈ seen) then set_values seen r
      else x :: set_values (x :: seen) r
  end.

Definition deleteFlow : M unit :=
  store ← loadStore;
  let names := set_values [] (map name (entries store)) in
  if decide (names = []) then console_log MsgNoToDelete;; pause
  else
    nm ← prompt_list (js "Select site to delete:") names;
    confirm ← prompt_confirm (js "Delete ALL for " ++ [34] ++ nm ++ [34; 63]) false;
    if negb confirm then mret tt
    else
      let before := length (entries store) in
      let kept := filter (fun e => name e ≠ nm) (entries store) in
      saveStore {| entries := kept |};;
      console_log (MsgDeleted (Z.of_nat before - Z.of_nat (length kept)) nm);;
      pause.

(** [mainMenu] calls itself after every flow; [fuel] bounds the number
    of menus shown. *)
Fixpoint mainMenu (fuel : nat) : M unit :=
  match fuel with
  | O => pending
  | S f =>
      console_log MsgBanner;;
      action ← prompt_list (js "Choose:") [js "gen"; js "get"; js "delete"; js "exit"];
      (if decide (action = js "gen") then generateFlow else mret tt);;
      (if decide (action = js "get") then getFlow else mret tt);;
      (if decide (action = js "delete") then deleteFlow else mret tt);;
      (if decide (action = js "exit") then process_exit 0 else mret tt);;
      mainMenu f
  end.

(** ** Vocabulary of the specification *)

(** A Unicode scalar value: a code point that is not a surrogate. *)
Definition is_scalar (cp : Z) : Prop :=
  0 <= cp < 0xD800 \/ 0xE000 <= cp < 0x110000.




(** [returns m w Q]: run from [w], [m] returns a value and a world that
    satisfy [Q]. *)
Definition returns {A} (m : M A) (w : World) (Q : A -> World -> Prop) : Prop :=
  exists a w', m w = (Return a, w') /\ Q a w'.

(** [frames m]: [m] leaves the store file as it is. *)
Definition frames {A} (m : M A) : Prop :=
  forall w, store_file (snd (m w)) = store_file w.

(** The world after one call of [Math.random]. *)
Definition draw (w : World) : World := emit EvMathRandom (advance SrcMathRandom 1 w).

(** A one-unit string taken from [s]. *)
Definition char_of (s : jsstring) (x : jsstring) : Prop := exists c, x = [c] /\ c ∈ s.

Definition ALL_CLASSES : jsstring := LOWER ++ UPPER ++ DIGITS ++ SPECIAL.

(** *** Effects on the store *)

(** [e] as [deprecateEntry] leaves it at the date [now]. *)
Definition deprecated_at (now : jsstring) (e : Entry) : Entry :=
  {| id := id e; name := name e; secret := secret e; createdAt := createdAt e;
     deprecated := true; deprecatedAt := Some now |}.

Definition is_fresh_active (e : Entry) : Prop :=
  deprecated e = false /\ deprecatedAt e = None.

(** The rotation of the entry at position [i]. *)
Definition is_rotation (before after : list Entry) : Prop :=
  exists i old now e,
    before !! i = Some old /\ is_fresh_active e
    /\ after = <[i := deprecated_at now old]> before ++ [e].

Inductive store_effect (before : list Entry) : list Entry -> Prop :=
| effect_none : store_effect before before
| effect_generate e :
    is_fresh_active e -> store_effect before (before ++ [e])
| effect_replace x e :
    is_fresh_active e ->
    store_effect before (filter (fun y => id y ≠ x) before ++ [e])
| effect_rotate after :
    is_rotation before after -> store_effect before after
| effect_delete nm :
    store_effect before (filter (fun y => name y ≠ nm) before).

(** [ends_in st m]: run on the store [st], [m] leaves in the file a
    store that one of the effects above explains. *)
Definition ends_in {A} (st : Store) (m : M A) : Prop :=
  forall w, store_file w = Some st ->
    exists after,
      store_file (snd (m w)) = Some {| entries := after |}
      /\ store_effect (entries st) after.



(** The three actions of the menu. *)
Inductive Flow := Generate | Get | Delete.

Definition run_flow (f : Flow) : M unit :=
  match f with
  | Generate => generateFlow
  | Get => getFlow
  | Delete => deleteFlow
  end.

Definition entries_of (file : option Store) : list Entry :=
  match file with Some st => entries st | None => [] end.

(** *** The deprecation invariant and the reachable worlds *)

Definition entry_ok (e : Entry) : Prop :=
  is_Some (deprecatedAt e) <-> deprecated e = true.

Definition store_ok (w : World) : Prop := Forall entry_ok (entries_of (store_file w)).

(** The worlds a session can be in: it starts without a store file, or
    with an empty store, and goes through any number of flows, with any
    answers of the user and any outcome of the random sources; between
    the flows the menu prints and prompts, which leaves the file as it
    is. *)
Inductive reachable : World -> Prop :=
| reachable_start w : entries_of (store_file w) = [] -> reachable w
| reachable_flow f w : reachable w -> reachable (snd (run_flow f w))
| reachable_frame w w' :
    reachable w -> store_file w' = store_file w -> reachable w'.

(** *** Prompts and worlds along the flows *)

Definition active_ids (st : Store) : list jsstring :=
  map id (filter (fun x => deprecated x = false) (entries st)).

Definition deprecated_ids (st : Store) : list jsstring :=
  map id (filter (fun x => deprecated x = true) (entries st)).

Definition NEXT_CHOICES : list jsstring :=
  [js "regen"; js "showOld"; js "back"; js "exit"].

Definition MENU_CHOICES : list jsstring :=
  [js "gen"; js "get"; js "delete"; js "exit"].

(** The two prompts of the delete flow. *)
Definition delete_prompts (st : Store) (nm : jsstring) : list Event :=
  [ EvPrompt (PromptList (js "Select site to delete:")
                (set_values [] (map name (entries st))));
    EvPrompt (PromptConfirm (js "Delete ALL for " ++ [34] ++ nm ++ [34; 63]) false) ].

(** The world in which the menu has been answered. *)
Definition after_menu (w : World) : World :=
  emit (EvPrompt (PromptList (js "Choose:") MENU_CHOICES))
    (advance SrcUser 1 (emit (EvLog MsgBanner) w)).

(** The world in which [getFlow] has shown the password of [e] and read
    the answer to "Next?". *)
Definition after_next (w : World) (st : Store) (e : Entry) (pwd : jsstring) : World :=
  emit (EvPrompt (PromptList (js "Next?") NEXT_CHOICES))
    (advance SrcUser 1
       (emit (EvLog (MsgPassword (name e) pwd))
          (emit (EvPrompt (PromptList (js "Select entry:") (active_ids st)))
             (advance SrcUser 1 w)))).

(** The conditions under which [getFlow] reaches its [regen] block: the
    user picks an entry in the list of active ones, [find] gives the
    entry [e] at position [i] for that id, its secret decrypts, and the
    answer to "Next?" is the first choice. *)
Definition rotates (w : World) (st : Store) (i : nat) (e : Entry) : Prop :=
  store_file w = Some st
  /\ exists k sel pwd,
       next_answer w 0 = Choose k
       /\ active_ids st !! k = Some sel
       /\ list_find (fun x => id x = sel) (entries st) = Some (i, e)
       /\ decryptText (masterKey w) (secret e) = Ok pwd
       /\ next_answer w 1 = Choose 0.

(** The entry that takes the place of [e] and the one appended after a
    rotation in the world [w]. *)
Definition rotated_entries (w : World) (st : Store) (i : nat) (e : Entry)
    (newEnc : jsstring) : list Entry :=
  <[i := deprecated_at (next_date w 0) e]> (entries st)
  ++ [new_entry (next_uuid w) (name e) newEnc (next_date w 1)].

(** ** Sample data *)

Definition sample_key : buffer := Eval cbv in map Z.of_nat (seq 0 32).


(** An environment whose user follows [script] and then keeps pressing
    ENTER. *)
Definition sample_env (script : list Answer) : Env :=
  {| math_random_src := fun n => (Z.of_nat n * 2654435761 + 40503) * 1103515245;
     random_bytes_src := fun n => 16 * Z.of_nat n + 7;
     uuid_src := fun n => js "7d3c1a52-0b2e-4c6f-9a41-00000000000" ++ [48 + Z.of_nat n];
     clock_src := fun n => js "2025-08-05T12:34:5" ++ [48 + Z.of_nat n] ++ js ".000Z";
     answers := fun n => nth n script (YesNo true) |}.

Definition sample_world (script : list Answer) (file : option Store) : World :=
  {| oracle := sample_env script; masterKey := sample_key; store_file := file;
     cursor := fun _ => 0%nat; trace := [] |}.

(** An active entry whose secret is the encryption of [hello] under
    [sample_key], a deprecated one of the same name whose tag has a
    changed digit, a second deprecated one and an entry of another
    name. *)
Definition sample_entry : Entry :=
  {| id := js "11111111-1111-4111-8111-111111111111";
     name := js "example.com";
     secret := js "07172737475767778797a7b7:3ac881653f:af9af2e470a3d1485cfc7023387bd3cb";
     createdAt := js "2025-08-01T09:00:00.000Z";
     deprecated := false;
     deprecatedAt := None |}.

Definition sample_corrupted : Entry :=
  {| id := js "22222222-2222-4222-8222-222222222222";
     name := js "example.com";
     secret := js "07172737475767778797a7b7:3ac881653f:af9af2e470a3d1485cfc7023387bd3cc";
     createdAt := js "2025-07-01T09:00:00.000Z";
     deprecated := true;
     deprecatedAt := Some (js "2025-08-01T09:00:00.000Z") |}.

Definition sample_old : Entry :=
  {| id := js "33333333-3333-4333-8333-333333333333";
     name := js "example.com";
     secret := js "07172737475767778797a7b7:3ac881653f:af9af2e470a3d1485cfc7023387bd3cb";
     createdAt := js "2025-06-01T09:00:00.000Z";
     deprecated := true;
     deprecatedAt := Some (js "2025-07-01T09:00:00.000Z") |}.

Definition sample_other : Entry :=
  {| id := js "44444444-4444-4444-8444-444444444444";
     name := js "other.org";
     secret := js "07172737475767778797a7b7:3ac881653f:af9af2e470a3d1485cfc7023387bd3cb";
     createdAt := js "2025-08-02T09:00:00.000Z";
     deprecated := false;
     deprecatedAt := None |}.

Definition sample_store : Store :=
  {| entries := [sample_old; sample_corrupted; sample_other; sample_entry] |}.





(** ** Vocabulary of the further properties *)

(** [String.prototype.toWellFormed]: the string with every surrogate
    that is not half of a pair replaced by U+FFFD. *)
Fixpoint toWellFormed (s : jsstring) : jsstring :=
  match s with
  | [] => []
  | c :: r =>
      if is_high_surrogate c then
        match r with
        | d :: r' =>
            if is_low_surrogate d then c :: d :: toWellFormed r'
            else REPLACEMENT :: toWellFormed r
        | [] => [REPLACEMENT]
        end
      else if is_low_surrogate c then REPLACEMENT :: toWellFormed r
      else c :: toWellFormed r
  end.

(** A lower-case hexadecimal string. *)
Definition is_lower_hex (s : jsstring) : Prop := Forall (fun c => c ∈ HEX_DIGITS) s.

(** The nonce that the next call of [encryptText] draws in [w]. *)
Definition next_iv (w : World) : buffer :=
  map (fun k => next_byte w k mod 256) (seq 0 IV_LEN).

(** *** Sessions under one key *)

(** What the flows compute from: the environment, the master key, the
    store file and the number of ids drawn so far. *)
Record View := {
  v_oracle : Env;
  v_key : buffer;
  v_store : option Store;
  v_uuids : nat
}.

Definition view (w : World) : View :=
  {| v_oracle := oracle w; v_key := masterKey w; v_store := store_file w;
     v_uuids := cursor w SrcRandomUUID |}.

(** The view once [loadStore] has returned [st] in [w]. *)
Definition loaded (w : World) (st : Store) : View :=
  {| v_oracle := oracle w; v_key := masterKey w; v_store := Some st;
     v_uuids := cursor w SrcRandomUUID |}.

(** [keeps_view m]: [m] only prints, prompts and reads the other
    sources. *)
Definition keeps_view {A} (m : M A) : Prop :=
  forall w, view (snd (m w)) = view w.

(** [ends m w X]: however [m] ends when run from [w] -- by returning,
    throwing, exiting or waiting for an answer -- the world it leaves is
    one that [X] accepts. *)
Definition ends {A} (m : M A) (w : World) (X : View -> Prop) : Prop :=
  X (view (snd (m w))).

(** A secret that decrypts under [key] to a password as
    [generatePassword 12] makes them. *)
Definition good_secret (key : buffer) (enc : jsstring) : Prop :=
  exists pwd,
    decryptText key enc = Ok pwd
    /\ length pwd = 12%nat
    /\ Forall (fun c => c ∈ ALL_CLASSES) pwd.

(** What one flow does to the entries, [n] ids having been drawn before
    it: nothing, the removal of a name, or one entry added under the
    next id -- for a new name, in place of a corrupted entry, or next to
    the entry it deprecates. *)
Inductive entry_step (env : Env) (key : buffer) (n : nat) (before : list Entry)
  : list Entry -> nat -> Prop :=
| step_none : entry_step env key n before before n
| step_delete nm :
    entry_step env key n before (filter (fun y => name y ≠ nm) before) n
| step_generate nm enc now :
    trim nm <> [] -> good_secret key enc ->
    entry_step env key n before
      (before ++ [new_entry (uuid_src env n) (trim nm) enc now]) (S n)
| step_replace old enc now :
    old ∈ before -> good_secret key enc ->
    entry_step env key n before
      (filter (fun y => id y ≠ id old) before
       ++ [new_entry (uuid_src env n) (name old) enc now]) (S n)
| step_rotate i old enc now now' :
    before !! i = Some old -> good_secret key enc ->
    entry_step env key n before
      (<[i := deprecated_at now old]> before
       ++ [new_entry (uuid_src env n) (name old) enc now']) (S n).

(** The views that a flow started in the view [v] may end in. *)
Definition flow_end (v v' : View) : Prop :=
  v_oracle v' = v_oracle v /\ v_key v' = v_key v
  /\ entry_step (v_oracle v) (v_key v) (v_uuids v)
       (entries_of (v_store v)) (entries_of (v_store v')) (v_uuids v').

(** The worlds of a session run with the environment [env] under the
    key [key]: it starts on an empty store and goes through flows;
    between them the menu prints and prompts. *)
Inductive session (env : Env) (key : buffer) : World -> Prop :=
| session_start w :
    oracle w = env -> masterKey w = key -> entries_of (store_file w) = [] ->
    session env key w
| session_flow f w : session env key w -> session env key (snd (run_flow f w))
| session_menu w w' : session env key w -> view w' = view w -> session env key w'.

(** A name as [generateFlow] stores them: not empty, and without white
    space at either end. *)
Definition trimmed_name (nm : jsstring) : Prop := nm <> [] /\ trim nm = nm.

(** The ids of the entries are distinct and were all drawn from
    [crypto.randomUUID] before. *)
Definition ids_drawn (env : Env) (es : list Entry) (n : nat) : Prop :=
  NoDup (map id es) /\ Forall (fun e => exists k, (k < n)%nat /\ id e = uuid_src env k) es.

(** The ids drawn so far. *)
Definition drawn_ids (w : World) : list jsstring :=
  map (uuid_src (oracle w)) (seq 0 (cursor w SrcRandomUUID)).

(** *** The events of a flow *)

Definition PAUSE : Event := EvPrompt (PromptConfirm (js "Press ENTER") true).

(** What the program does between the generation of a password and the
    end of the flow that stores it: 23 draws of [Math.random], the
    nonce, the id, the date, one write of the store, the message and
    the pause. *)
Definition push_events (after : list Entry) (log : Message) : list Event :=
  replicate 23 EvMathRandom
  ++ [ EvRandomBytes IV_LEN; EvRandomUUID; EvDate;
       EvWriteStore {| entries := after |}; EvLog log; PAUSE ].

Definition SELECT_ENTRY (st : Store) : Event :=
  EvPrompt (PromptList (js "Select entry:") (active_ids st)).

Definition SELECT_DEPRECATED (st : Store) : Event :=
  EvPrompt (PromptList (js "Select deprecated:") (deprecated_ids st)).

Definition HANDLE_CORRUPTED : Event :=
  EvPrompt (PromptList (js "Handle corrupted entry?") [js "back"; js "regen"]).

Definition NEXT : Event := EvPrompt (PromptList (js "Next?") NEXT_CHOICES).

(** The user picks, in the list of active entries, the entry [e], found
    at position [i] of the store. *)
Definition selects (w : World) (st : Store) (i : nat) (e : Entry) : Prop :=
  store_file w = Some st
  /\ exists k sel,
       next_answer w 0 = Choose k
       /\ active_ids st !! k = Some sel
       /\ list_find (fun x => id x = sel) (entries st) = Some (i, e).

(** *** The menu *)

(** The position of a flow in the menu. *)
Definition menu_index (f : Flow) : nat :=
  match f with Generate => 0 | Get => 1 | Delete => 2 end.

(** [exits_zero m]: when [m] ends the process, the exit code is 0. *)
Definition exits_zero {A} (m : M A) : Prop :=
  forall w c, fst (m w) = Exit c -> c = 0.

(** *** Writes of the store file *)

Definition is_write (ev : Event) : bool :=
  match ev with EvWriteStore _ => true | _ => false end.

Definition count_writes (evs : list Event) : nat :=
  length (filter (fun ev => is_write ev = true) evs).

(** [writes_le n m]: run where the store file exists, [m] leaves it in
    existence, only adds to the trace, and writes the file at most [n]
    times. *)
Definition writes_le {A} (n : nat) (m : M A) : Prop :=
  forall w, is_Some (store_file w) ->
    is_Some (store_file (snd (m w)))
    /\ exists evs, trace (snd (m w)) = trace w ++ evs /\ (count_writes evs <= n)%nat.

(** ** Start-up: configuration, authentication and the key *)

(** *** [buf.toString('base64')] and [Buffer.from(s, 'base64')] *)

Definition BASE64_DIGITS : jsstring :=
  Eval cbv in js "ABCDEFGHIJKLMNOPQRSTUVWXYZabcdefghijklmnopqrstuvwxyz0123456789+/".

Definition base64_digit (d : Z) : Z := nth (Z.to_nat d) BASE64_DIGITS 65.

Definition EQUALS : Z := 61.

(** [buf.toString('base64')]: four digits for three bytes, the last
    group padded with [=]. *)
Fixpoint toString_base64 (b : buffer) : jsstring :=
  match b with
  | x :: y :: z :: r =>
      base64_digit (x / 4) :: base64_digit (x mod 4 * 16 + y / 16)
      :: base64_digit (y mod 16 * 4 + z / 64) :: base64_digit (z mod 64)
      :: toString_base64 r
  | [x; y] =>
      [base64_digit (x / 4); base64_digit (x mod 4 * 16 + y / 16);
       base64_digit (y mod 16 * 4); EQUALS]
  | [x] => [base64_digit (x / 4); base64_digit (x mod 4 * 16); EQUALS; EQUALS]
  | [] => []
  end.

(** The value of a digit, in the standard or in the URL-safe alphabet. *)
Definition base64_value (c : Z) : option Z :=
  if (65 <=? c) && (c <=? 90) then Some (c - 65)
  else if (97 <=? c) && (c <=? 122) then Some (c - 71)
  else if (48 <=? c) && (c <=? 57) then Some (c + 4)
  else if (c =? 43) || (c =? 45) then Some 62
  else if (c =? 47) || (c =? 95) then Some 63
  else None.

(** Node's decoder reads the low byte of each code unit, skips what is
    not a digit and stops at the first [=]. *)
Fixpoint base64_sextets (s : jsstring) : list Z :=
  match s with
  | [] => []
  | u :: r =>
      let c := u mod 256 in
      if c =? EQUALS then []
      else match base64_value c with
           | Some v => v :: base64_sextets r
           | None => base64_sextets r
           end
  end.

(** Three bytes for four digits; what is left of an incomplete group
    gives the bytes that are complete. *)
Fixpoint base64_bytes (q : list Z) : buffer :=
  match q with
  | a :: b :: c :: d :: r =>
      (a * 4 + b / 16) :: (b mod 16 * 16 + c / 4) :: (c mod 4 * 64 + d) :: base64_bytes r
  | [a; b; c] => [a * 4 + b / 16; b mod 16 * 16 + c / 4]
  | [a; b] => [a * 4 + b / 16]
  | _ => []
  end.

(** [Buffer.from(s, 'base64')] *)
Definition from_base64 (s : jsstring) : buffer := base64_bytes (base64_sextets s).

(** *** The machine *)

(** The configuration file, a JSON object with two strings. *)
Record Config := {
  appPassword : jsstring;
  encryptionKey : jsstring
}.

(** What the start-up code prints. *)
Inductive Notice :=
| NoticeInitializing
| NoticeSaved
| NoticeSaveKey
| NoticeKey (key : jsstring)
| NoticeNoConfig
| NoticeInvalidPassword
| NoticeInvalidKeyLength.

Inductive StartupEvent :=
| SvLog (n : Notice)
| SvError (n : Notice)
| SvPassword (message : jsstring)
| SvWriteConfig (c : Config).

(** The state of the program with its configuration file ([None] when
    the file does not exist) and what the start-up code has printed and
    asked, which is kept apart from the trace of the flows.  The
    directory of the two files, which the module creates when it is
    loaded, is taken to exist, and the mode of the configuration file is
    not modelled. *)
Record Machine := {
  config_file : option Config;
  console : list StartupEvent;
  world : World
}.

Definition set_world (w : World) (s : Machine) : Machine :=
  {| config_file := config_file s; console := console s; world := w |}.

Definition tell (ev : StartupEvent) (s : Machine) : Machine :=
  {| config_file := config_file s; console := console s ++ [ev]; world := world s |}.

Definition set_config_file (c : Config) (s : Machine) : Machine :=
  {| config_file := Some c; console := console s; world := world s |}.

(** The assignment to the module variable [masterKey]. *)
Definition set_masterKey (key : buffer) (w : World) : World :=
  {| oracle := oracle w; masterKey := key; store_file := store_file w;
     cursor := cursor w; trace := trace w |}.

(** What can go wrong outside the flows: the configuration file is
    missing when it is read. *)
Inductive Failure :=
| ENOENT
| Uncaught (e : Error).

(** How the start-up code ends: as [Outcome], with the failures of its
    own. *)
Inductive Ending (A : Type) :=
| Done (a : A)
| Failed (f : Failure)
| Exited (code : Z)
| Waiting.
Arguments Done {A} a.
Arguments Failed {A} f.
Arguments Exited {A} code.
Arguments Waiting {A}.

Definition Startup (A : Type) : Type := Machine -> Ending A * Machine.

#[global] Instance Startup_ret : MRet Startup := fun A a s => (Done a, s).

#[global] Instance Startup_bind : MBind Startup := fun A B k m s =>
  match m s with
  | (Done a, s') => k a s'
  | (Failed f, s') => (Failed f, s')
  | (Exited c, s') => (Exited c, s')
  | (Waiting, s') => (Waiting, s')
  end.

(** A computation of the flows, run on the world of the machine. *)
Definition run {A} (m : M A) : Startup A := fun s =>
  match m (world s) with
  | (Return a, w) => (Done a, set_world w s)
  | (Throw e, w) => (Failed (Uncaught e), set_world w s)
  | (Exit c, w) => (Exited c, set_world w s)
  | (Pending, w) => (Waiting, set_world w s)
  end.

Definition startup_exit {A} (code : Z) : Startup A := fun s => (Exited code, s).

Definition console_log_notice (n : Notice) : Startup unit :=
  fun s => (Done tt, tell (SvLog n) s).

Definition console_error (n : Notice) : Startup unit :=
  fun s => (Done tt, tell (SvError n) s).

(** A prompt of type ['password']: a line of text, which resolves once
    the validator accepts it. *)
Definition prompt_password (message : jsstring) (validate : jsstring -> bool)
  : Startup jsstring := fun s =>
  let s' := tell (SvPassword message) (set_world (advance SrcUser 1 (world s)) s) in
  match next_answer (world s) 0 with
  | Text v => if validate v then (Done v, s') else (Waiting, s')
  | _ => (Waiting, s')
  end.

Definition existsSync_config : Startup bool :=
  fun s => (Done (bool_decide (is_Some (config_file s))), s).

Definition writeConfigFile (c : Config) : Startup unit :=
  fun s => (Done tt, tell (SvWriteConfig c) (set_config_file c s)).

Definition loadConfig : Startup Config := fun s =>
  match config_file s with
  | Some c => (Done c, s)
  | None => (Failed ENOENT, s)
  end.

(** [masterKey = buf] *)
Definition assign_masterKey (buf : buffer) : Startup unit :=
  fun s => (Done tt, set_world (set_masterKey buf (world s)) s).

Definition initSetup : Startup unit :=
  console_log_notice NoticeInitializing;;
  password ← prompt_password (js "Set application access password:")
                (fun v => bool_decide (trim v ≠ []));
  confirm ← prompt_password (js "Confirm password:")
               (fun v => bool_decide (v = password));
  bytes ← run (randomBytes 32);
  let encryptionKey := toString_base64 bytes in
  let config := {| appPassword := password; encryptionKey := encryptionKey |} in
  writeConfigFile config;;
  console_log_notice NoticeSaved;;
  console_log_notice NoticeSaveKey;;
  console_log_notice (NoticeKey encryptionKey).

Definition initAuth : Startup unit :=
  cfg ← loadConfig;
  pwd ← prompt_password (js "Enter application access password:") (fun _ => true);
  if decide (pwd ≠ appPassword cfg) then
    console_error NoticeInvalidPassword;;
    startup_exit 1
  else mret tt.

Definition initEncryptionKey : Startup unit :=
  cfg ← loadConfig;
  let buf := from_base64 (encryptionKey cfg) in
  if decide (length buf ≠ 32%nat) then
    console_error NoticeInvalidKeyLength;;
    startup_exit 1
  else assign_masterKey buf.

(** The body of the script, run with the arguments
    [process.argv.slice(2)]. *)
Definition startup (args : list jsstring) (fuel : nat) : Startup unit :=
  (if decide (args !! 0%nat = Some (js "init")) then initSetup;; startup_exit 0
   else mret tt);;
  found ← existsSync_config;
  (if (found : bool) then mret tt
   else console_log_notice NoticeNoConfig;; initSetup);;
  initAuth;;
  initEncryptionKey;;
  run (mainMenu fuel).

(** *** Vocabulary of the start-up properties *)

(** The 32 bytes that [initSetup] draws in [w] for the key. *)
Definition next_key (w : World) : buffer :=
  map (fun k => next_byte w k mod 256) (seq 0 32).

(** The configuration that [initSetup] writes for the password [p]. *)
Definition fresh_config (w : World) (p : jsstring) : Config :=
  {| appPassword := p; encryptionKey := toString_base64 (next_key w) |}.

(** The world when [initSetup] has returned. *)
Definition after_setup (w : World) : World :=
  emit (EvRandomBytes 32)
    (advance SrcRandomBytes 32 (advance SrcUser 1 (advance SrcUser 1 w))).

(** What [initSetup] prints and asks. *)
Definition setup_console (c : Config) : list StartupEvent :=
  [ SvLog NoticeInitializing;
    SvPassword (js "Set application access password:");
    SvPassword (js "Confirm password:");
    SvWriteConfig c;
    SvLog NoticeSaved; SvLog NoticeSaveKey; SvLog (NoticeKey (encryptionKey c)) ].

Definition ENTER_PASSWORD : StartupEvent :=
  SvPassword (js "Enter application access password:").

(** The machine in which the menu starts, when [initAuth] showed its
    prompt in [s] and the key of [cfg] was accepted: one answer has been
    read, for the prompt that the console ends with, and [masterKey]
    holds the bytes of the key. *)
Definition unlocked (s : Machine) (cfg : Config) : Machine :=
  set_world
    (set_masterKey (from_base64 (encryptionKey cfg)) (advance SrcUser 1 (world s)))
    (tell ENTER_PASSWORD s).

(** [before_menu s s']: from [s] to [s'] no flow has run; the store
    file and the master key are as they were, and of the world only the
    random bytes of a key and answers of the user have been read. *)
Definition before_menu (s s' : Machine) : Prop :=
  oracle (world s') = oracle (world s)
  /\ store_file (world s') = store_file (world s)
  /\ masterKey (world s') = masterKey (world s)
  /\ exists n, trace (world s') = trace (world s) ++ replicate n (EvRandomBytes 32).

(** *** Further sample data *)

(** An active entry whose tag has a changed digit, and a store that
    holds it. *)
Definition sample_damaged : Entry :=
  {| id := js "55555555-5555-4555-8555-555555555555";
     name := js "broken.io";
     secret := js "07172737475767778797a7b7:3ac881653f:af9af2e470a3d1485cfc7023387bd3cc";
     createdAt := js "2025-08-03T09:00:00.000Z";
     deprecated := false;
     deprecatedAt := None |}.

Definition sample_damaged_store : Store :=
  {| entries := [sample_other; sample_damaged] |}.

(** A world whose master key is one byte short. *)
Definition short_key : buffer := Eval cbv in map Z.of_nat (seq 0 31).

Definition short_key_world : World :=
  {| oracle := sample_env []; masterKey := short_key;
     store_file := None; cursor := fun _ => 0%nat; trace := [] |}.

(** A session of two flows from the first run: a password is generated
    for a site and then rotated. *)
Definition sample_script : list Answer :=
  [Text (js " example.com "); YesNo true; Choose 0; Choose 0].

Definition sample_session : World :=
  snd (run_flow Get (snd (run_flow Generate (sample_world sample_script None)))).

(** A configuration whose key is the base64 form of [sample_key], one
    whose key is too short, and a machine that starts with a given
    configuration file and store file. *)
Definition sample_password : jsstring := Eval cbv in js "open sesame".

Definition sample_config : Config :=
  {| appPassword := sample_password;
     encryptionKey := js "AAECAwQFBgcICQoLDA0ODxAREhMUFRYXGBkaGxwdHh8=" |}.

Definition sample_short_config : Config :=
  {| appPassword := sample_password; encryptionKey := js "c2hvcnQ=" |}.

Definition sample_machine (script : list Answer) (cfg : option Config)
    (file : option Store) : Machine :=
  {| config_file := cfg; console := []; world := sample_world script file |}.

(** The first run: the password typed three times, one password
    generated, then Exit. *)
Definition first_run_script : list Answer :=
  [ Text sample_password; Text sample_password; Text sample_password;
    Choose 0; Text (js " example.com "); YesNo true; Choose 3 ].

(** * Properties *)

Ltac zlia := Z.div_mod_to_equations; lia.

(** ** Hexadecimal encoding *)

Lemma hex_value_digit (d : Z) : 0 <= d < 16 -> hex_value (hex_digit d) = Some d.
Proof.
  intros Hd.
  assert (Hcases : d = 0 \/ d = 1 \/ d = 2 \/ d = 3 \/ d = 4 \/ d = 5 \/ d = 6 \/ d = 7
          \/ d = 8 \/ d = 9 \/ d = 10 \/ d = 11 \/ d = 12 \/ d = 13 \/ d = 14 \/ d = 15)
    by lia.
  repeat (destruct Hcases as [-> | Hcases]; [reflexivity |]).
  subst d. reflexivity.
Qed.

Lemma hex_digit_not_colon (d : Z) : hex_digit d <> COLON.
Proof.
  unfold hex_digit.
  destruct (nth_in_or_default (Z.to_nat d) HEX_DIGITS 48) as [Hin | ->]; [| discriminate].
  revert Hin. generalize (nth (Z.to_nat d) HEX_DIGITS 48). intros c Hin.
  unfold HEX_DIGITS in Hin. simpl in Hin.
  intuition (subst; discriminate).
Qed.

Lemma from_hex_toString_hex (b : buffer) :
  is_bytes b -> from_hex (toString_hex b) = b.
Proof.
  induction 1 as [| x b Hx Hb IH]; [reflexivity |].
  unfold is_byte in Hx.
  change (toString_hex (x :: b))
    with (hex_digit (x / 16) :: hex_digit (x mod 16) :: toString_hex b).
  cbn [from_hex].
  rewrite !hex_value_digit by zlia.
  rewrite IH. f_equal. zlia.
Qed.

Lemma toString_hex_no_colon (b : buffer) :
  Forall (fun c => c <> COLON) (toString_hex b).
Proof.
  induction b as [| x b IH]; [constructor |].
  change (toString_hex (x :: b))
    with (hex_digit (x / 16) :: hex_digit (x mod 16) :: toString_hex b).
  repeat constructor; auto using hex_digit_not_colon.
Qed.

Lemma toString_hex_length (b : buffer) :
  length (toString_hex b) = (2 * length b)%nat.
Proof. induction b as [| x b IH]; simpl; lia. Qed.

(** ** Splitting and joining *)

Lemma split_on_no_sep (sep : Z) (s : jsstring) :
  Forall (fun c => c <> sep) s -> split_on sep s = [s].
Proof.
  induction 1 as [| c s Hc Hs IH]; [reflexivity |].
  simpl. rewrite IH. destruct (Z.eqb_spec c sep); [contradiction | reflexivity].
Qed.

Lemma split_on_app_sep (sep : Z) (a r : jsstring) :
  Forall (fun c => c <> sep) a ->
  split_on sep (a ++ sep :: r) = a :: split_on sep r.
Proof.
  induction 1 as [| c a Hc Ha IH]; simpl.
  - rewrite Z.eqb_refl. reflexivity.
  - rewrite IH. destruct (Z.eqb_spec c sep); [contradiction | reflexivity].
Qed.

Lemma split_join3 (sep : Z) (a b c : jsstring) :
  Forall (fun x => x <> sep) a -> Forall (fun x => x <> sep) b ->
  Forall (fun x => x <> sep) c ->
  split_on sep (join_with sep [a; b; c]) = [a; b; c].
Proof.
  intros Ha Hb Hc. simpl.
  rewrite split_on_app_sep by assumption.
  rewrite split_on_app_sep by assumption.
  rewrite split_on_no_sep by assumption. reflexivity.
Qed.

(** ** UTF-8 *)

Lemma in_range_true (lo hi b : Z) :
  lo <= b <= hi -> (lo <=? b) && (b <=? hi) = true.
Proof. intros [H1 H2]. apply andb_true_intro. split; apply Z.leb_le; assumption. Qed.

Lemma utf8_lead_1 (b : Z) : 0 <= b <= 0x7F -> utf8_lead b = ([b], None).
Proof.
  intros Hb. unfold utf8_lead.
  destruct (Z.leb_spec b 0x7F); [reflexivity | lia].
Qed.

Lemma utf8_lead_2 (b : Z) :
  0xC2 <= b <= 0xDF ->
  utf8_lead b = ([], Some {| u_cp := b mod 32; u_remaining := 1;
                             u_lower := 0x80; u_upper := 0xBF |}).
Proof.
  intros Hb. unfold utf8_lead.
  destruct (Z.leb_spec b 0x7F); [lia |].
  rewrite in_range_true by lia. reflexivity.
Qed.

Lemma utf8_lead_3 (b : Z) :
  0xE0 <= b <= 0xEF ->
  utf8_lead b = ([], Some {| u_cp := b mod 16; u_remaining := 2;
                             u_lower := if b =? 0xE0 then 0xA0 else 0x80;
                             u_upper := if b =? 0xED then 0x9F else 0xBF |}).
Proof.
  intros Hb. unfold utf8_lead.
  destruct (Z.leb_spec b 0x7F); [lia |].
  destruct (Z.leb_spec 0xC2 b); [| lia].
  destruct (Z.leb_spec b 0xDF); [lia |]. cbn [andb].
  rewrite in_range_true by lia. reflexivity.
Qed.

Lemma utf8_lead_4 (b : Z) :
  0xF0 <= b <= 0xF4 ->
  utf8_lead b = ([], Some {| u_cp := b mod 8; u_remaining := 3;
                             u_lower := if b =? 0xF0 then 0x90 else 0x80;
                             u_upper := if b =? 0xF4 then 0x8F else 0xBF |}).
Proof.
  intros Hb. unfold utf8_lead.
  destruct (Z.leb_spec b 0x7F); [lia |].
  destruct (Z.leb_spec 0xC2 b); [| lia].
  destruct (Z.leb_spec b 0xDF); [lia |]. cbn [andb].
  destruct (Z.leb_spec 0xE0 b); [| lia].
  destruct (Z.leb_spec b 0xEF); [lia |]. cbn [andb].
  rewrite in_range_true by lia. reflexivity.
Qed.

(** One continuation byte inside its allowed range. *)
Lemma utf8_decode_continue (s : utf8_state) (b : Z) (r : buffer) :
  u_lower s <= b <= u_upper s ->
  utf8_decode_from (Some s) (b :: r)
  = match u_remaining s with
    | S (S k) =>
        utf8_decode_from
          (Some {| u_cp := u_cp s * 64 + b mod 64; u_remaining := S k;
                   u_lower := 0x80; u_upper := 0xBF |}) r
    | _ => units_of_code_point (u_cp s * 64 + b mod 64) ++ utf8_decode_from None r
    end.
Proof.
  intros Hb. cbn [utf8_decode_from]. rewrite in_range_true by assumption.
  reflexivity.
Qed.

Lemma utf8_decode_lead (b : Z) (r : buffer) :
  utf8_decode_from None (b :: r)
  = fst (utf8_lead b) ++ utf8_decode_from (snd (utf8_lead b)) r.
Proof. cbn [utf8_decode_from]. destruct (utf8_lead b). reflexivity. Qed.

Lemma utf8_code_point_roundtrip (cp : Z) (rest : buffer) :
  is_scalar cp ->
  utf8_decode_from None (utf8_of_code_point cp ++ rest)
  = units_of_code_point cp ++ utf8_decode_from None rest.
Proof.
  unfold is_scalar, utf8_of_code_point. intros Hcp.
  destruct (Z.ltb_spec cp 0x80) as [H1 | H1].
  { cbn [app]. rewrite utf8_decode_lead, utf8_lead_1 by lia. cbn [fst snd].
    unfold units_of_code_point.
    destruct (Z.ltb_spec cp 0x10000); [reflexivity | lia]. }
  destruct (Z.ltb_spec cp 0x800) as [H2 | H2].
  { cbn [app]. rewrite utf8_decode_lead, utf8_lead_2 by zlia. cbn [fst snd app].
    rewrite utf8_decode_continue by (cbn; zlia). cbn.
    f_equal. f_equal. zlia. }
  destruct (Z.ltb_spec cp 0x10000) as [H3 | H3].
  { cbn [app]. rewrite utf8_decode_lead, utf8_lead_3 by zlia. cbn [fst snd app].
    rewrite utf8_decode_continue.
    2:{ cbn [u_lower u_upper].
        destruct (Z.eqb_spec (0xE0 + cp / 4096) 0xE0);
          destruct (Z.eqb_spec (0xE0 + cp / 4096) 0xED); zlia. }
    cbn [u_remaining u_cp].
    rewrite utf8_decode_continue by (cbn; zlia). cbn [u_remaining u_cp].
    f_equal. f_equal. zlia. }
  cbn [app]. rewrite utf8_decode_lead, utf8_lead_4 by zlia. cbn [fst snd app].
  rewrite utf8_decode_continue.
  2:{ cbn [u_lower u_upper].
      destruct (Z.eqb_spec (0xF0 + cp / 262144) 0xF0);
        destruct (Z.eqb_spec (0xF0 + cp / 262144) 0xF4); zlia. }
  cbn [u_remaining u_cp].
  rewrite utf8_decode_continue by (cbn; zlia). cbn [u_remaining u_cp].
  rewrite utf8_decode_continue by (cbn; zlia). cbn [u_remaining u_cp].
  f_equal. f_equal. zlia.
Qed.

Lemma surrogate_pair_units (c d : Z) :
  is_high_surrogate c = true -> is_low_surrogate d = true ->
  is_scalar (0x10000 + (c - 0xD800) * 1024 + (d - 0xDC00))
  /\ units_of_code_point (0x10000 + (c - 0xD800) * 1024 + (d - 0xDC00)) = [c; d].
Proof.
  unfold is_high_surrogate, is_low_surrogate, is_scalar, units_of_code_point.
  intros [Hc1 Hc2]%andb_prop [Hd1 Hd2]%andb_prop.
  apply Z.leb_le in Hc1, Hc2, Hd1, Hd2.
  split; [lia |].
  destruct (Z.ltb_spec (0x10000 + (c - 0xD800) * 1024 + (d - 0xDC00)) 0x10000); [lia |].
  f_equal; [| f_equal]; zlia.
Qed.

Lemma utf8_roundtrip_upto (n : nat) (s : jsstring) :
  (length s <= n)%nat -> well_formed_utf16 s = true ->
  utf8_decode_from None (utf8_encode s) = s.
Proof.
  revert s. induction n as [| n IH]; intros [| c r] Hlen Hwf;
    try reflexivity; cbn [length] in Hlen; [lia |].
  cbn [utf8_encode well_formed_utf16] in *.
  destruct (is_high_surrogate c) eqn:Hhi.
  - destruct r as [| d r']; [discriminate |].
    apply andb_prop in Hwf as [Hlo Hwf]. rewrite Hlo.
    destruct (surrogate_pair_units c d Hhi Hlo) as [Hsc Hu].
    rewrite utf8_code_point_roundtrip, Hu by assumption.
    cbn [app length] in *. rewrite IH by (assumption || lia). reflexivity.
  - apply andb_prop in Hwf as [Hwf Hr]. apply andb_prop in Hwf as [Hwf Hlt].
    apply andb_prop in Hwf as [Hlo Hge].
    apply negb_true_iff in Hlo. rewrite Hlo.
    apply Z.leb_le in Hge. apply Z.ltb_lt in Hlt.
    assert (Hsc : is_scalar c).
    { unfold is_scalar, is_high_surrogate, is_low_surrogate in *.
      apply andb_false_iff in Hhi, Hlo.
      rewrite !Z.leb_gt in Hhi, Hlo. lia. }
    rewrite utf8_code_point_roundtrip by assumption.
    unfold units_of_code_point. destruct (Z.ltb_spec c 0x10000); [| lia].
    cbn [app]. rewrite IH by (assumption || lia). reflexivity.
Qed.

(** Decoding what was encoded gives back every well-formed string. *)
Lemma utf8_roundtrip (s : jsstring) :
  well_formed_utf16 s = true -> utf8_decode (utf8_encode s) = s.
Proof. apply (utf8_roundtrip_upto (length s)). lia. Qed.

Lemma utf8_of_code_point_bytes (cp : Z) :
  0 <= cp < 0x110000 -> is_bytes (utf8_of_code_point cp).
Proof.
  intros Hcp. unfold utf8_of_code_point, is_bytes.
  destruct (Z.ltb_spec cp 0x80); [| destruct (Z.ltb_spec cp 0x800);
    [| destruct (Z.ltb_spec cp 0x10000)]];
    repeat constructor; unfold is_byte; zlia.
Qed.

Lemma utf8_encode_bytes_upto (n : nat) (s : jsstring) :
  (length s <= n)%nat -> is_jsstring s -> is_bytes (utf8_encode s).
Proof.
  unfold is_jsstring.
  revert s. induction n as [| n IH]; intros [| c r] Hlen Hs;
    try constructor; cbn [length] in Hlen; [lia |].
  apply Forall_cons_iff in Hs as [Hc Hr]. unfold is_unit in Hc.
  assert (Hrep : is_bytes (utf8_of_code_point REPLACEMENT))
    by (apply utf8_of_code_point_bytes; unfold REPLACEMENT; lia).
  cbn [utf8_encode].
  destruct (is_high_surrogate c) eqn:Hhi.
  - destruct r as [| d r']; [assumption |].
    destruct (is_low_surrogate d) eqn:Hlo.
    + apply Forall_app. split.
      * apply utf8_of_code_point_bytes.
        destruct (surrogate_pair_units c d Hhi Hlo) as [Hsc _].
        unfold is_scalar in Hsc. lia.
      * apply IH; [cbn [length] in Hlen; lia |].
        apply Forall_cons_iff in Hr as [_ Hr]. assumption.
    + apply Forall_app. split; [assumption | apply IH; [lia | assumption]].
  - destruct (is_low_surrogate c).
    + apply Forall_app. split; [assumption | apply IH; [lia | assumption]].
    + apply Forall_app. split; [apply utf8_of_code_point_bytes; lia |].
      apply IH; [lia | assumption].
Qed.

Lemma utf8_encode_bytes (s : jsstring) : is_jsstring s -> is_bytes (utf8_encode s).
Proof. apply (utf8_encode_bytes_upto (length s)). lia. Qed.

Lemma well_formed_is_jsstring_upto (n : nat) (s : jsstring) :
  (length s <= n)%nat -> well_formed_utf16 s = true -> is_jsstring s.
Proof.
  unfold is_jsstring.
  revert s. induction n as [| n IH]; intros [| c r] Hlen Hwf;
    try constructor; cbn [length] in Hlen; try lia;
    cbn [well_formed_utf16] in Hwf; destruct (is_high_surrogate c) eqn:Hhi.
  - unfold is_high_surrogate in Hhi. apply andb_prop in Hhi as [H1 H2].
    apply Z.leb_le in H1, H2. unfold is_unit. lia.
  - apply andb_prop in Hwf as [Hwf _]. apply andb_prop in Hwf as [Hwf Hlt].
    apply andb_prop in Hwf as [_ Hge].
    apply Z.leb_le in Hge. apply Z.ltb_lt in Hlt. unfold is_unit. lia.
  - destruct r as [| d r']; [discriminate |].
    apply andb_prop in Hwf as [Hlo Hwf].
    constructor.
    + unfold is_low_surrogate in Hlo. apply andb_prop in Hlo as [H1 H2].
      apply Z.leb_le in H1, H2. unfold is_unit. lia.
    + apply IH; [cbn [length] in Hlen; lia | assumption].
  - apply andb_prop in Hwf as [_ Hr]. apply IH; [lia | assumption].
Qed.

Lemma well_formed_is_jsstring (s : jsstring) :
  well_formed_utf16 s = true -> is_jsstring s.
Proof. apply (well_formed_is_jsstring_upto (length s)). lia. Qed.

(** ** Counter mode and the tag *)

Lemma lxor_byte (a b : Z) : is_byte a -> is_byte b -> is_byte (Z.lxor a b).
Proof.
  unfold is_byte. intros Ha Hb.
  assert (Hnn : 0 <= Z.lxor a b) by (apply Z.lxor_nonneg; lia).
  split; [assumption |].
  destruct (Z.eq_dec (Z.lxor a b) 0) as [-> | Hne]; [lia |].
  change 256 with (2 ^ 8). apply Z.log2_lt_pow2; [lia |].
  pose proof (Z.log2_lxor a b ltac:(lia) ltac:(lia)) as Hlog.
  assert (Hla : Z.log2 a < 8).
  { destruct (Z.eq_dec a 0) as [-> | ?]; [reflexivity |].
    apply Z.log2_lt_pow2; lia. }
  assert (Hlb : Z.log2 b < 8).
  { destruct (Z.eq_dec b 0) as [-> | ?]; [reflexivity |].
    apply Z.log2_lt_pow2; lia. }
  lia.
Qed.

Lemma xor_bytes_is_bytes (a b : buffer) :
  is_bytes a -> is_bytes b -> is_bytes (xor_bytes a b).
Proof.
  unfold is_bytes, xor_bytes. intros Ha. revert b.
  induction Ha as [| x a Hx Ha IH]; intros [| y b] Hb; cbn; try constructor.
  - apply Forall_cons_iff in Hb as [Hy _]. apply lxor_byte; assumption.
  - apply Forall_cons_iff in Hb as [_ Hb]. apply IH. assumption.
Qed.

Lemma xor_bytes_length (a b : buffer) :
  (length a <= length b)%nat -> length (xor_bytes a b) = length a.
Proof.
  unfold xor_bytes. revert b.
  induction a as [| x a IH]; intros [| y b] Hlen; cbn in *; try lia.
  rewrite IH by lia. reflexivity.
Qed.

Lemma xor_bytes_involutive (a k : buffer) :
  (length a <= length k)%nat -> xor_bytes (xor_bytes a k) k = a.
Proof.
  unfold xor_bytes. revert k.
  induction a as [| x a IH]; intros [| y k] Hlen; cbn in *; try lia; try reflexivity.
  rewrite IH by lia. f_equal.
  rewrite Z.lxor_assoc, Z.lxor_nilpotent, Z.lxor_0_r. reflexivity.
Qed.

Lemma bytes_of_block_length (n : nat) (x : Z) : length (bytes_of_block n x) = n.
Proof. unfold bytes_of_block. rewrite length_map, length_seq. reflexivity. Qed.

Lemma bytes_of_block_is_bytes (n : nat) (x : Z) : is_bytes (bytes_of_block n x).
Proof.
  unfold bytes_of_block, is_bytes. apply Forall_map, Forall_forall.
  intros i _. unfold is_byte. apply Z.mod_pos_bound. lia.
Qed.

Section GCM_facts.
Variable E : Z -> Z.

Lemma gctr_nil (fuel : nat) (cb : Z) : gctr E fuel cb [] = [].
Proof. destruct fuel; reflexivity. Qed.

Lemma gctr_short (fuel : nat) (cb : Z) (a : buffer) :
  (length a <= 16)%nat ->
  gctr E (S fuel) cb a = xor_bytes a (bytes_of_block 16 (E cb)).
Proof.
  intros Hlen. destruct a as [| x a]; [reflexivity |].
  cbn [gctr]. rewrite take_ge, drop_ge by lia.
  rewrite gctr_nil, app_nil_r. reflexivity.
Qed.

Lemma gctr_block (fuel : nat) (cb : Z) (a r : buffer) :
  length a = 16%nat ->
  gctr E (S fuel) cb (a ++ r)
  = xor_bytes a (bytes_of_block 16 (E cb)) ++ gctr E fuel (inc32 cb) r.
Proof.
  intros Hlen. destruct a as [| x a]; [discriminate |].
  change ((x :: a) ++ r) with (x :: (a ++ r)). cbn [gctr].
  change (x :: (a ++ r)) with ((x :: a) ++ r).
  rewrite take_app_length' by (symmetry; assumption).
  rewrite drop_app_length' by (symmetry; assumption). reflexivity.
Qed.

Lemma gctr_length (fuel : nat) (cb : Z) (bs : buffer) :
  (length bs <= fuel)%nat -> length (gctr E fuel cb bs) = length bs.
Proof.
  revert cb bs. induction fuel as [| f IH]; intros cb bs Hlen.
  - destruct bs; [reflexivity | cbn in Hlen; lia].
  - destruct (le_lt_dec (length bs) 16) as [Hs | Hl].
    + rewrite gctr_short by assumption.
      apply xor_bytes_length. rewrite bytes_of_block_length. assumption.
    + rewrite <- (take_drop 16 bs) at 1.
      rewrite gctr_block by (rewrite length_take; lia).
      rewrite length_app, IH by (rewrite length_drop; lia).
      rewrite xor_bytes_length
        by (rewrite bytes_of_block_length, length_take; lia).
      rewrite length_take, length_drop. lia.
Qed.

Lemma gctr_is_bytes (fuel : nat) (cb : Z) (bs : buffer) :
  is_bytes bs -> is_bytes (gctr E fuel cb bs).
Proof.
  revert cb bs. induction fuel as [| f IH]; intros cb bs Hbs; [constructor |].
  destruct bs as [| x bs']; [constructor |].
  cbn [gctr]. apply Forall_app. split.
  - apply xor_bytes_is_bytes; [| apply bytes_of_block_is_bytes].
    apply Forall_take. assumption.
  - apply IH. apply Forall_drop. assumption.
Qed.

(** Counter mode is its own inverse. *)
Lemma gctr_involutive (fuel : nat) (cb : Z) (bs : buffer) :
  (length bs <= fuel)%nat -> gctr E fuel cb (gctr E fuel cb bs) = bs.
Proof.
  revert cb bs. induction fuel as [| f IH]; intros cb bs Hlen.
  - destruct bs; [reflexivity | cbn in Hlen; lia].
  - destruct (le_lt_dec (length bs) 16) as [Hs | Hl].
    + rewrite (gctr_short f cb bs) by assumption.
      rewrite gctr_short
        by (rewrite xor_bytes_length; rewrite ?bytes_of_block_length; lia).
      apply xor_bytes_involutive. rewrite bytes_of_block_length. assumption.
    + rewrite <- (take_drop 16 bs) at 1 2.
      assert (Ht : length (take 16 bs) = 16%nat) by (rewrite length_take; lia).
      rewrite gctr_block by assumption.
      rewrite gctr_block
        by (rewrite xor_bytes_length; rewrite ?bytes_of_block_length; lia).
      rewrite xor_bytes_involutive by (rewrite bytes_of_block_length; lia).
      rewrite IH by (rewrite length_drop; lia). reflexivity.
Qed.

Lemma gcm_tag_length (iv ct : buffer) : length (gcm_tag E iv ct) = 16%nat.
Proof. apply bytes_of_block_length. Qed.

(** Decrypting what was encrypted, with the tag that came with it,
    verifies and gives back the plaintext. *)
Lemma gcm_decrypt_encrypt (iv pt : buffer) :
  gcm_decrypt E iv (fst (gcm_encrypt E iv pt)) (snd (gcm_encrypt E iv pt)) = Some pt.
Proof.
  unfold gcm_encrypt, gcm_decrypt. cbn [fst snd].
  rewrite gcm_tag_length.
  rewrite take_ge by (rewrite gcm_tag_length; lia).
  rewrite decide_True by reflexivity.
  rewrite gctr_length by lia.
  rewrite gctr_involutive by lia. reflexivity.
Qed.

(** Nothing is released unless the supplied tag is a prefix of the
    recomputed one. *)
Lemma gcm_decrypt_Some (iv ct tag pt : buffer) :
  gcm_decrypt E iv ct tag = Some pt ->
  tag = take (length tag) (gcm_tag E iv ct)
  /\ pt = gctr E (length ct) (inc32 (pre_counter (E 0) iv)) ct.
Proof.
  unfold gcm_decrypt. destruct (decide _) as [Heq | _]; [| discriminate].
  intros [= <-]. split; [symmetry; assumption | reflexivity].
Qed.
End GCM_facts.

(** ** Test vectors *)

(** FIPS 197, appendix C.3. *)
Example aes256_fips197 :
  aes256_cipher (key_expansion (from_hex
      (js "000102030405060708090a0b0c0d0e0f101112131415161718191a1b1c1d1e1f")))
    (from_hex (js "00112233445566778899aabbccddeeff"))
  = from_hex (js "8ea2b7ca516745bfeafc49904b496089").
Proof. vm_compute. reflexivity. Qed.

(** The GCM test cases 13 and 14: a zero key and nonce, with no
    plaintext and with one block of zeros. *)
Example gcm_test_case_13 :
  cipher_run (replicate 32 0) (replicate 12 0) []
  = Ok ([], from_hex (js "530f8afbc74536b9a963b4f1c4cb738b")).
Proof. vm_compute. reflexivity. Qed.

Example gcm_test_case_14 :
  cipher_run (replicate 32 0) (replicate 12 0) (replicate 16 0)
  = Ok (from_hex (js "cea7403d4d606b6e074ec5d3baf39d18"),
        from_hex (js "d0d1c8a799996bf0265b98b5d48ab919")).
Proof. vm_compute. reflexivity. Qed.

(** One, two, three and four bytes for a code point, and back. *)
Example utf8_samples :
  utf8_encode [0x41; 0xE9; 0x20AC; 0xD83D; 0xDE00]
  = from_hex (js "41c3a9e282acf09f9880")
  /\ utf8_decode (from_hex (js "41c3a9e282acf09f9880"))
     = [0x41; 0xE9; 0x20AC; 0xD83D; 0xDE00].
Proof. split; vm_compute; reflexivity. Qed.

(** ** Running the monad *)

Lemma bind_Return {A B} (m : M A) (k : A -> M B) (w w' : World) (a : A) :
  m w = (Return a, w') -> (m ≫= k) w = k a w'.
Proof. intros H. unfold mbind, M_bind. rewrite H. reflexivity. Qed.

Lemma bind_Throw {A B} (m : M A) (k : A -> M B) (w w' : World) (e : Error) :
  m w = (Throw e, w') -> (m ≫= k) w = (Throw e, w').
Proof. intros H. unfold mbind, M_bind. rewrite H. reflexivity. Qed.

(** ** The fields of an updated world *)

Lemma oracle_emit ev w : oracle (emit ev w) = oracle w.
Proof. reflexivity. Qed.
Lemma masterKey_emit ev w : masterKey (emit ev w) = masterKey w.
Proof. reflexivity. Qed.
Lemma store_file_emit ev w : store_file (emit ev w) = store_file w.
Proof. reflexivity. Qed.
Lemma cursor_emit ev w : cursor (emit ev w) = cursor w.
Proof. reflexivity. Qed.
Lemma trace_emit ev w : trace (emit ev w) = trace w ++ [ev].
Proof. reflexivity. Qed.

Lemma oracle_set_store_file s w : oracle (set_store_file s w) = oracle w.
Proof. reflexivity. Qed.
Lemma masterKey_set_store_file s w : masterKey (set_store_file s w) = masterKey w.
Proof. reflexivity. Qed.
Lemma store_file_set_store_file s w : store_file (set_store_file s w) = Some s.
Proof. reflexivity. Qed.
Lemma cursor_set_store_file s w : cursor (set_store_file s w) = cursor w.
Proof. reflexivity. Qed.
Lemma trace_set_store_file s w : trace (set_store_file s w) = trace w.
Proof. reflexivity. Qed.

Lemma oracle_advance src n w : oracle (advance src n w) = oracle w.
Proof. reflexivity. Qed.
Lemma masterKey_advance src n w : masterKey (advance src n w) = masterKey w.
Proof. reflexivity. Qed.
Lemma store_file_advance src n w : store_file (advance src n w) = store_file w.
Proof. reflexivity. Qed.
Lemma trace_advance src n w : trace (advance src n w) = trace w.
Proof. reflexivity. Qed.
Lemma cursor_advance_same src n w :
  cursor (advance src n w) src = (n + cursor w src)%nat.
Proof. cbn. rewrite decide_True by reflexivity. reflexivity. Qed.
Lemma cursor_advance_other src src' n w :
  src' <> src -> cursor (advance src n w) src' = cursor w src'.
Proof. intros H. cbn. rewrite decide_False by assumption. reflexivity. Qed.

Create Rewrite HintDb world.
#[local] Hint Rewrite oracle_emit masterKey_emit store_file_emit cursor_emit trace_emit
  oracle_set_store_file masterKey_set_store_file store_file_set_store_file
  cursor_set_store_file trace_set_store_file
  oracle_advance masterKey_advance store_file_advance trace_advance
  cursor_advance_same : world.
#[local] Hint Rewrite cursor_advance_other using discriminate : world.

Ltac world_simpl :=
  unfold next_random, next_byte, next_uuid, next_date, next_answer in *;
  autorewrite with world in *.

(** ** [encryptText] and [decryptText] *)

Lemma createCipheriv_ok (key iv : buffer) :
  length key = 32%nat -> is_valid_gcm_iv_length (length iv) = true ->
  createCipheriv key iv = Ok (aes_256 key).
Proof.
  intros Hk Hiv. unfold createCipheriv.
  rewrite Hiv, decide_True by assumption. reflexivity.
Qed.

(** The payload has the three hexadecimal components, in this order. *)
Lemma encryptText_with_payload (key iv : buffer) (plain : jsstring) :
  length key = 32%nat -> is_valid_gcm_iv_length (length iv) = true ->
  exists ct tag,
    gcm_encrypt (aes_256 key) iv (utf8_encode plain) = (ct, tag)
    /\ encryptText_with key iv plain
       = Ok (toString_hex iv ++ COLON :: toString_hex ct ++ COLON :: toString_hex tag).
Proof.
  intros Hk Hiv. unfold encryptText_with, cipher_run.
  rewrite createCipheriv_ok by assumption.
  generalize (aes_256 key). intros E.
  cbn [result_bind].
  destruct (gcm_encrypt E iv (utf8_encode plain)) as [ct tag].
  exists ct, tag. split; reflexivity.
Qed.

Lemma decipher_run_ok (key iv ct tag pt : buffer) :
  length key = 32%nat -> is_valid_gcm_iv_length (length iv) = true ->
  length tag = 16%nat ->
  gcm_decrypt (aes_256 key) iv ct tag = Some pt ->
  decipher_run key iv ct tag = Ok pt.
Proof.
  intros Hk Hiv Htag Hdec. unfold decipher_run.
  rewrite createCipheriv_ok by assumption.
  revert Hdec. generalize (aes_256 key). intros E Hdec.
  cbn [result_bind]. rewrite Htag, Hdec. reflexivity.
Qed.

Lemma decryptText_three_parts (key : buffer) (ivHex ctHex tagHex : jsstring)
    (rest : list jsstring) (payload : jsstring) :
  split_on COLON payload = ivHex :: ctHex :: tagHex :: rest ->
  decryptText key payload
  = result_bind (decipher_run key (from_hex ivHex) (from_hex ctHex) (from_hex tagHex))
      (fun pt => Ok (utf8_decode pt)).
Proof. intros Hs. unfold decryptText. rewrite Hs. reflexivity. Qed.

(** The pure core of the round trip: whatever nonce [randomBytes]
    returned. *)
Lemma decryptText_encryptText_with (key iv : buffer) (plain : jsstring) :
  length key = 32%nat -> length iv = IV_LEN -> is_bytes iv ->
  well_formed_utf16 plain = true ->
  exists payload,
    encryptText_with key iv plain = Ok payload /\ decryptText key payload = Ok plain.
Proof.
  intros Hk Hlen Hiv Hwf.
  assert (Hne : is_valid_gcm_iv_length (length iv) = true) by (rewrite Hlen; reflexivity).
  destruct (encryptText_with_payload key iv plain Hk Hne) as (ct & tag & Henc & Hpay).
  eexists. split; [exact Hpay |].
  assert (Hpt : is_bytes (utf8_encode plain))
    by (apply utf8_encode_bytes, well_formed_is_jsstring; assumption).
  pose proof (gcm_decrypt_encrypt (aes_256 key) iv
                (utf8_encode plain)) as Hdec.
  rewrite Henc in Hdec. cbn [fst snd] in Hdec.
  assert (Hct : is_bytes ct).
  { apply (f_equal fst) in Henc. cbn [fst] in Henc. subst ct.
    unfold gcm_encrypt. cbn [fst]. apply gctr_is_bytes, Hpt. }
  assert (Htag : is_bytes tag /\ length tag = 16%nat).
  { apply (f_equal snd) in Henc. cbn [snd] in Henc. subst tag.
    unfold gcm_encrypt. cbn [snd].
    split; [apply bytes_of_block_is_bytes | apply bytes_of_block_length]. }
  destruct Htag as [Htag Htlen].
  rewrite (decryptText_three_parts key (toString_hex iv) (toString_hex ct)
             (toString_hex tag) []).
  2:{ apply (split_join3 COLON (toString_hex iv) (toString_hex ct) (toString_hex tag));
      apply toString_hex_no_colon. }
  rewrite !from_hex_toString_hex by assumption.
  rewrite (decipher_run_ok key iv ct tag (utf8_encode plain)) by assumption.
  cbn [result_bind]. f_equal. apply utf8_roundtrip. assumption.
Qed.

Lemma randomBytes_spec (n : nat) (w : World) :
  exists iv,
    randomBytes n w = (Return iv, emit (EvRandomBytes n) (advance SrcRandomBytes n w))
    /\ length iv = n /\ is_bytes iv.
Proof.
  unfold randomBytes. eexists. split; [reflexivity |].
  split.
  - rewrite length_map, length_seq. reflexivity.
  - apply Forall_map, Forall_forall. intros i _. unfold is_byte.
    apply Z.mod_pos_bound. lia.
Qed.

(** C1 (as amended).  For every 32-byte master key and every well-formed
    plaintext (a string without unpaired surrogates), [encryptText]
    returns a payload, whatever nonce the random source gives, and
    [decryptText] of that payload under the same key returns exactly the
    plaintext. *)
Theorem encryptText_decryptText_roundtrip (w : World) (plain : jsstring) :
  length (masterKey w) = 32%nat ->
  well_formed_utf16 plain = true ->
  exists payload w',
    encryptText plain w = (Return payload, w')
    /\ decryptText (masterKey w) payload = Ok plain.
Proof.
  intros Hk Hwf.
  destruct (randomBytes_spec IV_LEN w) as (iv & Hrb & Hlen & Hiv).
  destruct (decryptText_encryptText_with (masterKey w) iv plain Hk Hlen Hiv Hwf)
    as (payload & Henc & Hdec).
  exists payload. eexists. split; [| assumption].
  unfold encryptText. rewrite (bind_Return _ _ _ _ _ Hrb).
  unfold mbind, M_bind, get_masterKey.
  rewrite masterKey_emit, masterKey_advance, Henc. reflexivity.
Qed.

Lemma encryptText_decryptText_roundtrip_witness :
  exists payload w',
    encryptText (js "correct horse") (sample_world [] None) = (Return payload, w')
    /\ decryptText (masterKey (sample_world [] None)) payload = Ok (js "correct horse").
Proof.
  apply (encryptText_decryptText_roundtrip (sample_world [] None) (js "correct horse"));
    reflexivity.
Defined.

(** C1 as stated fails: a string made of one unpaired surrogate comes
    back as U+FFFD. *)
Lemma roundtrip_loses_lone_surrogate :
  is_jsstring [0xD800]
  /\ fst (encryptText [0xD800] (sample_world [] None))
     = Return (js "07172737475767778797a7b7:bd1250:3e0091a7545ae4a0f8e1320b9f616b0f")
  /\ decryptText sample_key
       (js "07172737475767778797a7b7:bd1250:3e0091a7545ae4a0f8e1320b9f616b0f")
     = Ok [0xFFFD]
  /\ Ok [0xFFFD] <> Ok [0xD800].
Proof.
  split; [repeat constructor; unfold is_unit; lia |].
  split; [vm_compute; reflexivity |].
  split; [vm_compute; reflexivity | discriminate].
Qed.

(** ** The outcomes of [decryptText] *)

Lemma split_on_length_ge_3 (payload : jsstring) :
  (3 <= length (split_on COLON payload))%nat ->
  exists ivHex ctHex tagHex rest,
    split_on COLON payload = ivHex :: ctHex :: tagHex :: rest.
Proof.
  destruct (split_on COLON payload) as [| a [| b [| c r]]]; cbn [length]; try lia.
  intros _. eauto.
Qed.











(** On the same payload, a digit changed to another digit is caught,
    in the ciphertext as in the tag; a payload of two components and a
    nonce that is not hexadecimal are refused by the argument checks. *)
Example changed_digit_is_rejected :
  decryptText sample_key
    (js "07172737475767778797a7b7:3bc881653f:af9af2e470a3d1485cfc7023387bd3cb")
  = Err ERR_AUTH_FAILED
  /\ decryptText sample_key
       (js "07172737475767778797a7b7:3ac881653f:af9af2e470a3d1485cfc7023387bd3cc")
     = Err ERR_AUTH_FAILED
  /\ decryptText sample_key (js "07172737475767778797a7b7:3ac881653f")
     = Err ERR_INVALID_ARG_TYPE
  /\ decryptText sample_key (js "zz:3ac881653f:af9af2e470a3d1485cfc7023387bd3cb")
     = Err ERR_CRYPTO_INVALID_IV
  /\ decryptText sample_key (js "07172737475767778797a7b7:3ac881653f:af9af2e470zz")
     = Err ERR_CRYPTO_INVALID_AUTH_TAG.
Proof.
  split; [vm_compute; reflexivity |].
  split; [vm_compute; reflexivity |].
  split; [vm_compute; reflexivity |].
  split; vm_compute; reflexivity.
Qed.

(** [setAuthTag] takes the tags of 4, 8 and 12 to 16 bytes: a tag
    component cut short is compared on the bytes that are left. *)
Example shortened_tag_still_decrypts :
  decryptText sample_key (js "07172737475767778797a7b7:3ac881653f:af9af2e4")
  = Ok (js "hello")
  /\ decryptText sample_key
       (js "07172737475767778797a7b7:3ac881653f:af9af2e470a3d1485cfc7023387bd3")
     = Ok (js "hello").
Proof. split; vm_compute; reflexivity. Qed.

(** The decoder reads the low byte of a code unit: U+0161, whose low
    byte is that of [a], counts as the digit [a]. *)
Example low_byte_is_read :
  from_hex ([353] ++ js "f9af") = from_hex (js "af9af")
  /\ decryptText sample_key
       (js "07172737475767778797a7b7:3ac881653f:"
        ++ [353] ++ js "f9af2e470a3d1485cfc7023387bd3cb")
     = Ok (js "hello").
Proof. split; vm_compute; reflexivity. Qed.

(** ** Total correctness of monadic code *)

Lemma returns_ret {A} (a : A) (w : World) (Q : A -> World -> Prop) :
  Q a w -> returns (mret a) w Q.
Proof. intros H. exists a, w. split; [reflexivity | assumption]. Qed.

Lemma returns_bind {A B} (m : M A) (k : A -> M B) (w : World) (Q : B -> World -> Prop) :
  returns m w (fun a w' => returns (k a) w' Q) -> returns (m ≫= k) w Q.
Proof.
  intros (a & w' & Hm & b & w'' & Hk & HQ).
  exists b, w''. split; [| assumption].
  rewrite (bind_Return _ _ _ _ _ Hm). assumption.
Qed.

Lemma returns_weaken {A} (m : M A) (w : World) (Q Q' : A -> World -> Prop) :
  returns m w Q -> (forall a w', Q a w' -> Q' a w') -> returns m w Q'.
Proof. intros (a & w' & Hm & HQ) Himp. exists a, w'. auto. Qed.

(** ** The password generator *)

Lemma Math_random_spec (w : World) :
  returns Math_random w (fun r w' => 0 <= r < 2 ^ 53 /\ w' = draw w).
Proof.
  eexists _, _. split; [reflexivity |]. split; [| reflexivity].
  apply Z.mod_pos_bound. lia.
Qed.

(** Rounding moves a product by less than the last bit it keeps. *)
Lemma round_to_double_cases (m : Z) :
  0 <= m ->
  round_to_double m = m
  \/ exists k q rest,
       1 <= k /\ 2 ^ (52 + k) <= m < 2 ^ (53 + k)
       /\ m = q * 2 ^ k + rest /\ 0 <= rest < 2 ^ k
       /\ (round_to_double m = q * 2 ^ k /\ 2 * rest <= 2 ^ k
           \/ round_to_double m = (q + 1) * 2 ^ k /\ 2 ^ k <= 2 * rest).
Proof.
  intros Hm. unfold round_to_double.
  destruct (Z.leb_spec (Z.log2 m - 52) 0) as [Hk | Hk]; [left; reflexivity |].
  right. set (k := Z.log2 m - 52) in *.
  assert (Hpos : 0 < m).
  { destruct (Z.eq_dec m 0) as [-> | ?]; [| lia]. unfold k in Hk. cbn in Hk. lia. }
  destruct (Z.log2_spec m Hpos) as [Hlo Hhi].
  replace (Z.log2 m) with (52 + k) in Hlo by (unfold k; lia).
  replace (Z.succ (Z.log2 m)) with (53 + k) in Hhi by (unfold k; lia).
  assert (Hpk : 0 < 2 ^ k) by (apply Z.pow_pos_nonneg; lia).
  assert (Hhalf : 2 ^ k = 2 * 2 ^ (k - 1)).
  { rewrite <- Z.pow_succ_r by lia. f_equal. lia. }
  exists k, (m / 2 ^ k), (m mod 2 ^ k).
  split; [lia |]. split; [lia |].
  split; [rewrite Z.mul_comm; apply Z.div_mod; lia |].
  split; [apply Z.mod_pos_bound; lia |].
  destruct (Z.ltb_spec (2 ^ (k - 1)) (m mod 2 ^ k)) as [Hup | Hdown]; cbn [orb].
  - right. split; [reflexivity | lia].
  - destruct (Z.eqb_spec (m mod 2 ^ k) (2 ^ (k - 1))) as [Heq | Hne]; cbn [andb].
    + destruct (Z.odd (m / 2 ^ k)).
      * right. split; [reflexivity | lia].
      * left. split; [reflexivity | lia].
    + left. split; [reflexivity | lia].
Qed.

(** The double product of a draw below 1 and of a positive integer
    [n < 2^53] is below [n]: the rounding never reaches [n]. *)
Lemma round_to_double_below (r n : Z) :
  0 <= r < 2 ^ 53 -> 0 < n < 2 ^ 53 ->
  0 <= round_to_double (r * n) < n * 2 ^ 53.
Proof.
  intros Hr Hn.
  assert (Hm : 0 <= r * n <= n * 2 ^ 53 - n) by nia.
  destruct (round_to_double_cases (r * n) (proj1 Hm))
    as [-> | (k & q & rest & Hk & [Hlo Hhi] & Hdiv & Hrest & Hround)]; [lia |].
  set (m := r * n) in *.
  assert (Hpk : 0 < 2 ^ k) by (apply Z.pow_pos_nonneg; lia).
  (* at most 53 bits are rounded away *)
  assert (Hk53 : k <= 53).
  { assert (Hlt : 2 ^ (52 + k) < 2 ^ 106).
    { change (2 ^ 106) with (2 ^ 53 * 2 ^ 53). nia. }
    apply Z.pow_lt_mono_r_iff in Hlt; lia. }
  assert (Hsplit : 2 ^ 53 = 2 ^ (53 - k) * 2 ^ k).
  { rewrite <- Z.pow_add_r by lia. f_equal. lia. }
  assert (Hpj : 0 < 2 ^ (53 - k)) by (apply Z.pow_pos_nonneg; lia).
  assert (Hlo' : 2 ^ (52 + k) = 2 ^ 52 * 2 ^ k) by (apply Z.pow_add_r; lia).
  assert (H53 : 2 ^ 53 = 2 * 2 ^ 52) by reflexivity.
  set (P := 2 ^ k) in *. set (J := 2 ^ (53 - k)) in *.
  assert (Hq0 : 0 <= q) by nia.
  assert (HqQ : q < n * J) by nia.
  destruct Hround as [[-> _] | [-> Hup]].
  - split; [nia |]. rewrite Hsplit. nia.
  - split; [nia |]. rewrite Hsplit.
    (* the quotient is not the last one below [n * J] *)
    assert (Hq1 : q + 1 < n * J).
    { destruct (Z.eq_dec (q + 1) (n * J)) as [Hlast | ?]; [| lia].
      exfalso.
      assert (Hn2 : 2 * n <= P) by nia.
      nia. }
    nia.
Qed.

Lemma floor_random_times_spec (n : Z) (w : World) :
  0 < n < 2 ^ 53 ->
  returns (floor_random_times n) w (fun i w' => 0 <= i < n /\ w' = draw w).
Proof.
  intros Hn. unfold floor_random_times. apply returns_bind.
  eapply returns_weaken; [apply Math_random_spec |].
  intros r w' [Hr ->]. apply returns_ret. split; [| reflexivity].
  pose proof (round_to_double_below r n Hr Hn) as Hb.
  split.
  - apply Z.div_pos; lia.
  - apply Z.div_lt_upper_bound; lia.
Qed.

(** A draw at which the rounding shows: the exact products with 70 and
    with 7 are below 40 and 4 by less than a double tells apart there,
    and the double products are 40 and 4. *)
Example floor_random_times_rounds_up :
  5146971002709138 * 70 / 2 ^ 53 = 39
  /\ round_to_double (5146971002709138 * 70) / 2 ^ 53 = 40
  /\ 5146971002709138 * 7 / 2 ^ 53 = 3
  /\ round_to_double (5146971002709138 * 7) / 2 ^ 53 = 4.
Proof.
  split; [vm_compute; reflexivity |].
  split; [vm_compute; reflexivity |].
  split; vm_compute; reflexivity.
Qed.

Lemma char_at_in (s : jsstring) (i : Z) :
  0 <= i < Z.of_nat (length s) -> char_of s (char_at s i).
Proof.
  intros Hi. unfold char_at. destruct (Z.ltb_spec i 0); [lia |].
  destruct (s !! Z.to_nat i) as [c |] eqn:Hc.
  - exists c. split; [reflexivity |]. eapply list_elem_of_lookup_2, Hc.
  - apply lookup_ge_None in Hc. lia.
Qed.

(** Whatever the multiplier, the call returns after one draw. *)
Lemma floor_random_times_runs (n : Z) (w : World) :
  returns (floor_random_times n) w (fun _ w' => w' = draw w).
Proof.
  unfold floor_random_times. apply returns_bind.
  eapply returns_weaken; [apply Math_random_spec |].
  intros r w' [_ ->]. apply returns_ret. reflexivity.
Qed.

Lemma pick_spec (s : jsstring) (w : World) :
  s <> [] -> Z.of_nat (length s) < 2 ^ 53 ->
  returns (pick s) w (fun x w' => char_of s x /\ w' = draw w).
Proof.
  intros Hs Hlen. unfold pick. apply returns_bind.
  eapply returns_weaken.
  - apply floor_random_times_spec. destruct s; [contradiction | cbn in *; lia].
  - intros i w' [Hi ->]. apply returns_ret. split; [| reflexivity].
    apply char_at_in. assumption.
Qed.

Lemma iter_draw_S (n : nat) (w : World) :
  Nat.iter n draw (draw w) = Nat.iter (S n) draw w.
Proof. symmetry. apply Nat.iter_succ_r. Qed.

(** The loop that fills the array stops with [len] elements (or with
    the ones it had, when there were already more), every new one a
    character of [all], after one draw for each. *)
Lemma fill_spec (all : jsstring) (len : Z) (fuel : nat) (pw : list jsstring) (w : World) :
  all <> [] -> Z.of_nat (length all) < 2 ^ 53 ->
  (Z.to_nat (len - Z.of_nat (length pw)) < fuel)%nat ->
  returns (fill fuel len all pw) w (fun pw' w' =>
    exists extra,
      pw' = pw ++ extra /\ Forall (char_of all) extra
      /\ length extra = Z.to_nat (len - Z.of_nat (length pw))
      /\ w' = Nat.iter (length extra) draw w).
Proof.
  intros Hall Hshort. revert pw w.
  induction fuel as [| f IH]; intros pw w Hfuel; [lia |].
  cbn [fill]. destruct (Z.ltb_spec (Z.of_nat (length pw)) len) as [Hlt | Hge].
  - apply returns_bind. eapply returns_weaken; [apply pick_spec; assumption |].
    intros c w1 [Hc ->].
    eapply returns_weaken.
    + apply IH. rewrite length_app. cbn [length]. lia.
    + intros pw' w' (extra & -> & Hex & Hlen & ->).
      rewrite length_app in Hlen. cbn [length] in Hlen.
      exists (c :: extra). rewrite <- app_assoc. split; [reflexivity |].
      split; [constructor; assumption |].
      split; [cbn [length]; lia |].
      cbn [length]. apply iter_draw_S.
  - apply returns_ret. exists []. rewrite app_nil_r.
    split; [reflexivity |]. split; [constructor |].
    split; [cbn; lia | reflexivity].
Qed.

Lemma insert_head_perm (a b : jsstring) (l : list jsstring) (j : nat) :
  l !! j = Some b -> b :: <[j := a]> l ≡ₚ a :: l.
Proof.
  revert j. induction l as [| x l IH]; intros [| j] Hj; try discriminate.
  - cbn in Hj. injection Hj as ->. cbn. apply perm_swap.
  - cbn in Hj. cbn [insert list_insert].
    rewrite perm_swap. rewrite (IH j Hj). apply perm_swap.
Qed.

Lemma swap_perm (i j : nat) (pw : list jsstring) : swap i j pw ≡ₚ pw.
Proof.
  unfold swap.
  destruct (pw !! i) as [a |] eqn:Hi; [| reflexivity].
  destruct (pw !! j) as [b |] eqn:Hj; [| reflexivity].
  revert i j Hi Hj. induction pw as [| x l IH]; intros [| i] [| j] Hi Hj;
    try discriminate; cbn in Hi, Hj; cbn [insert list_insert].
  - injection Hi as ->. injection Hj as ->. reflexivity.
  - injection Hi as ->. apply insert_head_perm. assumption.
  - injection Hj as ->. apply insert_head_perm. assumption.
  - constructor. apply IH; assumption.
Qed.

(** The shuffle permutes the array, with one draw for each position but
    the first. *)
Lemma shuffle_spec (i : nat) (pw : list jsstring) (w : World) :
  returns (shuffle i pw) w (fun pw' w' => pw' ≡ₚ pw /\ w' = Nat.iter i draw w).
Proof.
  revert pw w. induction i as [| i IH]; intros pw w.
  - apply returns_ret. split; reflexivity.
  - cbn [shuffle]. apply returns_bind.
    eapply returns_weaken; [apply floor_random_times_runs |].
    intros j w1 ->.
    eapply returns_weaken; [apply IH |].
    intros pw' w' [Hperm ->]. split.
    + rewrite Hperm. apply swap_perm.
    + apply iter_draw_S.
Qed.

Lemma concat_chars_length (pw : list jsstring) :
  Forall (fun x => exists s, char_of s x) pw -> length (concat pw) = length pw.
Proof.
  induction 1 as [| x pw (s & c & -> & _) _ IH]; [reflexivity |].
  cbn. rewrite IH. reflexivity.
Qed.

Lemma elem_of_concat_char (pw : list jsstring) (c : Z) :
  [c] ∈ pw -> c ∈ concat pw.
Proof.
  induction pw as [| x l IH]; intros Hin.
  - apply elem_of_nil in Hin. contradiction.
  - apply elem_of_cons in Hin as [<- | Hin]; cbn.
    + left.
    + apply elem_of_app. right. apply IH. assumption.
Qed.

Lemma concat_chars_Forall (s : jsstring) (pw : list jsstring) :
  Forall (char_of s) pw -> Forall (fun c => c ∈ s) (concat pw).
Proof.
  induction 1 as [| x pw (c & -> & Hc) _ IH]; [constructor |].
  cbn. constructor; assumption.
Qed.

Lemma char_of_all (x : jsstring) :
  char_of LOWER x \/ char_of UPPER x \/ char_of DIGITS x \/ char_of SPECIAL x ->
  char_of ALL_CLASSES x.
Proof.
  unfold ALL_CLASSES.
  intros [(c & -> & H) | [(c & -> & H) | [(c & -> & H) | (c & -> & H)]]];
    exists c; (split; [reflexivity |]); rewrite !elem_of_app; auto.
Qed.

(** The strings that [pick] indexes are short. *)
Ltac short := vm_compute; reflexivity.

(** What [generatePassword] returns, and what it reads on the way: the
    four first picks, the fill and the shuffle each call [Math.random],
    [2 * len - 1] times in all, and touch nothing else. *)
Lemma generatePassword_spec (length : Z) (w : World) :
  returns (generatePassword length) w (fun pwd w' =>
    Z.of_nat (List.length pwd) = Z.max length 8
    /\ (exists c, c ∈ pwd /\ c ∈ LOWER)
    /\ (exists c, c ∈ pwd /\ c ∈ UPPER)
    /\ (exists c, c ∈ pwd /\ c ∈ DIGITS)
    /\ (exists c, c ∈ pwd /\ c ∈ SPECIAL)
    /\ Forall (fun c => c ∈ ALL_CLASSES) pwd
    /\ w' = Nat.iter (Z.to_nat (2 * Z.max length 8 - 1)) draw w).
Proof.
  unfold generatePassword.
  set (len := if length <? 8 then 8 else length).
  assert (Hlen : len = Z.max length 8)
    by (unfold len; destruct (Z.ltb_spec length 8); lia).
  fold ALL_CLASSES.
  apply returns_bind. eapply returns_weaken; [apply pick_spec; [discriminate | short] |].
  intros x1 w1 [H1 ->].
  apply returns_bind. eapply returns_weaken; [apply pick_spec; [discriminate | short] |].
  intros x2 w2 [H2 ->].
  apply returns_bind. eapply returns_weaken; [apply pick_spec; [discriminate | short] |].
  intros x3 w3 [H3 ->].
  apply returns_bind. eapply returns_weaken; [apply pick_spec; [discriminate | short] |].
  intros x4 w4 [H4 ->].
  apply returns_bind. eapply returns_weaken.
  { apply fill_spec; [discriminate | short | cbn [List.length]; lia]. }
  intros pw w5 (extra & -> & Hextra & Hnextra & ->).
  cbn [List.length] in Hnextra.
  apply returns_bind. eapply returns_weaken; [apply shuffle_spec |].
  intros pw' w6 [Hperm ->].
  apply returns_ret.
  assert (Hall : Forall (char_of ALL_CLASSES) ([x1; x2; x3; x4] ++ extra)).
  { apply Forall_app. split; [| assumption].
    repeat constructor; apply char_of_all; auto. }
  rewrite <- Hperm in Hall.
  assert (Hin : forall x, x ∈ [x1; x2; x3; x4] -> x ∈ pw').
  { intros x Hx. rewrite Hperm. apply elem_of_app. left. assumption. }
  assert (Hn : List.length pw' = Z.to_nat len).
  { rewrite Hperm, length_app, Hnextra. cbn [List.length]. lia. }
  split.
  { rewrite concat_chars_length, Hn by (eapply Forall_impl; [| exact Hall]; eauto).
    lia. }
  split.
  { destruct H1 as (c & -> & Hc). exists c. split; [| assumption].
    apply elem_of_concat_char, Hin. repeat constructor. }
  split.
  { destruct H2 as (c & -> & Hc). exists c. split; [| assumption].
    apply elem_of_concat_char, Hin. repeat constructor. }
  split.
  { destruct H3 as (c & -> & Hc). exists c. split; [| assumption].
    apply elem_of_concat_char, Hin. repeat constructor. }
  split.
  { destruct H4 as (c & -> & Hc). exists c. split; [| assumption].
    apply elem_of_concat_char, Hin. repeat constructor. }
  split; [apply concat_chars_Forall; assumption |].
  rewrite length_app, Hnextra. cbn [List.length].
  change (draw (draw (draw (draw w)))) with (Nat.iter 4 draw w).
  rewrite <- !Nat.iter_add. f_equal. lia.
Qed.

Lemma oracle_iter_draw (k : nat) (w : World) : oracle (Nat.iter k draw w) = oracle w.
Proof. induction k as [| k IH]; [reflexivity |]. rewrite Nat.iter_succ. exact IH. Qed.

Lemma masterKey_iter_draw (k : nat) (w : World) :
  masterKey (Nat.iter k draw w) = masterKey w.
Proof. induction k as [| k IH]; [reflexivity |]. rewrite Nat.iter_succ. exact IH. Qed.

Lemma store_file_iter_draw (k : nat) (w : World) :
  store_file (Nat.iter k draw w) = store_file w.
Proof. induction k as [| k IH]; [reflexivity |]. rewrite Nat.iter_succ. exact IH. Qed.

Lemma trace_iter_draw (k : nat) (w : World) :
  trace (Nat.iter k draw w) = trace w ++ replicate k EvMathRandom.
Proof.
  induction k as [| k IH]; [cbn; rewrite app_nil_r; reflexivity |].
  rewrite Nat.iter_succ. unfold draw at 1. rewrite trace_emit, trace_advance, IH.
  rewrite <- app_assoc. f_equal.
  change [EvMathRandom] with (replicate 1 EvMathRandom).
  rewrite <- replicate_add. f_equal. lia.
Qed.

Lemma cursor_iter_draw_random (k : nat) (w : World) :
  cursor (Nat.iter k draw w) SrcMathRandom = (k + cursor w SrcMathRandom)%nat.
Proof.
  induction k as [| k IH]; [reflexivity |].
  rewrite Nat.iter_succ. unfold draw at 1.
  rewrite cursor_emit, cursor_advance_same, IH. reflexivity.
Qed.

Lemma cursor_iter_draw_other (k : nat) (w : World) (src : Source) :
  src <> SrcMathRandom -> cursor (Nat.iter k draw w) src = cursor w src.
Proof.
  intros Hsrc. induction k as [| k IH]; [reflexivity |].
  rewrite Nat.iter_succ. unfold draw at 1.
  rewrite cursor_emit, cursor_advance_other, IH by assumption. reflexivity.
Qed.

#[local] Hint Rewrite oracle_iter_draw masterKey_iter_draw store_file_iter_draw
  trace_iter_draw cursor_iter_draw_random : world.
#[local] Hint Rewrite cursor_iter_draw_other using discriminate : world.

(** C4.  For every requested length, and whatever [Math.random]
    returns, [generatePassword] returns a string of [max length 8]
    characters, with at least one lower-case letter, one upper-case
    letter, one digit and one special character, and every character
    from the union of the four classes.  The indices are those of the
    code, computed with the product of doubles. *)
Theorem generatePassword_length_and_classes (length : Z) (w : World) :
  exists pwd w',
    generatePassword length w = (Return pwd, w')
    /\ Z.of_nat (List.length pwd) = Z.max length 8
    /\ (exists c, c ∈ pwd /\ c ∈ LOWER)
    /\ (exists c, c ∈ pwd /\ c ∈ UPPER)
    /\ (exists c, c ∈ pwd /\ c ∈ DIGITS)
    /\ (exists c, c ∈ pwd /\ c ∈ SPECIAL)
    /\ Forall (fun c => c ∈ LOWER ++ UPPER ++ DIGITS ++ SPECIAL) pwd.
Proof.
  destruct (generatePassword_spec length w)
    as (pwd & w' & Hrun & Hlen & Hl & Hu & Hd & Hs & Hall & _).
  exists pwd, w'. repeat (split; [assumption |]). exact Hall.
Qed.

(** The floor and the default of the source, as instances. *)
Corollary generatePassword_floor (length : Z) (w : World) :
  length < 8 ->
  exists pwd w', generatePassword length w = (Return pwd, w') /\ List.length pwd = 8%nat.
Proof.
  intros Hlt.
  destruct (generatePassword_spec length w) as (pwd & w' & Hrun & Hlen & _).
  exists pwd, w'. split; [assumption | lia].
Qed.

Corollary generatePassword_12 (w : World) :
  exists pwd w', generatePassword 12 w = (Return pwd, w') /\ List.length pwd = 12%nat.
Proof.
  destruct (generatePassword_spec 12 w) as (pwd & w' & Hrun & Hlen & _).
  exists pwd, w'. split; [assumption | lia].
Qed.

(** C3 (the code does otherwise).  Every random choice of
    [generatePassword] -- the four class picks, the fill and the
    shuffle, [2 * max length 8 - 1] draws in all -- is a call of
    [Math.random]; [crypto.randomBytes] and [crypto.randomUUID] are not
    read. *)
Theorem generatePassword_draws_from_Math_random (length : Z) (w : World) :
  exists pwd w',
    generatePassword length w = (Return pwd, w')
    /\ trace w' = trace w ++ replicate (Z.to_nat (2 * Z.max length 8 - 1)) EvMathRandom
    /\ cursor w' SrcMathRandom
       = (Z.to_nat (2 * Z.max length 8 - 1) + cursor w SrcMathRandom)%nat
    /\ cursor w' SrcRandomBytes = cursor w SrcRandomBytes
    /\ cursor w' SrcRandomUUID = cursor w SrcRandomUUID.
Proof.
  destruct (generatePassword_spec length w)
    as (pwd & w' & Hrun & _ & _ & _ & _ & _ & _ & ->).
  exists pwd, (Nat.iter (Z.to_nat (2 * Z.max length 8 - 1)) draw w).
  split; [assumption |].
  autorewrite with world. auto.
Qed.

(** The password of the sample run, and the 23 draws behind it. *)
Example generatePassword_sample :
  fst (generatePassword 12 (sample_world [] None)) = Return (js "rfUau6&4F9Gd")
  /\ trace (snd (generatePassword 12 (sample_world [] None)))
     = replicate 23 EvMathRandom.
Proof. split; vm_compute; reflexivity. Qed.

(** ** Computations that leave the store file alone *)

Lemma frames_ret {A} (a : A) : frames (mret a).
Proof. intros w. reflexivity. Qed.

Lemma frames_bind {A B} (m : M A) (k : A -> M B) :
  frames m -> (forall a, frames (k a)) -> frames (m ≫= k).
Proof.
  intros Hm Hk w. specialize (Hm w). unfold mbind, M_bind.
  destruct (m w) as [[a | e | c |] w']; cbn [snd] in *;
    [rewrite <- Hm; apply Hk | assumption ..].
Qed.

Lemma frames_throw {A} (e : Error) : frames (@throw A e).
Proof. intros w. reflexivity. Qed.

Lemma frames_process_exit {A} (c : Z) : frames (@process_exit A c).
Proof. intros w. reflexivity. Qed.

Lemma frames_pending {A} : frames (@pending A).
Proof. intros w. reflexivity. Qed.

Lemma frames_lift {A} (r : result A) : frames (lift r).
Proof. destruct r; intros w; reflexivity. Qed.

Lemma frames_get_masterKey : frames get_masterKey.
Proof. intros w. reflexivity. Qed.

Lemma frames_Math_random : frames Math_random.
Proof. intros w. reflexivity. Qed.

Lemma frames_randomBytes (n : nat) : frames (randomBytes n).
Proof. intros w. reflexivity. Qed.

Lemma frames_randomUUID : frames randomUUID.
Proof. intros w. reflexivity. Qed.

Lemma frames_Date_toISOString : frames Date_toISOString.
Proof. intros w. reflexivity. Qed.

Lemma frames_console_log (m : Message) : frames (console_log m).
Proof. intros w. reflexivity. Qed.

Lemma frames_prompt (p : Prompt) : frames (prompt p).
Proof. intros w. reflexivity. Qed.

Create HintDb frames discriminated.
#[local] Hint Resolve frames_ret frames_throw frames_process_exit frames_pending
  frames_lift frames_get_masterKey frames_Math_random frames_randomBytes
  frames_randomUUID frames_Date_toISOString frames_console_log frames_prompt : frames.

Ltac frames_step :=
  match goal with
  | |- frames (_ ≫= _) => apply frames_bind; [| intros ?]
  | |- frames (match ?x with _ => _ end) => destruct x
  | |- frames (if ?b then _ else _) => destruct b
  | |- frames _ => solve [auto with frames]
  end.

Lemma frames_prompt_list (msg : jsstring) (choices : list jsstring) :
  frames (prompt_list msg choices).
Proof. unfold prompt_list. repeat frames_step. Qed.

Lemma frames_prompt_input (msg : jsstring) (validate : jsstring -> bool) :
  frames (prompt_input msg validate).
Proof. unfold prompt_input. repeat frames_step. Qed.

Lemma frames_prompt_confirm (msg : jsstring) (default : bool) :
  frames (prompt_confirm msg default).
Proof. unfold prompt_confirm. repeat frames_step. Qed.

#[local] Hint Resolve frames_prompt_list frames_prompt_input frames_prompt_confirm : frames.

Lemma frames_pause : frames pause.
Proof. unfold pause. repeat frames_step. Qed.

Lemma frames_pick (s : jsstring) : frames (pick s).
Proof. unfold pick, floor_random_times. repeat frames_step. Qed.

#[local] Hint Resolve frames_pause frames_pick : frames.

Lemma frames_fill (fuel : nat) (len : Z) (all : jsstring) (pw : list jsstring) :
  frames (fill fuel len all pw).
Proof.
  revert pw. induction fuel as [| f IH]; intros pw; cbn [fill]; repeat frames_step.
Qed.

Lemma frames_shuffle (i : nat) (pw : list jsstring) : frames (shuffle i pw).
Proof.
  revert pw. induction i as [| i IH]; intros pw; cbn [shuffle];
    unfold floor_random_times; repeat frames_step.
Qed.

#[local] Hint Resolve frames_fill frames_shuffle : frames.

Lemma frames_generatePassword (length : Z) : frames (generatePassword length).
Proof. unfold generatePassword. repeat frames_step. Qed.

Lemma frames_encryptText (plain : jsstring) : frames (encryptText plain).
Proof. unfold encryptText. repeat frames_step. Qed.

Lemma frames_deprecateEntry (e : Entry) : frames (deprecateEntry e).
Proof. unfold deprecateEntry. repeat frames_step. Qed.

#[local] Hint Resolve frames_generatePassword frames_encryptText
  frames_deprecateEntry : frames.

(** ** What a flow can do to the store *)

Lemma ends_in_frames {A} (st : Store) (m : M A) : frames m -> ends_in st m.
Proof.
  intros Hm w Hw. exists (entries st). rewrite Hm, Hw.
  destruct st. split; [reflexivity | constructor].
Qed.

Lemma ends_in_bind {A B} (st : Store) (m : M A) (k : A -> M B) :
  frames m -> (forall a, ends_in st (k a)) -> ends_in st (m ≫= k).
Proof.
  intros Hm Hk w Hw. specialize (Hm w). unfold mbind, M_bind.
  destruct (m w) as [[a | e | c |] w']; cbn [snd] in *.
  - apply Hk. congruence.
  - exists (entries st). rewrite Hm, Hw. destruct st. split; [reflexivity | constructor].
  - exists (entries st). rewrite Hm, Hw. destruct st. split; [reflexivity | constructor].
  - exists (entries st). rewrite Hm, Hw. destruct st. split; [reflexivity | constructor].
Qed.

Lemma ends_in_loadStore {A} (st : Store) (k : Store -> M A) :
  ends_in st (k st) -> ends_in st (loadStore ≫= k).
Proof.
  intros Hk w Hw. unfold mbind, M_bind, loadStore. rewrite Hw. apply Hk, Hw.
Qed.

Lemma ends_in_saveStore {A} (st : Store) (after : list Entry) (rest : M A) :
  store_effect (entries st) after -> frames rest ->
  ends_in st (saveStore {| entries := after |} ;; rest).
Proof.
  intros Heff Hrest w Hw. exists after. split; [| assumption].
  unfold mbind, M_bind, saveStore, writeStoreFile, effect.
  rewrite Hrest. reflexivity.
Qed.

Ltac ends_in_step :=
  match goal with
  | |- ends_in _ (loadStore ≫= _) => apply ends_in_loadStore
  | |- ends_in _ (saveStore _ ≫= _) =>
      apply ends_in_saveStore; [| repeat frames_step]
  | |- ends_in _ (_ ≫= _) => apply ends_in_bind; [solve [repeat frames_step] | intros ?]
  | |- ends_in _ (match ?x with _ => _ end) => destruct x
  | |- ends_in _ (if ?b then _ else _) => destruct b
  | |- ends_in _ _ => apply ends_in_frames; solve [repeat frames_step]
  end.

Lemma fresh_new_entry (uuid nm enc now : jsstring) :
  is_fresh_active (new_entry uuid nm enc now).
Proof. split; reflexivity. Qed.

Lemma ends_in_generateFlow (st : Store) : ends_in st generateFlow.
Proof.
  unfold generateFlow. repeat ends_in_step.
  apply effect_generate, fresh_new_entry.
Qed.

Lemma ends_in_showDeprecated (st : Store) : ends_in st showDeprecated.
Proof. unfold showDeprecated. repeat ends_in_step. Qed.

Lemma ends_in_getFlow_catch (st : Store) (found : option (nat * Entry)) :
  ends_in st (getFlow_catch found).
Proof.
  unfold getFlow_catch. repeat ends_in_step.
  apply effect_replace, fresh_new_entry.
Qed.

Lemma ends_in_deprecateEntry {A} (st : Store) (e : Entry) (k : Entry -> M A) :
  (forall now, ends_in st (k (deprecated_at now e))) ->
  ends_in st (deprecateEntry e ≫= k).
Proof.
  intros Hk w Hw. unfold deprecateEntry, mbind, M_bind, Date_toISOString, mret, M_ret.
  apply Hk. assumption.
Qed.

Lemma ends_in_getFlow_regen (st : Store) (i : nat) (entry : Entry) :
  entries st !! i = Some entry -> ends_in st (getFlow_regen st i entry).
Proof.
  intros Hi. unfold getFlow_regen.
  apply ends_in_deprecateEntry. intros now.
  repeat ends_in_step.
  apply effect_rotate. exists i, entry, now. eexists.
  split; [exact Hi |]. split; [apply fresh_new_entry | reflexivity].
Qed.

Lemma ends_in_getFlow (st : Store) : ends_in st getFlow.
Proof.
  unfold getFlow. ends_in_step. ends_in_step; [repeat ends_in_step |].
  ends_in_step. ends_in_step.
  destruct (list_find _ _) as [[i entry] |] eqn:Hfind;
    [| apply ends_in_getFlow_catch].
  apply list_find_Some in Hfind as (Hi & _ & _).
  destruct (decryptText _ _); [| apply ends_in_getFlow_catch].
  ends_in_step. ends_in_step.
  destruct (decide (_ = js "regen")); [apply ends_in_getFlow_regen, Hi |].
  destruct (decide (_ = js "showOld")); [apply ends_in_showDeprecated |].
  repeat ends_in_step.
Qed.

Lemma ends_in_deleteFlow (st : Store) : ends_in st deleteFlow.
Proof. unfold deleteFlow. repeat ends_in_step. apply effect_delete. Qed.

(** Every flow starts by loading the store, which creates the file when
    it is absent; what is in the file afterwards is explained by one
    effect on what was there. *)
Lemma run_flow_effect (f : Flow) (w : World) :
  exists after,
    store_file (snd (run_flow f w)) = Some {| entries := after |}
    /\ store_effect (entries_of (store_file w)) after.
Proof.
  destruct (store_file w) as [st |] eqn:Hw.
  - destruct f; [apply ends_in_generateFlow | apply ends_in_getFlow
                 | apply ends_in_deleteFlow]; assumption.
  - set (w0 := emit (EvWriteStore {| entries := [] |})
                 (set_store_file {| entries := [] |} w)).
    assert (Hrun : forall k : Store -> M unit,
               (loadStore ≫= k) w = (loadStore ≫= k) w0).
    { intros k. unfold mbind, M_bind, loadStore. rewrite Hw. reflexivity. }
    assert (Hw0 : store_file w0 = Some {| entries := [] |}) by reflexivity.
    destruct f; cbn [run_flow].
    + unfold generateFlow at 1. rewrite Hrun.
      apply (ends_in_generateFlow _ w0 Hw0).
    + unfold getFlow at 1. rewrite Hrun. apply (ends_in_getFlow _ w0 Hw0).
    + unfold deleteFlow at 1. rewrite Hrun. apply (ends_in_deleteFlow _ w0 Hw0).
Qed.

(** ** The deprecation invariant *)

Lemma fresh_active_ok (e : Entry) : is_fresh_active e -> entry_ok e.
Proof.
  intros [Hd Hat]. unfold entry_ok. rewrite Hd, Hat. split.
  - intros [x Hx]. discriminate.
  - discriminate.
Qed.

Lemma deprecated_at_ok (now : jsstring) (e : Entry) : entry_ok (deprecated_at now e).
Proof. unfold entry_ok. cbn. split; eauto. Qed.

Lemma Forall_filter_keep {A} (P Q : A -> Prop) `{forall x, Decision (Q x)} (l : list A) :
  Forall P l -> Forall P (filter Q l).
Proof.
  induction 1 as [| x l Hx Hl IH]; [constructor |].
  rewrite filter_cons. destruct (decide (Q x)); [constructor |]; assumption.
Qed.

Lemma store_effect_ok (before after : list Entry) :
  store_effect before after -> Forall entry_ok before -> Forall entry_ok after.
Proof.
  intros Heff Hok. destruct Heff as [| e He | x e He | after Hrot | nm].
  - assumption.
  - apply Forall_app. split; [assumption |].
    constructor; [apply fresh_active_ok, He | constructor].
  - apply Forall_app. split; [apply Forall_filter_keep; assumption |].
    constructor; [apply fresh_active_ok, He | constructor].
  - destruct Hrot as (i & old & now & e & Hi & He & ->).
    apply Forall_app. split.
    + apply Forall_insert; [assumption | apply deprecated_at_ok].
    + constructor; [apply fresh_active_ok, He | constructor].
  - apply Forall_filter_keep. assumption.
Qed.

(** C7.  In every store that a sequence of flows -- generate, retrieve,
    replace on corruption, rotate, delete -- reaches from the empty
    store, each entry has [deprecatedAt] exactly when [deprecated] is
    true. *)
Theorem reachable_store_ok (w : World) : reachable w -> store_ok w.
Proof.
  induction 1 as [w Hempty | f w Hreach IH | w w' Hreach IH Hsame];
    unfold store_ok in *.
  - rewrite Hempty. constructor.
  - destruct (run_flow_effect f w) as (after & Hfile & Heff).
    rewrite Hfile. cbn [entries_of entries].
    eapply store_effect_ok; eassumption.
  - rewrite Hsame. assumption.
Qed.

(** The session itself stays within the reachable worlds: the menu only
    prints, prompts and runs flows. *)
Lemma reachable_bind {A B} (m : M A) (k : A -> M B) :
  (forall w, reachable w -> reachable (snd (m w))) ->
  (forall a w, reachable w -> reachable (snd (k a w))) ->
  forall w, reachable w -> reachable (snd ((m ≫= k) w)).
Proof.
  intros Hm Hk w Hw. specialize (Hm w Hw). unfold mbind, M_bind.
  destruct (m w) as [[a | e | c |] w']; cbn [snd] in *; auto.
Qed.

Lemma reachable_frames {A} (m : M A) :
  frames m -> forall w, reachable w -> reachable (snd (m w)).
Proof. intros Hm w Hw. eapply reachable_frame; [exact Hw | apply Hm]. Qed.

Lemma mainMenu_reachable (fuel : nat) (w : World) :
  reachable w -> reachable (snd (mainMenu fuel w)).
Proof.
  revert w. induction fuel as [| fuel IH]; intros w Hw; [exact Hw |].
  cbn [mainMenu]. revert w Hw.
  apply reachable_bind; [apply reachable_frames; auto with frames | intros _].
  apply reachable_bind; [apply reachable_frames; auto with frames | intros action].
  apply reachable_bind.
  { destruct (decide (action = js "gen"));
      [apply (reachable_flow Generate) | apply reachable_frames; auto with frames]. }
  intros _. apply reachable_bind.
  { destruct (decide (action = js "get"));
      [apply (reachable_flow Get) | apply reachable_frames; auto with frames]. }
  intros _. apply reachable_bind.
  { destruct (decide (action = js "delete"));
      [apply (reachable_flow Delete) | apply reachable_frames; auto with frames]. }
  intros _. apply reachable_bind; [| intros _; exact IH].
  destruct (decide (action = js "exit")); apply reachable_frames; auto with frames.
Qed.

(** ** Running the primitives *)

Lemma loadStore_existing (w : World) (st : Store) :
  store_file w = Some st -> loadStore w = (Return st, w).
Proof. intros H. unfold loadStore. rewrite H. reflexivity. Qed.

Lemma prompt_list_choose (msg : jsstring) (choices : list jsstring) (w : World)
    (k : nat) (v : jsstring) :
  next_answer w 0 = Choose k -> choices !! k = Some v ->
  prompt_list msg choices w
  = (Return v, emit (EvPrompt (PromptList msg choices)) (advance SrcUser 1 w)).
Proof.
  intros Ha Hk. unfold prompt_list, mbind, M_bind, prompt. rewrite Ha, Hk. reflexivity.
Qed.

Lemma prompt_confirm_answer (msg : jsstring) (default : bool) (w : World) (b : bool) :
  next_answer w 0 = YesNo b ->
  prompt_confirm msg default w
  = (Return b, emit (EvPrompt (PromptConfirm msg default)) (advance SrcUser 1 w)).
Proof.
  intros Ha. unfold prompt_confirm, mbind, M_bind, prompt. rewrite Ha. reflexivity.
Qed.

Lemma console_log_run (m : Message) (w : World) :
  console_log m w = (Return tt, emit (EvLog m) w).
Proof. reflexivity. Qed.

Lemma saveStore_run (s : Store) (w : World) :
  saveStore s w = (Return tt, emit (EvWriteStore s) (set_store_file s w)).
Proof. reflexivity. Qed.

Lemma get_masterKey_run (w : World) : get_masterKey w = (Return (masterKey w), w).
Proof. reflexivity. Qed.

Lemma next_answer_emit (ev : Event) (w : World) (k : nat) :
  next_answer (emit ev w) k = next_answer w k.
Proof. reflexivity. Qed.

Lemma next_answer_advance_user (w : World) (k : nat) :
  next_answer (advance SrcUser 1 w) k = next_answer w (S k).
Proof.
  unfold next_answer. rewrite oracle_advance, cursor_advance_same.
  f_equal. lia.
Qed.

Ltac step H := rewrite (bind_Return _ _ _ _ _ H).

(** What is in the file after a save, whatever follows that only
    prints and prompts. *)
Lemma saveStore_then {A} (s : Store) (rest : M A) (w : World) :
  frames rest -> store_file (snd ((saveStore s ;; rest) w)) = Some s.
Proof.
  intros Hrest. step (saveStore_run s w). rewrite Hrest. reflexivity.
Qed.

Lemma pause_trace (w : World) :
  trace (snd (pause w)) = trace w ++ [EvPrompt (PromptConfirm (js "Press ENTER") true)].
Proof.
  unfold pause, prompt_confirm, prompt, mbind, M_bind.
  destruct (next_answer w 0); reflexivity.
Qed.

(** ** The delete flow *)

Lemma lookup_Some_not_nil {A} (l : list A) (k : nat) (x : A) :
  l !! k = Some x -> l <> [].
Proof. intros H ->. discriminate. Qed.

(** C10.  When the user declines the confirmation of the delete flow,
    the flow returns after its two prompts: nothing is written, and the
    file holds the store that was loaded. *)
Theorem deleteFlow_declined (w : World) (st : Store) (k : nat) (nm : jsstring) :
  store_file w = Some st ->
  next_answer w 0 = Choose k ->
  set_values [] (map name (entries st)) !! k = Some nm ->
  next_answer w 1 = YesNo false ->
  fst (deleteFlow w) = Return tt
  /\ store_file (snd (deleteFlow w)) = Some st
  /\ trace (snd (deleteFlow w)) = trace w ++ delete_prompts st nm.
Proof.
  intros Hw Hsel Hk Hno. unfold deleteFlow.
  step (loadStore_existing w st Hw).
  rewrite decide_False by (eapply lookup_Some_not_nil, Hk).
  step (prompt_list_choose (js "Select site to delete:") _ w k nm Hsel Hk).
  erewrite bind_Return
    by (apply prompt_confirm_answer;
        rewrite next_answer_emit, next_answer_advance_user; exact Hno).
  cbn [negb fst snd mret M_ret]. autorewrite with world.
  rewrite <- app_assoc. auto.
Qed.

Lemma filter_complement_length {A} (P : A -> Prop) `{forall x, Decision (P x)}
    (l : list A) :
  (length (filter P l) + length (filter (fun x => ¬ P x) l))%nat = length l.
Proof.
  induction l as [| x l IH]; [reflexivity |].
  rewrite !filter_cons. destruct (decide (P x)) as [HP | HP].
  - rewrite decide_False by auto. cbn [length]. lia.
  - rewrite decide_True by assumption. cbn [length]. lia.
Qed.

(** C8.  Once confirmed, the delete flow writes the store without any
    entry of the chosen name -- active or deprecated -- and with every
    other entry kept as it was and in the same order; the count it
    prints is the number of entries removed, by which the store has
    shrunk. *)
Theorem deleteFlow_confirmed (w : World) (st : Store) (k : nat) (nm : jsstring) :
  store_file w = Some st ->
  next_answer w 0 = Choose k ->
  set_values [] (map name (entries st)) !! k = Some nm ->
  next_answer w 1 = YesNo true ->
  let removed := filter (fun e => name e = nm) (entries st) in
  let kept := filter (fun e => name e ≠ nm) (entries st) in
  store_file (snd (deleteFlow w)) = Some {| entries := kept |}
  /\ (forall e, e ∈ kept <-> e ∈ entries st /\ name e ≠ nm)
  /\ (length kept + length removed)%nat = length (entries st)
  /\ exists tail,
       trace (snd (deleteFlow w))
       = trace w ++ delete_prompts st nm
           ++ EvWriteStore {| entries := kept |}
           :: EvLog (MsgDeleted (Z.of_nat (length removed)) nm) :: tail.
Proof.
  intros Hw Hsel Hk Hyes removed kept.
  assert (Hcount : (length kept + length removed)%nat = length (entries st)).
  { pose proof (filter_complement_length (fun e => name e = nm) (entries st)).
    unfold kept, removed. lia. }
  split; [| split; [| split; [exact Hcount |]]].
  - unfold deleteFlow. step (loadStore_existing w st Hw).
    rewrite decide_False by (eapply lookup_Some_not_nil, Hk).
    step (prompt_list_choose (js "Select site to delete:") _ w k nm Hsel Hk).
    erewrite bind_Return
      by (apply prompt_confirm_answer;
          rewrite next_answer_emit, next_answer_advance_user; exact Hyes).
    cbn [negb]. apply saveStore_then. repeat frames_step.
  - intros e. unfold kept. rewrite list_elem_of_filter. tauto.
  - unfold deleteFlow. step (loadStore_existing w st Hw).
    rewrite decide_False by (eapply lookup_Some_not_nil, Hk).
    step (prompt_list_choose (js "Select site to delete:") _ w k nm Hsel Hk).
    erewrite bind_Return
      by (apply prompt_confirm_answer;
          rewrite next_answer_emit, next_answer_advance_user; exact Hyes).
    cbn [negb]. fold kept.
    erewrite bind_Return by apply saveStore_run.
    erewrite bind_Return by apply console_log_run.
    replace (Z.of_nat (length (entries st)) - Z.of_nat (length kept))
      with (Z.of_nat (length removed)) by lia.
    rewrite pause_trace. autorewrite with world.
    unfold delete_prompts. rewrite <- !app_assoc. cbn [app]. eauto.
Qed.

(** ** Rotation *)

Lemma decryptText_Ok_key (key : buffer) (payload plain : jsstring) :
  decryptText key payload = Ok plain -> length key = 32%nat.
Proof.
  unfold decryptText.
  destruct (split_on COLON payload) as [| a [| b [| c r]]];
    cbn [lookup list_lookup Buffer_from_hex result_bind]; try discriminate.
  unfold decipher_run, createCipheriv.
  destruct (is_valid_gcm_iv_length (length (from_hex a))); [| discriminate].
  destruct (decide (length key = 32%nat)); [auto | discriminate].
Qed.

Lemma ALL_CLASSES_ascii :
  forallb (fun c => (0 <=? c) && (c <? 128)) ALL_CLASSES = true.
Proof. reflexivity. Qed.

Lemma generated_well_formed (p : jsstring) :
  Forall (fun c => c ∈ ALL_CLASSES) p -> well_formed_utf16 p = true.
Proof.
  induction 1 as [| c p Hc _ IH]; [reflexivity |].
  pose proof ALL_CLASSES_ascii as Hascii. rewrite forallb_forall in Hascii.
  apply list_elem_of_In, Hascii, andb_prop in Hc as [H0 H1].
  apply Z.leb_le in H0. apply Z.ltb_lt in H1.
  cbn [well_formed_utf16]. unfold is_high_surrogate, is_low_surrogate.
  destruct (Z.leb_spec 0xD800 c); [lia |].
  destruct (Z.leb_spec 0xDC00 c); [lia |]. cbn [andb negb].
  rewrite IH. destruct (Z.leb_spec 0 c); [| lia].
  destruct (Z.ltb_spec c 65536); [reflexivity | lia].
Qed.

Lemma encryptText_run (plain : jsstring) (w : World) :
  length (masterKey w) = 32%nat -> well_formed_utf16 plain = true ->
  exists payload,
    encryptText plain w
    = (Return payload, emit (EvRandomBytes IV_LEN) (advance SrcRandomBytes IV_LEN w))
    /\ decryptText (masterKey w) payload = Ok plain.
Proof.
  intros Hk Hwf.
  destruct (randomBytes_spec IV_LEN w) as (iv & Hrb & Hlen & Hiv).
  destruct (decryptText_encryptText_with (masterKey w) iv plain Hk Hlen Hiv Hwf)
    as (payload & Henc & Hdec).
  exists payload. split; [| assumption].
  unfold encryptText. step Hrb.
  erewrite bind_Return by apply get_masterKey_run.
  rewrite masterKey_emit, masterKey_advance, Henc. reflexivity.
Qed.

Lemma generatePassword_12_run (w : World) :
  exists pwd,
    generatePassword 12 w = (Return pwd, Nat.iter 23 draw w)
    /\ length pwd = 12%nat /\ well_formed_utf16 pwd = true.
Proof.
  destruct (generatePassword_spec 12 w)
    as (pwd & w' & Hrun & Hlen & _ & _ & _ & _ & Hall & ->).
  exists pwd. split; [exact Hrun |].
  split; [lia | apply generated_well_formed, Hall].
Qed.

Lemma deprecateEntry_run (e : Entry) (w : World) :
  deprecateEntry e w
  = (Return (deprecated_at (next_date w 0) e), emit EvDate (advance SrcClock 1 w)).
Proof. reflexivity. Qed.

Lemma randomUUID_run (w : World) :
  randomUUID w = (Return (next_uuid w), emit EvRandomUUID (advance SrcRandomUUID 1 w)).
Proof. reflexivity. Qed.

Lemma Date_toISOString_run (w : World) :
  Date_toISOString w = (Return (next_date w 0), emit EvDate (advance SrcClock 1 w)).
Proof. reflexivity. Qed.

Lemma getFlow_regen_run (st : Store) (i : nat) (e : Entry) (w : World) :
  length (masterKey w) = 32%nat ->
  exists newPwd newEnc,
    store_file (snd (getFlow_regen st i e w))
    = Some {| entries := rotated_entries w st i e newEnc |}
    /\ decryptText (masterKey w) newEnc = Ok newPwd
    /\ length newPwd = 12%nat.
Proof.
  intros Hkey. unfold getFlow_regen.
  step (deprecateEntry_run e w).
  destruct (generatePassword_12_run (emit EvDate (advance SrcClock 1 w)))
    as (newPwd & Hgen & Hlen & Hwf).
  step Hgen.
  destruct (encryptText_run newPwd (Nat.iter 23 draw (emit EvDate (advance SrcClock 1 w))))
    as (newEnc & Henc & Hdec);
    [autorewrite with world; exact Hkey | exact Hwf |].
  step Henc.
  erewrite bind_Return by apply randomUUID_run.
  erewrite bind_Return by apply Date_toISOString_run.
  rewrite saveStore_then by repeat frames_step.
  autorewrite with world in Hdec.
  exists newPwd, newEnc. split; [| auto].
  unfold rotated_entries, next_uuid, next_date. autorewrite with world.
  reflexivity.
Qed.

Lemma getFlow_reaches_regen (w : World) (st : Store) (i : nat) (e : Entry) :
  rotates w st i e ->
  exists pwd,
    decryptText (masterKey w) (secret e) = Ok pwd
    /\ getFlow w = getFlow_regen st i e (after_next w st e pwd).
Proof.
  intros (Hw & k & sel & pwd & Hsel & Hk & Hfind & Hdec & Hnext).
  exists pwd. split; [exact Hdec |].
  unfold getFlow. step (loadStore_existing w st Hw).
  rewrite decide_False.
  2:{ intros Hnil. unfold active_ids in Hk. rewrite Hnil in Hk. discriminate. }
  step (prompt_list_choose (js "Select entry:") _ w k sel Hsel Hk).
  erewrite bind_Return by apply get_masterKey_run.
  rewrite Hfind, masterKey_emit, masterKey_advance, Hdec.
  erewrite bind_Return by apply console_log_run.
  erewrite bind_Return.
  2:{ apply (prompt_list_choose _ _ _ 0 (js "regen")); [| reflexivity].
      rewrite !next_answer_emit, next_answer_advance_user. exact Hnext. }
  rewrite decide_True by reflexivity. reflexivity.
Qed.

Lemma getFlow_rotate (w : World) (st : Store) (i : nat) (e : Entry) :
  rotates w st i e ->
  exists newPwd newEnc,
    store_file (snd (getFlow w)) = Some {| entries := rotated_entries w st i e newEnc |}
    /\ entries st !! i = Some e
    /\ decryptText (masterKey w) newEnc = Ok newPwd
    /\ length newPwd = 12%nat.
Proof.
  intros Hrot.
  destruct (getFlow_reaches_regen w st i e Hrot) as (pwd & Hdec & ->).
  destruct Hrot as (_ & k & sel & _ & _ & _ & Hfind & _ & _).
  apply list_find_Some in Hfind as (Hi & _ & _).
  pose proof (decryptText_Ok_key _ _ _ Hdec) as Hkey.
  destruct (getFlow_regen_run st i e (after_next w st e pwd)) as (newPwd & newEnc & Hst & Hd & Hl).
  { unfold after_next. autorewrite with world. exact Hkey. }
  exists newPwd, newEnc. rewrite Hst.
  unfold after_next in Hd. autorewrite with world in Hd.
  split; [| auto].
  unfold rotated_entries, next_uuid, next_date, after_next. autorewrite with world.
  reflexivity.
Qed.


(** C9.  The rotation changes, in the entry it acts on, only
    [deprecated] and [deprecatedAt]: its id, name, secret and creation
    time are what they were, and every other entry of the store is
    untouched. *)
Theorem rotate_changes_only_deprecation (w : World) (st : Store) (i : nat) (e : Entry) :
  rotates w st i e ->
  exists after e',
    store_file (snd (getFlow w)) = Some {| entries := after |}
    /\ after !! i = Some e'
    /\ id e' = id e /\ name e' = name e /\ secret e' = secret e
    /\ createdAt e' = createdAt e
    /\ deprecated e' = true /\ deprecatedAt e' = Some (next_date w 0)
    /\ (forall j, j <> i -> (j < length (entries st))%nat ->
                  after !! j = entries st !! j)
    /\ length after = S (length (entries st)).
Proof.
  intros Hrot.
  destruct (getFlow_rotate w st i e Hrot) as (newPwd & newEnc & Hst & Hi & _ & _).
  pose proof (lookup_lt_Some _ _ _ Hi) as Hlt.
  exists (rotated_entries w st i e newEnc), (deprecated_at (next_date w 0) e).
  split; [exact Hst |]. unfold rotated_entries.
  split.
  { rewrite lookup_app_l by (rewrite length_insert; assumption).
    apply list_lookup_insert_eq. assumption. }
  repeat (split; [reflexivity |]).
  split.
  - intros j Hj Hjlt.
    rewrite lookup_app_l by (rewrite length_insert; assumption).
    apply list_lookup_insert_ne. auto.
  - rewrite length_app, length_insert. cbn [length]. lia.
Qed.

(** ** Decryption failures *)

(** [showDeprecated] has no handler: a secret that does not decrypt
    throws out of the flow, right after the selection. *)
Lemma showDeprecated_corrupted (w : World) (st : Store) (k i : nat) (sel : jsstring)
    (e : Entry) (err : Error) :
  store_file w = Some st ->
  next_answer w 0 = Choose k ->
  deprecated_ids st !! k = Some sel ->
  list_find (fun x => id x = sel) (entries st) = Some (i, e) ->
  decryptText (masterKey w) (secret e) = Err err ->
  showDeprecated w
  = (Throw err,
     emit (EvPrompt (PromptList (js "Select deprecated:") (deprecated_ids st)))
       (advance SrcUser 1 w)).
Proof.
  intros Hw Hsel Hk Hfind Hdec. unfold showDeprecated.
  step (loadStore_existing w st Hw).
  rewrite decide_False.
  2:{ intros Hnil. unfold deprecated_ids in Hk. rewrite Hnil in Hk. discriminate. }
  step (prompt_list_choose (js "Select deprecated:") _ w k sel Hsel Hk).
  rewrite Hfind.
  erewrite bind_Return by apply get_masterKey_run.
  rewrite masterKey_emit, masterKey_advance.
  apply bind_Throw. rewrite Hdec. reflexivity.
Qed.

(** [getFlow] catches the failure of an active entry and offers the
    choice between going back and replacing the entry. *)
Lemma getFlow_corrupted_offers_choice (w : World) (st : Store) (k i : nat)
    (sel : jsstring) (e : Entry) (err : Error) :
  store_file w = Some st ->
  next_answer w 0 = Choose k ->
  active_ids st !! k = Some sel ->
  list_find (fun x => id x = sel) (entries st) = Some (i, e) ->
  decryptText (masterKey w) (secret e) = Err err ->
  next_answer w 1 = Choose 0 ->
  getFlow w
  = (Return tt,
     emit (EvPrompt (PromptList (js "Handle corrupted entry?") [js "back"; js "regen"]))
       (advance SrcUser 1
          (emit (EvLog MsgDecryptionFailed)
             (emit (EvPrompt (PromptList (js "Select entry:") (active_ids st)))
                (advance SrcUser 1 w))))).
Proof.
  intros Hw Hsel Hk Hfind Hdec Hback. unfold getFlow.
  step (loadStore_existing w st Hw).
  rewrite decide_False.
  2:{ intros Hnil. unfold active_ids in Hk. rewrite Hnil in Hk. discriminate. }
  step (prompt_list_choose (js "Select entry:") _ w k sel Hsel Hk).
  erewrite bind_Return by apply get_masterKey_run.
  rewrite Hfind, masterKey_emit, masterKey_advance, Hdec.
  unfold getFlow_catch.
  erewrite bind_Return by apply console_log_run.
  erewrite bind_Return.
  2:{ apply (prompt_list_choose _ _ _ 0 (js "back")); [| reflexivity].
      rewrite !next_answer_emit, next_answer_advance_user. exact Hback. }
  rewrite decide_False by discriminate. reflexivity.
Qed.

Lemma getFlow_showOld (w : World) (st : Store) (k i : nat) (sel pwd : jsstring)
    (e : Entry) :
  store_file w = Some st ->
  next_answer w 0 = Choose k ->
  active_ids st !! k = Some sel ->
  list_find (fun x => id x = sel) (entries st) = Some (i, e) ->
  decryptText (masterKey w) (secret e) = Ok pwd ->
  next_answer w 1 = Choose 1 ->
  getFlow w = showDeprecated (after_next w st e pwd).
Proof.
  intros Hw Hsel Hk Hfind Hdec Hnext. unfold getFlow.
  step (loadStore_existing w st Hw).
  rewrite decide_False.
  2:{ intros Hnil. unfold active_ids in Hk. rewrite Hnil in Hk. discriminate. }
  step (prompt_list_choose (js "Select entry:") _ w k sel Hsel Hk).
  erewrite bind_Return by apply get_masterKey_run.
  rewrite Hfind, masterKey_emit, masterKey_advance, Hdec.
  erewrite bind_Return by apply console_log_run.
  erewrite bind_Return.
  2:{ apply (prompt_list_choose _ _ _ 1 (js "showOld")); [| reflexivity].
      rewrite !next_answer_emit, next_answer_advance_user. exact Hnext. }
  rewrite decide_False by discriminate.
  rewrite decide_True by reflexivity. reflexivity.
Qed.

Lemma mainMenu_get_throws (fuel : nat) (w w' : World) (err : Error) :
  next_answer w 0 = Choose 1 ->
  getFlow (after_menu w) = (Throw err, w') ->
  mainMenu (S fuel) w = (Throw err, w').
Proof.
  intros Hget Hthrow. cbn [mainMenu].
  erewrite bind_Return by apply console_log_run.
  erewrite bind_Return.
  2:{ apply (prompt_list_choose _ _ _ 1 (js "get")); [| reflexivity].
      rewrite next_answer_emit. exact Hget. }
  rewrite (decide_False (P := js "get" = js "gen")) by discriminate.
  erewrite bind_Return by reflexivity.
  rewrite (decide_True (P := js "get" = js "get")) by reflexivity.
  apply bind_Throw. exact Hthrow.
Qed.

(** C6 (the code does otherwise for deprecated entries).  The user
    opens an active entry that decrypts, asks for the deprecated ones
    and selects one whose secret does not decrypt: the error leaves
    [showDeprecated], [getFlow] and [mainMenu] uncaught, so the session
    ends there; the last thing shown is the selection list, and no
    choice about the corrupted entry is offered. *)
Theorem corrupted_deprecated_entry_ends_session (fuel : nat) (w : World) (st : Store)
    (k i k' i' : nat) (sel sel' pwd : jsstring) (e e' : Entry) (err : Error) :
  store_file w = Some st ->
  next_answer w 0 = Choose 1 ->
  next_answer w 1 = Choose k ->
  active_ids st !! k = Some sel ->
  list_find (fun x => id x = sel) (entries st) = Some (i, e) ->
  decryptText (masterKey w) (secret e) = Ok pwd ->
  next_answer w 2 = Choose 1 ->
  next_answer w 3 = Choose k' ->
  deprecated_ids st !! k' = Some sel' ->
  list_find (fun x => id x = sel') (entries st) = Some (i', e') ->
  decryptText (masterKey w) (secret e') = Err err ->
  fst (mainMenu (S fuel) w) = Throw err
  /\ store_file (snd (mainMenu (S fuel) w)) = Some st
  /\ trace (snd (mainMenu (S fuel) w))
     = trace w
       ++ [ EvLog MsgBanner;
            EvPrompt (PromptList (js "Choose:") MENU_CHOICES);
            EvPrompt (PromptList (js "Select entry:") (active_ids st));
            EvLog (MsgPassword (name e) pwd);
            EvPrompt (PromptList (js "Next?") NEXT_CHOICES);
            EvPrompt (PromptList (js "Select deprecated:") (deprecated_ids st)) ].
Proof.
  intros Hw Hget Hsel Hk Hfind Hdec Hnext Hsel' Hk' Hfind' Hdec'.
  erewrite (mainMenu_get_throws fuel w _ err Hget).
  2:{ erewrite (getFlow_showOld (after_menu w) st k i sel pwd e).
      - apply (showDeprecated_corrupted _ st k' i' sel' e' err).
        + unfold after_next, after_menu. autorewrite with world. exact Hw.
        + unfold after_next, after_menu.
          rewrite !next_answer_emit, !next_answer_advance_user, !next_answer_emit,
            !next_answer_advance_user, next_answer_emit. exact Hsel'.
        + exact Hk'.
        + exact Hfind'.
        + unfold after_next, after_menu. autorewrite with world. exact Hdec'.
      - unfold after_menu. autorewrite with world. exact Hw.
      - unfold after_menu. rewrite next_answer_emit, next_answer_advance_user,
          next_answer_emit. exact Hsel.
      - exact Hk.
      - exact Hfind.
      - unfold after_menu. autorewrite with world. exact Hdec.
      - unfold after_menu. rewrite next_answer_emit, next_answer_advance_user,
          next_answer_emit. exact Hnext. }
  cbn [fst snd]. split; [reflexivity |].
  unfold after_next, after_menu. autorewrite with world.
  split; [exact Hw |].
  rewrite <- !app_assoc. reflexivity.
Qed.

(** ** The theorems on the sample store *)

Lemma sample_rotates :
  rotates (sample_world [Choose 1; Choose 0] (Some sample_store)) sample_store 3 sample_entry.
Proof.
  split; [reflexivity |].
  exists 1%nat, (id sample_entry), (js "hello").
  split; [reflexivity |].
  split; [vm_compute; reflexivity |].
  split; [vm_compute; reflexivity |].
  split; [vm_compute; reflexivity | reflexivity].
Defined.

Lemma rotate_changes_only_deprecation_witness :
  exists after e',
    store_file (snd (getFlow (sample_world [Choose 1; Choose 0] (Some sample_store))))
    = Some {| entries := after |}
    /\ after !! 3%nat = Some e'
    /\ id e' = id sample_entry /\ name e' = name sample_entry
    /\ secret e' = secret sample_entry /\ createdAt e' = createdAt sample_entry
    /\ deprecated e' = true.
Proof.
  destruct (rotate_changes_only_deprecation
              (sample_world [Choose 1; Choose 0] (Some sample_store))
              sample_store 3 sample_entry sample_rotates)
    as (after & e' & Hst & Hi & H1 & H2 & H3 & H4 & H5 & _).
  exists after, e'. auto 10.
Defined.

Lemma corrupted_deprecated_entry_ends_session_witness :
  fst (mainMenu 1 (sample_world [Choose 1; Choose 1; Choose 1; Choose 1]
                     (Some sample_store)))
  = Throw ERR_AUTH_FAILED.
Proof.
  apply (corrupted_deprecated_entry_ends_session 0
           (sample_world [Choose 1; Choose 1; Choose 1; Choose 1] (Some sample_store))
           sample_store 1 3 1 1 (id sample_entry) (id sample_corrupted) (js "hello")
           sample_entry sample_corrupted ERR_AUTH_FAILED);
    vm_compute; reflexivity.
Defined.

Lemma reachable_store_ok_witness :
  store_ok
    (snd (run_flow Get
            (snd (run_flow Generate
                    (sample_world [Text (js "example.com"); YesNo true; Choose 0; Choose 0]
                       None))))).
Proof.
  apply reachable_store_ok.
  apply reachable_flow, reachable_flow, reachable_start. reflexivity.
Defined.

Lemma deleteFlow_confirmed_witness :
  store_file (snd (deleteFlow (sample_world [Choose 0; YesNo true] (Some sample_store))))
  = Some {| entries := [sample_other] |}
  /\ (1 + 3)%nat = length (entries sample_store).
Proof.
  destruct (deleteFlow_confirmed (sample_world [Choose 0; YesNo true] (Some sample_store))
              sample_store 0 (js "example.com"))
    as (Hst & _ & Hcount & _).
  - reflexivity.
  - reflexivity.
  - vm_compute. reflexivity.
  - reflexivity.
  - rewrite Hst. split; [vm_compute; reflexivity |].
    rewrite <- Hcount. vm_compute. reflexivity.
Defined.

Lemma deleteFlow_declined_witness :
  fst (deleteFlow (sample_world [Choose 0; YesNo false] (Some sample_store))) = Return tt
  /\ store_file (snd (deleteFlow (sample_world [Choose 0; YesNo false]
                                     (Some sample_store))))
     = Some sample_store.
Proof.
  destruct (deleteFlow_declined (sample_world [Choose 0; YesNo false] (Some sample_store))
              sample_store 0 (js "example.com"))
    as (Hret & Hst & _).
  - reflexivity.
  - reflexivity.
  - vm_compute. reflexivity.
  - reflexivity.
  - auto.
Defined.

(** The whole of a rotation, computed: the store after the user has
    opened [example.com] and asked for a new password. *)
Example rotation_computed :
  match store_file (snd (getFlow (sample_world [Choose 1; Choose 0] (Some sample_store)))) with
  | Some {| entries := [a; b; c; old; new] |} =>
      a = sample_old /\ b = sample_corrupted /\ c = sample_other
      /\ old = deprecated_at (js "2025-08-05T12:34:50.000Z") sample_entry
      /\ id new = js "7d3c1a52-0b2e-4c6f-9a41-000000000000"
      /\ name new = js "example.com"
      /\ createdAt new = js "2025-08-05T12:34:51.000Z"
      /\ deprecated new = false /\ deprecatedAt new = None
      /\ decryptText sample_key (secret new) = Ok (js "rfUau6&4F9Gd")
  | _ => False
  end.
Proof. vm_compute. repeat split; reflexivity. Qed.

(** * Further properties *)

(** ** The payload of [encryptText] *)

Lemma hex_digit_in (d : Z) : hex_digit d ∈ HEX_DIGITS.
Proof.
  unfold hex_digit.
  destruct (nth_in_or_default (Z.to_nat d) HEX_DIGITS 48) as [Hin | ->].
  - apply list_elem_of_In. exact Hin.
  - repeat constructor.
Qed.

Lemma toString_hex_lower (b : buffer) : is_lower_hex (toString_hex b).
Proof.
  unfold is_lower_hex. induction b as [| x b IH]; [constructor |].
  change (toString_hex (x :: b))
    with (hex_digit (x / 16) :: hex_digit (x mod 16) :: toString_hex b).
  constructor; [apply hex_digit_in |]. constructor; [apply hex_digit_in | exact IH].
Qed.

Lemma next_iv_spec (w : World) :
  randomBytes IV_LEN w
  = (Return (next_iv w), emit (EvRandomBytes IV_LEN) (advance SrcRandomBytes IV_LEN w))
  /\ length (next_iv w) = IV_LEN /\ is_bytes (next_iv w).
Proof.
  split; [reflexivity |]. unfold next_iv. split.
  - rewrite length_map, length_seq. reflexivity.
  - apply Forall_map, Forall_forall. intros i _. unfold is_byte.
    apply Z.mod_pos_bound. lia.
Qed.

Lemma encryptText_unfold (plain : jsstring) (w : World) :
  encryptText plain w
  = lift (encryptText_with (masterKey w) (next_iv w) plain)
      (emit (EvRandomBytes IV_LEN) (advance SrcRandomBytes IV_LEN w)).
Proof.
  destruct (next_iv_spec w) as (Hrb & _).
  unfold encryptText. step Hrb.
  erewrite bind_Return by apply get_masterKey_run.
  rewrite masterKey_emit, masterKey_advance. reflexivity.
Qed.

Lemma gcm_encrypt_lengths (E : Z -> Z) (iv pt ct tag : buffer) :
  gcm_encrypt E iv pt = (ct, tag) -> length ct = length pt /\ length tag = 16%nat.
Proof.
  intros H. split.
  - apply (f_equal fst) in H. cbn [fst] in H. subst ct.
    unfold gcm_encrypt. cbn [fst]. apply gctr_length. lia.
  - apply (f_equal snd) in H. cbn [snd] in H. subst tag.
    unfold gcm_encrypt. cbn [snd]. apply bytes_of_block_length.
Qed.

(** X1.  Under a 32-byte key [encryptText] returns, for every plaintext,
    a payload of exactly three colon-separated components of lower-case
    hexadecimal digits: the 12 bytes drawn from [crypto.randomBytes] (24
    digits), a ciphertext of as many bytes as the UTF-8 form of the
    plaintext, and a tag of 16 bytes (32 digits).  It reads those 12
    bytes and nothing else, and prints nothing. *)
Theorem encryptText_payload_format (w : World) (plain : jsstring) :
  length (masterKey w) = 32%nat ->
  exists payload ctHex tagHex,
    encryptText plain w
    = (Return payload, emit (EvRandomBytes IV_LEN) (advance SrcRandomBytes IV_LEN w))
    /\ split_on COLON payload = [toString_hex (next_iv w); ctHex; tagHex]
    /\ from_hex (toString_hex (next_iv w)) = next_iv w
    /\ length (toString_hex (next_iv w)) = 24%nat
    /\ length ctHex = (2 * length (utf8_encode plain))%nat
    /\ length tagHex = 32%nat
    /\ is_lower_hex (toString_hex (next_iv w))
    /\ is_lower_hex ctHex /\ is_lower_hex tagHex
    /\ length payload = (58 + 2 * length (utf8_encode plain))%nat.
Proof.
  intros Hk.
  destruct (next_iv_spec w) as (_ & Hlen & Hiv).
  assert (Hne : is_valid_gcm_iv_length (length (next_iv w)) = true)
    by (rewrite Hlen; reflexivity).
  destruct (encryptText_with_payload (masterKey w) (next_iv w) plain Hk Hne)
    as (ct & tag & Henc & Hpay).
  destruct (gcm_encrypt_lengths _ _ _ _ _ Henc) as [Hct Htag].
  exists (toString_hex (next_iv w) ++ COLON :: toString_hex ct ++ COLON :: toString_hex tag),
    (toString_hex ct), (toString_hex tag).
  split; [rewrite encryptText_unfold, Hpay; reflexivity |].
  split.
  { apply (split_join3 COLON (toString_hex (next_iv w)) (toString_hex ct) (toString_hex tag));
      apply toString_hex_no_colon. }
  split; [apply from_hex_toString_hex, Hiv |].
  rewrite !length_app. cbn [length]. rewrite !length_app. cbn [length].
  rewrite !toString_hex_length, Hct, Htag, Hlen.
  repeat (split; [first [reflexivity | apply toString_hex_lower | unfold IV_LEN; lia] |]).
  unfold IV_LEN. lia.
Qed.

Lemma encryptText_payload_format_witness :
  exists payload ctHex tagHex,
    encryptText (js "hello") (sample_world [] None)
    = (Return payload,
       emit (EvRandomBytes IV_LEN) (advance SrcRandomBytes IV_LEN (sample_world [] None)))
    /\ split_on COLON payload = [toString_hex (next_iv (sample_world [] None)); ctHex; tagHex]
    /\ from_hex (toString_hex (next_iv (sample_world [] None)))
       = next_iv (sample_world [] None)
    /\ length (toString_hex (next_iv (sample_world [] None))) = 24%nat
    /\ length ctHex = (2 * length (utf8_encode (js "hello")))%nat
    /\ length tagHex = 32%nat
    /\ is_lower_hex (toString_hex (next_iv (sample_world [] None)))
    /\ is_lower_hex ctHex /\ is_lower_hex tagHex
    /\ length payload = (58 + 2 * length (utf8_encode (js "hello")))%nat.
Proof.
  apply (encryptText_payload_format (sample_world [] None) (js "hello")). reflexivity.
Defined.

(** ** The key and the nonce *)

Lemma encryptText_with_key_length (key iv : buffer) (plain payload : jsstring) :
  encryptText_with key iv plain = Ok payload ->
  length key = 32%nat /\ is_valid_gcm_iv_length (length iv) = true.
Proof.
  unfold encryptText_with, cipher_run, createCipheriv.
  destruct (is_valid_gcm_iv_length (length iv)); [| discriminate].
  destruct (decide (length key = 32%nat)); [auto | discriminate].
Qed.

Lemma encryptText_with_bad_key (key iv : buffer) (plain : jsstring) :
  is_valid_gcm_iv_length (length iv) = true -> length key <> 32%nat ->
  encryptText_with key iv plain = Err ERR_CRYPTO_INVALID_KEYLEN.
Proof.
  intros Hiv Hk. unfold encryptText_with, cipher_run, createCipheriv.
  rewrite Hiv, decide_False by assumption. reflexivity.
Qed.

(** X2.  The master key is checked by every call: [encryptText] returns
    a payload exactly when the key has 32 bytes, and with any other key
    it throws the key-length error after drawing the nonce; [decryptText]
    returns no plaintext under such a key, whatever the payload. *)
Theorem masterKey_must_have_32_bytes (w : World) (plain : jsstring) :
  ((exists payload, fst (encryptText plain w) = Return payload)
   <-> length (masterKey w) = 32%nat)
  /\ (length (masterKey w) <> 32%nat ->
      encryptText plain w
      = (Throw ERR_CRYPTO_INVALID_KEYLEN,
         emit (EvRandomBytes IV_LEN) (advance SrcRandomBytes IV_LEN w)))
  /\ (length (masterKey w) <> 32%nat ->
      forall payload text, decryptText (masterKey w) payload <> Ok text).
Proof.
  destruct (next_iv_spec w) as (_ & Hlen & _).
  assert (Hne : is_valid_gcm_iv_length (length (next_iv w)) = true)
    by (rewrite Hlen; reflexivity).
  rewrite encryptText_unfold.
  split; [split |].
  - intros [payload Hp].
    destruct (encryptText_with (masterKey w) (next_iv w) plain) as [p | e] eqn:He;
      [| discriminate].
    apply encryptText_with_key_length in He. tauto.
  - intros Hk.
    destruct (encryptText_with_payload (masterKey w) (next_iv w) plain Hk Hne)
      as (ct & tag & _ & ->).
    eexists. reflexivity.
  - split.
    + intros Hk. rewrite encryptText_with_bad_key by assumption. reflexivity.
    + intros Hk payload text Hdec. apply decryptText_Ok_key in Hdec. contradiction.
Qed.

(** ** The round trip on every string *)

Lemma REPLACEMENT_not_surrogate :
  is_high_surrogate REPLACEMENT = false /\ is_low_surrogate REPLACEMENT = false.
Proof. split; reflexivity. Qed.

Lemma utf8_encode_toWellFormed_upto (n : nat) (s : jsstring) :
  (length s <= n)%nat -> utf8_encode (toWellFormed s) = utf8_encode s.
Proof.
  revert s. induction n as [| n IH]; intros [| c r] Hlen;
    try reflexivity; cbn [length] in Hlen; [lia |].
  cbn [toWellFormed utf8_encode].
  destruct (is_high_surrogate c) eqn:Hhi.
  - destruct r as [| d r']; [reflexivity |].
    destruct (is_low_surrogate d) eqn:Hlo.
    + cbn [utf8_encode]. rewrite Hhi, Hlo. rewrite IH by (cbn [length] in Hlen; lia).
      reflexivity.
    + change (utf8_encode (REPLACEMENT :: toWellFormed (d :: r')))
        with (utf8_of_code_point REPLACEMENT ++ utf8_encode (toWellFormed (d :: r'))).
      rewrite IH by lia. reflexivity.
  - destruct (is_low_surrogate c) eqn:Hlo.
    + change (utf8_encode (REPLACEMENT :: toWellFormed r))
        with (utf8_of_code_point REPLACEMENT ++ utf8_encode (toWellFormed r)).
      rewrite IH by lia. reflexivity.
    + cbn [utf8_encode]. rewrite Hhi, Hlo, IH by lia. reflexivity.
Qed.

Lemma toWellFormed_well_formed_upto (n : nat) (s : jsstring) :
  (length s <= n)%nat -> is_jsstring s -> well_formed_utf16 (toWellFormed s) = true.
Proof.
  unfold is_jsstring.
  revert s. induction n as [| n IH]; intros [| c r] Hlen Hs;
    try reflexivity; cbn [length] in Hlen; [lia |].
  apply Forall_cons_iff in Hs as [Hc Hr]. unfold is_unit in Hc.
  cbn [toWellFormed].
  destruct (is_high_surrogate c) eqn:Hhi.
  - destruct r as [| d r']; [reflexivity |].
    destruct (is_low_surrogate d) eqn:Hlo.
    + cbn [well_formed_utf16]. rewrite Hhi, Hlo.
      apply Forall_cons_iff in Hr as [_ Hr].
      rewrite IH by (assumption || cbn [length] in Hlen; lia). reflexivity.
    + change (well_formed_utf16 (REPLACEMENT :: toWellFormed (d :: r')))
        with (well_formed_utf16 (toWellFormed (d :: r'))).
      apply IH; [lia | assumption].
  - destruct (is_low_surrogate c) eqn:Hlo.
    + change (well_formed_utf16 (REPLACEMENT :: toWellFormed r))
        with (well_formed_utf16 (toWellFormed r)).
      apply IH; [lia | assumption].
    + cbn [well_formed_utf16]. rewrite Hhi, Hlo, IH by (assumption || lia).
      cbn [negb andb].
      destruct (Z.leb_spec 0 c); [| lia].
      destruct (Z.ltb_spec c 65536); [reflexivity | lia].
Qed.

Lemma toWellFormed_id_upto (n : nat) (s : jsstring) :
  (length s <= n)%nat -> well_formed_utf16 s = true -> toWellFormed s = s.
Proof.
  revert s. induction n as [| n IH]; intros [| c r] Hlen Hwf;
    try reflexivity; cbn [length] in Hlen; [lia |].
  cbn [toWellFormed well_formed_utf16] in *.
  destruct (is_high_surrogate c) eqn:Hhi.
  - destruct r as [| d r']; [discriminate |].
    apply andb_prop in Hwf as [Hlo Hwf]. rewrite Hlo.
    rewrite IH by (assumption || cbn [length] in Hlen; lia). reflexivity.
  - apply andb_prop in Hwf as [Hwf Hr]. apply andb_prop in Hwf as [Hwf _].
    apply andb_prop in Hwf as [Hlo _]. apply negb_true_iff in Hlo. rewrite Hlo.
    rewrite IH by (assumption || lia). reflexivity.
Qed.

(** What the ['utf8'] encoding keeps of a string. *)
Lemma utf8_decode_encode (s : jsstring) :
  is_jsstring s -> utf8_decode (utf8_encode s) = toWellFormed s.
Proof.
  intros Hs.
  rewrite <- (utf8_encode_toWellFormed_upto (length s) s) by lia.
  apply utf8_roundtrip. apply (toWellFormed_well_formed_upto (length s)); [lia | exact Hs].
Qed.

(** X3.  For every string of 16-bit code units and every 32-byte key,
    decrypting what [encryptText] returned gives the plaintext with each
    unpaired surrogate replaced by U+FFFD, and nothing else changed: the
    plaintext itself when it has no unpaired surrogate. *)
Theorem decryptText_encryptText_toWellFormed (w : World) (plain : jsstring) :
  length (masterKey w) = 32%nat ->
  is_jsstring plain ->
  exists payload w',
    encryptText plain w = (Return payload, w')
    /\ decryptText (masterKey w) payload = Ok (toWellFormed plain)
    /\ (well_formed_utf16 plain = true -> toWellFormed plain = plain).
Proof.
  intros Hk Hs.
  destruct (next_iv_spec w) as (_ & Hlen & Hiv).
  assert (Hne : is_valid_gcm_iv_length (length (next_iv w)) = true)
    by (rewrite Hlen; reflexivity).
  destruct (encryptText_with_payload (masterKey w) (next_iv w) plain Hk Hne)
    as (ct & tag & Henc & Hpay).
  eexists. eexists.
  split; [rewrite encryptText_unfold, Hpay; reflexivity |].
  split; [| apply (toWellFormed_id_upto (length plain)); lia].
  assert (Hpt : is_bytes (utf8_encode plain)) by (apply utf8_encode_bytes, Hs).
  pose proof (gcm_decrypt_encrypt (aes_256 (masterKey w)) (next_iv w)
                (utf8_encode plain)) as Hdec.
  rewrite Henc in Hdec. cbn [fst snd] in Hdec.
  destruct (gcm_encrypt_lengths _ _ _ _ _ Henc) as [_ Htlen].
  assert (Hct : is_bytes ct).
  { apply (f_equal fst) in Henc. cbn [fst] in Henc. subst ct.
    unfold gcm_encrypt. cbn [fst]. apply gctr_is_bytes, Hpt. }
  assert (Htag : is_bytes tag).
  { apply (f_equal snd) in Henc. cbn [snd] in Henc. subst tag.
    unfold gcm_encrypt. cbn [snd]. apply bytes_of_block_is_bytes. }
  rewrite (decryptText_three_parts (masterKey w) (toString_hex (next_iv w))
             (toString_hex ct) (toString_hex tag) []).
  2:{ apply (split_join3 COLON (toString_hex (next_iv w)) (toString_hex ct)
               (toString_hex tag)); apply toString_hex_no_colon. }
  rewrite !from_hex_toString_hex by assumption.
  rewrite (decipher_run_ok (masterKey w) (next_iv w) ct tag (utf8_encode plain))
    by assumption.
  cbn [result_bind]. f_equal. apply utf8_decode_encode, Hs.
Qed.

Lemma decryptText_encryptText_toWellFormed_witness :
  exists payload w',
    encryptText [104; 0xDC00; 105; 0xD83D; 0xDE00; 0xD83D] (sample_world [] None)
    = (Return payload, w')
    /\ decryptText (masterKey (sample_world [] None)) payload
       = Ok (toWellFormed [104; 0xDC00; 105; 0xD83D; 0xDE00; 0xD83D])
    /\ (well_formed_utf16 [104; 0xDC00; 105; 0xD83D; 0xDE00; 0xD83D] = true ->
        toWellFormed [104; 0xDC00; 105; 0xD83D; 0xDE00; 0xD83D]
        = [104; 0xDC00; 105; 0xD83D; 0xDE00; 0xD83D]).
Proof.
  apply (decryptText_encryptText_toWellFormed (sample_world [] None)
           [104; 0xDC00; 105; 0xD83D; 0xDE00; 0xD83D]).
  - reflexivity.
  - repeat (apply Forall_cons_iff; split; [unfold is_unit; lia |]). constructor.
Defined.

(** ** What [decryptText] reads of a payload *)

Lemma split_on_not_nil (sep : Z) (s : jsstring) : split_on sep s <> [].
Proof.
  induction s as [| c r IH]; [discriminate |].
  cbn [split_on]. destruct (c =? sep); [discriminate |].
  destruct (split_on sep r); [contradiction | discriminate].
Qed.

Lemma split_on_app (sep : Z) (a b : jsstring) :
  split_on sep (a ++ sep :: b) = split_on sep a ++ split_on sep b.
Proof.
  induction a as [| c a IH].
  - cbn [app split_on]. rewrite Z.eqb_refl. reflexivity.
  - cbn [app split_on]. rewrite IH.
    destruct (c =? sep); [reflexivity |].
    pose proof (split_on_not_nil sep a) as Hne.
    destruct (split_on sep a) as [| h t]; [contradiction | reflexivity].
Qed.

(** X4.  [decryptText] reads the first three components of a payload
    and nothing after them: whatever follows a further colon changes
    neither the plaintext nor the error. *)
Theorem decryptText_ignores_further_components (key : buffer) (payload junk : jsstring) :
  (3 <= length (split_on COLON payload))%nat ->
  decryptText key (payload ++ COLON :: junk) = decryptText key payload.
Proof.
  intros Hlen.
  destruct (split_on_length_ge_3 payload Hlen) as (a & b & c & rest & Hs).
  rewrite (decryptText_three_parts key a b c rest payload Hs).
  apply (decryptText_three_parts key a b c (rest ++ split_on COLON junk)).
  rewrite split_on_app, Hs. reflexivity.
Qed.

Lemma decryptText_ignores_further_components_witness :
  decryptText sample_key (secret sample_entry ++ COLON :: js "anything:at:all")
  = decryptText sample_key (secret sample_entry).
Proof.
  apply (decryptText_ignores_further_components sample_key (secret sample_entry)
           (js "anything:at:all")).
  vm_compute. lia.
Defined.

Lemma Ok_inj {A} (a b : A) : Ok a = Ok b -> a = b.
Proof. congruence. Qed.

Lemma encryptText_Return (plain payload : jsstring) (w : World) :
  fst (encryptText plain w) = Return payload ->
  encryptText_with (masterKey w) (next_iv w) plain = Ok payload.
Proof.
  rewrite encryptText_unfold.
  destruct (encryptText_with (masterKey w) (next_iv w) plain) as [p | e];
    cbn [lift fst]; [| discriminate].
  intros [= ->]. reflexivity.
Qed.

(** X5.  The payload determines the nonce: two calls of [encryptText]
    that drew different nonces return different payloads, whatever the
    keys and the plaintexts; two stored secrets are equal only if their
    nonces are. *)
Theorem payloads_of_distinct_nonces_differ (w1 w2 : World)
    (plain1 plain2 payload1 payload2 : jsstring) :
  fst (encryptText plain1 w1) = Return payload1 ->
  fst (encryptText plain2 w2) = Return payload2 ->
  next_iv w1 <> next_iv w2 ->
  payload1 <> payload2.
Proof.
  intros He1 He2 Hne Heq.
  apply encryptText_Return in He1, He2.
  destruct (next_iv_spec w1) as (_ & _ & Hiv1).
  destruct (next_iv_spec w2) as (_ & _ & Hiv2).
  destruct (encryptText_with_key_length _ _ _ _ He1) as [Hk1 Hn1].
  destruct (encryptText_with_key_length _ _ _ _ He2) as [Hk2 Hn2].
  destruct (encryptText_with_payload _ _ plain1 Hk1 Hn1) as (ct1 & tag1 & _ & Hp1).
  destruct (encryptText_with_payload _ _ plain2 Hk2 Hn2) as (ct2 & tag2 & _ & Hp2).
  rewrite Hp1 in He1. rewrite Hp2 in He2.
  apply Ok_inj in He1, He2. subst payload1 payload2.
  apply (f_equal (split_on COLON)) in Heq.
  rewrite !split_on_app_sep in Heq by apply toString_hex_no_colon.
  apply (f_equal (hd [])) in Heq. cbn [hd] in Heq.
  apply (f_equal from_hex) in Heq.
  rewrite !from_hex_toString_hex in Heq by assumption.
  contradiction.
Qed.

Lemma payloads_of_distinct_nonces_differ_witness :
  let w1 := sample_world [] None in
  let w2 := snd (encryptText (js "hello") w1) in
  fst (encryptText (js "hello") w1)
  = Return (js "07172737475767778797a7b7:3ac881653f:af9af2e470a3d1485cfc7023387bd3cb")
  /\ fst (encryptText (js "hello") w2)
     = Return (js "c7d7e7f70717273747576777:6b45999308:a6789592fd24c2739d99160abac8ef18")
  /\ js "07172737475767778797a7b7:3ac881653f:af9af2e470a3d1485cfc7023387bd3cb"
     <> js "c7d7e7f70717273747576777:6b45999308:a6789592fd24c2739d99160abac8ef18".
Proof.
  cbv zeta.
  split; [vm_compute; reflexivity |]. split; [vm_compute; reflexivity |].
  apply (payloads_of_distinct_nonces_differ
           (sample_world [] None)
           (snd (encryptText (js "hello") (sample_world [] None)))
           (js "hello") (js "hello")).
  - vm_compute. reflexivity.
  - vm_compute. reflexivity.
  - vm_compute. discriminate.
Defined.

(** ** Computations that keep the view *)

Lemma keeps_view_ret {A} (a : A) : keeps_view (mret a).
Proof. intros w. reflexivity. Qed.

Lemma keeps_view_bind {A B} (m : M A) (k : A -> M B) :
  keeps_view m -> (forall a, keeps_view (k a)) -> keeps_view (m ≫= k).
Proof.
  intros Hm Hk w. unfold mbind, M_bind.
  specialize (Hm w). destruct (m w) as [[a | e | c |] w']; cbn [snd] in *; try assumption.
  rewrite Hk. assumption.
Qed.

Lemma keeps_view_throw {A} (e : Error) : keeps_view (@throw A e).
Proof. intros w. reflexivity. Qed.

Lemma keeps_view_process_exit {A} (c : Z) : keeps_view (@process_exit A c).
Proof. intros w. reflexivity. Qed.

Lemma keeps_view_pending {A} : keeps_view (@pending A).
Proof. intros w. reflexivity. Qed.

Lemma keeps_view_lift {A} (r : result A) : keeps_view (lift r).
Proof. destruct r; intros w; reflexivity. Qed.

Lemma keeps_view_get_masterKey : keeps_view get_masterKey.
Proof. intros w. reflexivity. Qed.

Lemma keeps_view_Math_random : keeps_view Math_random.
Proof. intros w. reflexivity. Qed.

Lemma keeps_view_randomBytes (n : nat) : keeps_view (randomBytes n).
Proof. intros w. reflexivity. Qed.

Lemma keeps_view_Date_toISOString : keeps_view Date_toISOString.
Proof. intros w. reflexivity. Qed.

Lemma keeps_view_console_log (m : Message) : keeps_view (console_log m).
Proof. intros w. reflexivity. Qed.

Lemma keeps_view_prompt (p : Prompt) : keeps_view (prompt p).
Proof. intros w. reflexivity. Qed.

Create HintDb keeps_view discriminated.
#[local] Hint Resolve keeps_view_ret keeps_view_throw keeps_view_process_exit
  keeps_view_pending keeps_view_lift keeps_view_get_masterKey keeps_view_Math_random
  keeps_view_randomBytes keeps_view_Date_toISOString keeps_view_console_log
  keeps_view_prompt : keeps_view.

Ltac keeps_view_step :=
  match goal with
  | |- keeps_view (_ ≫= _) => apply keeps_view_bind; [| intros ?]
  | |- keeps_view (match ?x with _ => _ end) => destruct x
  | |- keeps_view (if ?b then _ else _) => destruct b
  | |- keeps_view _ => solve [auto with keeps_view]
  end.

Lemma keeps_view_prompt_list (msg : jsstring) (choices : list jsstring) :
  keeps_view (prompt_list msg choices).
Proof. unfold prompt_list. repeat keeps_view_step. Qed.

Lemma keeps_view_prompt_input (msg : jsstring) (validate : jsstring -> bool) :
  keeps_view (prompt_input msg validate).
Proof. unfold prompt_input. repeat keeps_view_step. Qed.

Lemma keeps_view_prompt_confirm (msg : jsstring) (default : bool) :
  keeps_view (prompt_confirm msg default).
Proof. unfold prompt_confirm. repeat keeps_view_step. Qed.

#[local] Hint Resolve keeps_view_prompt_list keeps_view_prompt_input
  keeps_view_prompt_confirm : keeps_view.

Lemma keeps_view_pause : keeps_view pause.
Proof. unfold pause. repeat keeps_view_step. Qed.

Lemma keeps_view_pick (s : jsstring) : keeps_view (pick s).
Proof. unfold pick, floor_random_times. repeat keeps_view_step. Qed.

#[local] Hint Resolve keeps_view_pause keeps_view_pick : keeps_view.

Lemma keeps_view_fill (fuel : nat) (len : Z) (all : jsstring) (pw : list jsstring) :
  keeps_view (fill fuel len all pw).
Proof.
  revert pw. induction fuel as [| f IH]; intros pw; cbn [fill];
    repeat keeps_view_step; apply IH.
Qed.

Lemma keeps_view_shuffle (i : nat) (pw : list jsstring) : keeps_view (shuffle i pw).
Proof.
  revert pw. induction i as [| i IH]; intros pw; cbn [shuffle];
    repeat keeps_view_step; apply IH.
Qed.

#[local] Hint Resolve keeps_view_fill keeps_view_shuffle : keeps_view.

Lemma keeps_view_generatePassword (length : Z) : keeps_view (generatePassword length).
Proof. unfold generatePassword. repeat keeps_view_step. Qed.

Lemma keeps_view_encryptText (plain : jsstring) : keeps_view (encryptText plain).
Proof. unfold encryptText. repeat keeps_view_step. Qed.

Lemma keeps_view_deprecateEntry (e : Entry) : keeps_view (deprecateEntry e).
Proof. unfold deprecateEntry. repeat keeps_view_step. Qed.

#[local] Hint Resolve keeps_view_generatePassword keeps_view_encryptText
  keeps_view_deprecateEntry : keeps_view.

(** ** How a computation ends *)

Lemma ends_keeps_view {A} (m : M A) (w : World) (v : View) (X : View -> Prop) :
  keeps_view m -> view w = v -> X v -> ends m w X.
Proof. intros Hm Hv HX. unfold ends. rewrite Hm, Hv. exact HX. Qed.

Lemma ends_bind {A B} (m : M A) (k : A -> M B) (w : World) (v : View)
    (X : View -> Prop) :
  keeps_view m -> view w = v -> X v ->
  (forall a w', m w = (Return a, w') -> view w' = v -> ends (k a) w' X) ->
  ends (m ≫= k) w X.
Proof.
  intros Hm Hv HX Hk. unfold ends, mbind, M_bind.
  specialize (Hm w). specialize (Hk).
  destruct (m w) as [[a | e | c |] w'] eqn:Hrun; cbn [snd] in *;
    try (rewrite Hm, Hv; exact HX).
  apply (Hk a w' eq_refl). rewrite Hm. exact Hv.
Qed.

Lemma ends_bind_run {A B} (m : M A) (k : A -> M B) (w w' : World) (a : A)
    (X : View -> Prop) :
  m w = (Return a, w') -> ends (k a) w' X -> ends (m ≫= k) w X.
Proof. intros Hm Hk. unfold ends. step Hm. exact Hk. Qed.

Lemma view_after_uuid (w : World) (v : View) :
  view w = v ->
  view (emit EvRandomUUID (advance SrcRandomUUID 1 w))
  = {| v_oracle := v_oracle v; v_key := v_key v; v_store := v_store v;
       v_uuids := S (v_uuids v) |}.
Proof. intros <-. reflexivity. Qed.

Lemma view_after_save (s : Store) (w : World) (v : View) :
  view w = v ->
  view (emit (EvWriteStore s) (set_store_file s w))
  = {| v_oracle := v_oracle v; v_key := v_key v; v_store := Some s;
       v_uuids := v_uuids v |}.
Proof. intros <-. reflexivity. Qed.

Lemma next_uuid_view (w : World) (v : View) :
  view w = v -> next_uuid w = uuid_src (v_oracle v) (v_uuids v).
Proof. intros <-. reflexivity. Qed.

(** ** What the calls of a flow return *)

Lemma prompt_input_valid (msg : jsstring) (validate : jsstring -> bool)
    (w w' : World) (s : jsstring) :
  prompt_input msg validate w = (Return s, w') -> validate s = true.
Proof.
  unfold prompt_input, mbind, M_bind, prompt.
  destruct (next_answer w 0) as [k | t | b]; try discriminate.
  destruct (validate t) eqn:Hv; [| discriminate].
  intros [= <- _]. exact Hv.
Qed.

Lemma generatePassword_12_returns (w w' : World) (pwd : jsstring) :
  generatePassword 12 w = (Return pwd, w') ->
  length pwd = 12%nat /\ Forall (fun c => c ∈ ALL_CLASSES) pwd.
Proof.
  intros Hrun.
  destruct (generatePassword_spec 12 w)
    as (pwd' & w'' & Hrun' & Hlen & _ & _ & _ & _ & Hall & _).
  rewrite Hrun in Hrun'. injection Hrun' as <- _.
  split; [lia | exact Hall].
Qed.

Lemma encryptText_returns (plain payload : jsstring) (w w' : World) :
  well_formed_utf16 plain = true ->
  encryptText plain w = (Return payload, w') ->
  decryptText (masterKey w) payload = Ok plain.
Proof.
  intros Hwf Hrun.
  destruct (decide (length (masterKey w) = 32%nat)) as [Hk | Hk].
  - destruct (encryptText_run plain w Hk Hwf) as (payload' & Hrun' & Hdec).
    rewrite Hrun in Hrun'. injection Hrun' as -> _. exact Hdec.
  - rewrite encryptText_unfold in Hrun.
    rewrite encryptText_with_bad_key in Hrun; [discriminate | | exact Hk].
    destruct (next_iv_spec w) as (_ & Hlen & _).
    rewrite Hlen. reflexivity.
Qed.

(** The secret of a generated password, as the flows make it. *)
Lemma generated_secret (w1 w2 w3 : World) (v : View) (pwd enc : jsstring) :
  generatePassword 12 w1 = (Return pwd, w2) ->
  view w2 = v ->
  encryptText pwd w2 = (Return enc, w3) ->
  good_secret (v_key v) enc.
Proof.
  intros Hgen <- Henc.
  destruct (generatePassword_12_returns _ _ _ Hgen) as [Hlen Hall].
  exists pwd. split; [| auto].
  apply (encryptText_returns pwd enc w2 w3); [| exact Henc].
  apply generated_well_formed, Hall.
Qed.

(** ** What one flow does to the entries *)

Lemma view_inv (w : World) (v : View) :
  view w = v ->
  oracle w = v_oracle v /\ masterKey w = v_key v
  /\ store_file w = v_store v /\ cursor w SrcRandomUUID = v_uuids v.
Proof. intros <-. auto. Qed.

Lemma ends_weaken {A} (m : M A) (w : World) (X Y : View -> Prop) :
  ends m w X -> (forall v, X v -> Y v) -> ends m w Y.
Proof. unfold ends. auto. Qed.

(** The first call of every flow: the store that is in the file, or
    the empty store written to a file that was missing. *)
Lemma ends_loadStore {A} (k : Store -> M A) (w : World) (X : View -> Prop) :
  (forall st w1,
      entries st = entries_of (store_file w) ->
      view w1 = {| v_oracle := oracle w; v_key := masterKey w; v_store := Some st;
                   v_uuids := cursor w SrcRandomUUID |} ->
      ends (k st) w1 X) ->
  ends (loadStore ≫= k) w X.
Proof.
  intros Hk. destruct (store_file w) as [st |] eqn:Hw.
  - eapply ends_bind_run; [apply loadStore_existing, Hw |].
    apply Hk; [reflexivity |]. unfold view. rewrite Hw. reflexivity.
  - eapply ends_bind_run; [unfold loadStore; rewrite Hw; reflexivity |].
    apply Hk; reflexivity.
Qed.

(** The last calls of [generateFlow] and of the two [regen] blocks: an
    entry under the next id is appended and the store saved. *)
Lemma ends_push_save (kept : list Entry) (nm enc : jsstring) (log : Message)
    (w : World) (v : View) :
  view w = v ->
  ends (uuid ← randomUUID;
        now ← Date_toISOString;
        saveStore {| entries := kept ++ [new_entry uuid nm enc now] |};;
        console_log log;;
        pause) w
    (fun v' => exists now,
       v' = {| v_oracle := v_oracle v; v_key := v_key v;
               v_store := Some {| entries :=
                 kept ++ [new_entry (uuid_src (v_oracle v) (v_uuids v)) nm enc now] |};
               v_uuids := S (v_uuids v) |}).
Proof.
  intros Hv.
  eapply ends_bind_run; [apply randomUUID_run |].
  eapply ends_bind_run; [apply Date_toISOString_run |].
  eapply ends_bind_run; [apply saveStore_run |].
  eapply ends_keeps_view.
  - repeat keeps_view_step.
  - apply view_after_save.
    transitivity (view (emit EvRandomUUID (advance SrcRandomUUID 1 w)));
      [reflexivity | apply view_after_uuid, Hv].
  - eexists. rewrite (next_uuid_view w v Hv). reflexivity.
Qed.

Lemma flow_end_none (v v1 : View) :
  v_oracle v1 = v_oracle v -> v_key v1 = v_key v -> v_uuids v1 = v_uuids v ->
  entries_of (v_store v1) = entries_of (v_store v) ->
  flow_end v v1.
Proof.
  intros Ho Hk Hn He. unfold flow_end. rewrite He, Hn. auto using step_none.
Qed.

Section Flows.
Variable w0 : World.
Variable st : Store.
Hypothesis Hst : entries st = entries_of (store_file w0).

Lemma flow_end_loaded : flow_end (view w0) (loaded w0 st).
Proof. apply flow_end_none; try reflexivity. exact Hst. Qed.

Lemma ends_generateFlow_loaded (w : World) :
  view w = loaded w0 st ->
  ends (nm ← prompt_input (js "App/site name:") (fun s => bool_decide (trim s ≠ []));
        pwd ← generatePassword 12;
        enc ← encryptText pwd;
        uuid ← randomUUID;
        now ← Date_toISOString;
        saveStore {| entries := entries st ++ [new_entry uuid (trim nm) enc now] |};;
        console_log (MsgNewPassword nm pwd);;
        pause) w (flow_end (view w0)).
Proof.
  intros Hv. pose proof flow_end_loaded as H1.
  eapply ends_bind; [auto with keeps_view | exact Hv | exact H1 |].
  intros nm w2 Hnm Hv2. apply prompt_input_valid, bool_decide_eq_true in Hnm.
  eapply ends_bind; [auto with keeps_view | exact Hv2 | exact H1 |].
  intros pwd w3 Hgen Hv3.
  eapply ends_bind; [auto with keeps_view | exact Hv3 | exact H1 |].
  intros enc w4 Henc Hv4.
  eapply ends_weaken; [apply ends_push_save, Hv4 |].
  intros v' [now ->]. unfold flow_end.
  cbn [v_oracle v_key v_store v_uuids view loaded entries_of].
  split; [reflexivity |]. split; [reflexivity |].
  rewrite Hst. apply step_generate; [exact Hnm |].
  apply (generated_secret _ _ _ (loaded w0 st) _ _ Hgen Hv3 Henc).
Qed.

Lemma ends_getFlow_regen_loaded (w : World) (i : nat) (entry : Entry) :
  view w = loaded w0 st -> entries st !! i = Some entry ->
  ends (getFlow_regen st i entry) w (flow_end (view w0)).
Proof.
  intros Hv Hi. pose proof flow_end_loaded as H1. unfold getFlow_regen.
  eapply ends_bind_run; [apply deprecateEntry_run |].
  assert (Hv' : view (emit EvDate (advance SrcClock 1 w)) = loaded w0 st) by exact Hv.
  eapply ends_bind; [auto with keeps_view | exact Hv' | exact H1 |].
  intros pwd w3 Hgen Hv3.
  eapply ends_bind; [auto with keeps_view | exact Hv3 | exact H1 |].
  intros enc w4 Henc Hv4.
  eapply ends_weaken; [apply ends_push_save, Hv4 |].
  intros v' [now ->]. unfold flow_end.
  cbn [v_oracle v_key v_store v_uuids view loaded entries_of].
  split; [reflexivity |]. split; [reflexivity |].
  rewrite <- Hst. apply (step_rotate _ _ _ _ i entry); [exact Hi |].
  apply (generated_secret _ _ _ (loaded w0 st) _ _ Hgen Hv3 Henc).
Qed.

Lemma ends_getFlow_catch_loaded (w : World) (found : option (nat * Entry)) :
  view w = loaded w0 st ->
  (forall i entry, found = Some (i, entry) -> entry ∈ entries st) ->
  ends (getFlow_catch found) w (flow_end (view w0)).
Proof.
  intros Hv Hfound. pose proof flow_end_loaded as H1. unfold getFlow_catch.
  eapply ends_bind; [auto with keeps_view | exact Hv | exact H1 |].
  intros [] w2 _ Hv2.
  eapply ends_bind; [auto with keeps_view | exact Hv2 | exact H1 |].
  intros onError w3 _ Hv3.
  destruct (decide (onError = js "regen")) as [_ | _].
  2:{ eapply ends_keeps_view; [auto with keeps_view | exact Hv3 | exact H1]. }
  destruct (view_inv w3 _ Hv3) as (_ & _ & Hfile & _).
  eapply ends_bind_run; [apply loadStore_existing, Hfile |].
  destruct found as [[i entry] |].
  2:{ eapply ends_keeps_view; [auto with keeps_view | exact Hv3 | exact H1]. }
  eapply ends_bind; [auto with keeps_view | exact Hv3 | exact H1 |].
  intros pwd w4 Hgen Hv4.
  eapply ends_bind; [auto with keeps_view | exact Hv4 | exact H1 |].
  intros enc w5 Henc Hv5.
  eapply ends_weaken; [apply ends_push_save, Hv5 |].
  intros v' [now ->]. unfold flow_end.
  cbn [v_oracle v_key v_store v_uuids view loaded entries_of].
  split; [reflexivity |]. split; [reflexivity |].
  rewrite <- Hst. apply step_replace; [eapply Hfound; reflexivity |].
  apply (generated_secret _ _ _ (loaded w0 st) _ _ Hgen Hv4 Henc).
Qed.

Lemma ends_showDeprecated_loaded (w : World) :
  view w = loaded w0 st -> ends showDeprecated w (flow_end (view w0)).
Proof.
  intros Hv. pose proof flow_end_loaded as H1.
  destruct (view_inv w _ Hv) as (_ & _ & Hfile & _).
  unfold showDeprecated.
  eapply ends_bind_run; [apply loadStore_existing, Hfile |].
  eapply ends_keeps_view; [| exact Hv | exact H1].
  cbv zeta. repeat keeps_view_step.
Qed.

Lemma ends_getFlow_loaded (w : World) :
  view w = loaded w0 st ->
  ends (let active := filter (fun e => deprecated e = false) (entries st) in
        if decide (active = []) then console_log MsgNoActive;; pause
        else
          sel ← prompt_list (js "Select entry:") (map id active);
          let found := list_find (fun e => id e = sel) (entries st) in
          key ← get_masterKey;
          match found with
          | None => getFlow_catch found
          | Some (i, entry) =>
              match decryptText key (secret entry) with
              | Err _ => getFlow_catch found
              | Ok pwd =>
                  console_log (MsgPassword (name entry) pwd);;
                  next ← prompt_list (js "Next?")
                           [js "regen"; js "showOld"; js "back"; js "exit"];
                  if decide (next = js "regen") then getFlow_regen st i entry
                  else if decide (next = js "showOld") then showDeprecated
                  else if decide (next = js "back") then mret tt
                  else process_exit 0
              end
          end) w (flow_end (view w0)).
Proof.
  intros Hv. pose proof flow_end_loaded as H1. cbv zeta.
  destruct (decide _) as [_ | _].
  { eapply ends_keeps_view; [repeat keeps_view_step | exact Hv | exact H1]. }
  eapply ends_bind; [auto with keeps_view | exact Hv | exact H1 |].
  intros sel w2 _ Hv2.
  eapply ends_bind; [auto with keeps_view | exact Hv2 | exact H1 |].
  intros key w3 _ Hv3.
  destruct (list_find (fun e => id e = sel) (entries st)) as [[i entry] |] eqn:Hfind.
  2:{ apply ends_getFlow_catch_loaded; [exact Hv3 | discriminate]. }
  pose proof Hfind as Hfind'.
  apply list_find_Some in Hfind' as (Hi & _ & _).
  destruct (decryptText key (secret entry)) as [pwd | err].
  2:{ apply ends_getFlow_catch_loaded; [exact Hv3 |].
      intros i' e' [= _ <-]. eapply list_elem_of_lookup_2, Hi. }
  eapply ends_bind; [auto with keeps_view | exact Hv3 | exact H1 |].
  intros [] w4 _ Hv4.
  eapply ends_bind; [auto with keeps_view | exact Hv4 | exact H1 |].
  intros next w5 _ Hv5.
  destruct (decide (next = js "regen")) as [_ | _];
    [apply ends_getFlow_regen_loaded; assumption |].
  destruct (decide (next = js "showOld")) as [_ | _];
    [apply ends_showDeprecated_loaded; assumption |].
  destruct (decide (next = js "back")) as [_ | _];
    eapply ends_keeps_view; first [exact Hv5 | exact H1 | auto with keeps_view].
Qed.

Lemma ends_deleteFlow_loaded (w : World) :
  view w = loaded w0 st ->
  ends (let names := set_values [] (map name (entries st)) in
        if decide (names = []) then console_log MsgNoToDelete;; pause
        else
          nm ← prompt_list (js "Select site to delete:") names;
          confirm ← prompt_confirm (js "Delete ALL for " ++ [34] ++ nm ++ [34; 63]) false;
          if negb confirm then mret tt
          else
            let before := length (entries st) in
            let kept := filter (fun e => name e ≠ nm) (entries st) in
            saveStore {| entries := kept |};;
            console_log (MsgDeleted (Z.of_nat before - Z.of_nat (length kept)) nm);;
            pause) w (flow_end (view w0)).
Proof.
  intros Hv. pose proof flow_end_loaded as H1. cbv zeta.
  destruct (decide _) as [_ | _].
  { eapply ends_keeps_view; [repeat keeps_view_step | exact Hv | exact H1]. }
  eapply ends_bind; [auto with keeps_view | exact Hv | exact H1 |].
  intros nm w2 _ Hv2.
  eapply ends_bind; [auto with keeps_view | exact Hv2 | exact H1 |].
  intros confirm w3 _ Hv3.
  destruct (negb confirm).
  { eapply ends_keeps_view; [auto with keeps_view | exact Hv3 | exact H1]. }
  eapply ends_bind_run; [apply saveStore_run |].
  eapply ends_keeps_view;
    [repeat keeps_view_step | apply view_after_save, Hv3 |].
  unfold flow_end. cbn [v_oracle v_key v_store v_uuids view loaded entries_of].
  split; [reflexivity |]. split; [reflexivity |].
  rewrite <- Hst. apply step_delete.
Qed.
End Flows.

(** Every flow, run in any world with any answers, ends in one of the
    five ways of [entry_step]. *)
Lemma run_flow_end (f : Flow) (w : World) : flow_end (view w) (view (snd (run_flow f w))).
Proof.
  change (ends (run_flow f) w (flow_end (view w))).
  destruct f; cbn [run_flow]; apply ends_loadStore; intros st w1 Hst Hv.
  - apply (ends_generateFlow_loaded w st Hst w1 Hv).
  - apply (ends_getFlow_loaded w st Hst w1 Hv).
  - apply (ends_deleteFlow_loaded w st Hst w1 Hv).
Qed.

(** ** What holds throughout a session *)

Lemma session_view (env : Env) (key : buffer) (w : World) (P : View -> Prop) :
  (forall v, v_oracle v = env -> v_key v = key -> entries_of (v_store v) = [] -> P v) ->
  (forall v v', v_oracle v = env -> v_key v = key -> P v -> flow_end v v' -> P v') ->
  session env key w ->
  v_oracle (view w) = env /\ v_key (view w) = key /\ P (view w).
Proof.
  intros Hstart Hflow.
  induction 1 as [w Ho Hk He | f w _ (Ho & Hk & IH) | w w' _ IH Hv].
  - split; [exact Ho |]. split; [exact Hk |]. apply Hstart; assumption.
  - pose proof (run_flow_end f w) as Hend.
    pose proof Hend as (Ho' & Hk' & _).
    split; [congruence |]. split; [congruence |].
    apply (Hflow (view w)); assumption.
  - rewrite Hv. exact IH.
Qed.

Lemma trimStart_clean (s : jsstring) :
  match trimStart s with c :: _ => is_js_whitespace c = false | [] => True end.
Proof.
  induction s as [| c s IH]; [exact I |].
  cbn [trimStart]. destruct (is_js_whitespace c) eqn:Hc; [exact IH | exact Hc].
Qed.

Lemma trimStart_id (s : jsstring) :
  match s with c :: _ => is_js_whitespace c = false | [] => True end ->
  trimStart s = s.
Proof. destruct s as [| c s]; [reflexivity |]. cbn [trimStart]. intros ->. reflexivity. Qed.

Lemma trimStart_suffix (s : jsstring) : exists p, s = p ++ trimStart s.
Proof.
  induction s as [| c s [p IH]]; [exists []; reflexivity |].
  cbn [trimStart]. destruct (is_js_whitespace c).
  - exists (c :: p). cbn [app]. rewrite <- IH. reflexivity.
  - exists []. reflexivity.
Qed.

(** Trimming a trimmed string changes nothing. *)
Lemma trim_idempotent (s : jsstring) : trim (trim s) = trim s.
Proof.
  unfold trim.
  set (t := trimStart s). set (u := trimStart (rev t)).
  assert (Hu : trimStart u = u) by apply trimStart_id, trimStart_clean.
  assert (Hr : trimStart (rev u) = rev u).
  { apply trimStart_id.
    destruct (trimStart_suffix (rev t)) as [p Hp]. fold u in Hp.
    apply (f_equal (@rev Z)) in Hp. rewrite rev_involutive, rev_app_distr in Hp.
    pose proof (trimStart_clean s) as Ht. fold t in Ht.
    destruct (rev u) as [| c r]; [exact I |].
    rewrite Hp in Ht. exact Ht. }
  rewrite Hr, rev_involutive, Hu. reflexivity.
Qed.

Lemma entry_step_names (env : Env) (key : buffer) (n n' : nat)
    (before after : list Entry) :
  entry_step env key n before after n' ->
  Forall (fun e => trimmed_name (name e)) before ->
  Forall (fun e => trimmed_name (name e)) after.
Proof.
  intros Hstep Hb.
  destruct Hstep as [| nm | nm enc now Hnm _ | old enc now Hold _
                     | i old enc now now' Hi _].
  - assumption.
  - apply Forall_filter_keep. assumption.
  - apply Forall_app. split; [assumption |]. constructor; [| constructor].
    split; [exact Hnm | apply trim_idempotent].
  - rewrite Forall_forall in Hb.
    apply Forall_app. split.
    + apply Forall_filter_keep, Forall_forall. exact Hb.
    + constructor; [| constructor]. apply (Hb old), list_elem_of_In, Hold.
  - pose proof (Forall_lookup_1 _ _ _ _ Hb Hi) as Hname.
    apply Forall_app. split.
    + apply Forall_insert; assumption.
    + constructor; [exact Hname | constructor].
Qed.

(** X6.  In a session that starts on an empty store, every entry of the
    store has a name that is not empty and has no white space at either
    end, whatever the user answers: only [generateFlow] brings a new
    name in, trimmed, and its prompt does not resolve on a blank
    line. *)
Theorem session_names_trimmed (env : Env) (key : buffer) (w : World) :
  session env key w ->
  Forall (fun e => name e <> [] /\ trim (name e) = name e) (entries_of (store_file w)).
Proof.
  intros Hs.
  apply (session_view env key w
           (fun v => Forall (fun e => trimmed_name (name e)) (entries_of (v_store v)))) in Hs.
  - apply Hs.
  - intros v _ _ ->. constructor.
  - intros v v' _ _ Hv (_ & _ & Hstep). eapply entry_step_names; eassumption.
Qed.

Lemma entry_step_secrets (env : Env) (key : buffer) (n n' : nat)
    (before after : list Entry) :
  entry_step env key n before after n' ->
  Forall (fun e => good_secret key (secret e)) before ->
  Forall (fun e => good_secret key (secret e)) after.
Proof.
  intros Hstep Hb.
  destruct Hstep as [| nm | nm enc now _ Henc | old enc now _ Henc
                     | i old enc now now' Hi Henc].
  - assumption.
  - apply Forall_filter_keep. assumption.
  - apply Forall_app. split; [assumption |]. constructor; [exact Henc | constructor].
  - apply Forall_app. split; [apply Forall_filter_keep; assumption |].
    constructor; [exact Henc | constructor].
  - pose proof (Forall_lookup_1 _ _ _ _ Hb Hi) as Hold.
    apply Forall_app. split.
    + apply Forall_insert; assumption.
    + constructor; [exact Henc | constructor].
Qed.

(** X7.  In a session that starts on an empty store, every secret in
    the store -- of an active or of a deprecated entry -- decrypts under
    the key of the session to a password of 12 characters taken from the
    four classes.  No hypothesis on the key is needed: with a key that
    [createCipheriv] refuses, no entry is ever written. *)
Theorem session_secrets_decrypt (env : Env) (key : buffer) (w : World) :
  session env key w ->
  Forall (fun e => good_secret (masterKey w) (secret e)) (entries_of (store_file w)).
Proof.
  intros Hs.
  apply (session_view env key w
           (fun v => Forall (fun e => good_secret key (secret e))
                       (entries_of (v_store v)))) in Hs.
  - destruct Hs as (_ & Hk & Hs). cbn [view v_key] in Hk. rewrite Hk. apply Hs.
  - intros v _ _ ->. constructor.
  - intros v v' _ Hk Hv (_ & _ & Hstep). rewrite Hk in Hstep.
    eapply entry_step_secrets; eassumption.
Qed.

Lemma map_fmap {A B} (f : A -> B) (l : list A) : map f l = f <$> l.
Proof. induction l as [| x l IH]; [reflexivity |]. cbn. rewrite IH. reflexivity. Qed.

Lemma NoDup_map_filter {A B} (f : A -> B) (P : A -> Prop) `{forall x, Decision (P x)}
    (l : list A) :
  NoDup (map f l) -> NoDup (map f (filter P l)).
Proof.
  rewrite !map_fmap. intros Hn. apply (sublist_NoDup _ _ Hn).
  apply fmap_sublist, sublist_filter.
Qed.

Lemma ids_drawn_push (env : Env) (es : list Entry) (n : nat) (nm enc now : jsstring) :
  (forall i j, uuid_src env i = uuid_src env j -> i = j) ->
  ids_drawn env es n ->
  ids_drawn env (es ++ [new_entry (uuid_src env n) nm enc now]) (S n).
Proof.
  intros Hinj [Hnd Hall]. split.
  - rewrite map_app. cbn [map new_entry id].
    apply list.NoDup_app. split; [exact Hnd |]. split; [| apply NoDup_singleton].
    intros x Hx Hx'. apply list_elem_of_singleton in Hx'. subst x.
    rewrite map_fmap in Hx. apply list_elem_of_fmap in Hx as (e & He & Hin).
    rewrite Forall_forall in Hall.
    destruct (Hall e (proj1 (list_elem_of_In _ _) Hin)) as (k & Hk & Hid).
    rewrite Hid in He. apply Hinj in He. lia.
  - apply Forall_app. split.
    + eapply Forall_impl; [| exact Hall].
      intros e (k & Hk & Hid). exists k. split; [lia | exact Hid].
    + constructor; [| constructor]. exists n. split; [lia | reflexivity].
Qed.

Lemma entry_step_ids (env : Env) (key : buffer) (n n' : nat)
    (before after : list Entry) :
  (forall i j, uuid_src env i = uuid_src env j -> i = j) ->
  entry_step env key n before after n' ->
  ids_drawn env before n -> ids_drawn env after n'.
Proof.
  intros Hinj Hstep Hb.
  destruct Hstep as [| nm | nm enc now _ _ | old enc now _ _
                     | i old enc now now' Hi _].
  - assumption.
  - destruct Hb as [Hnd Hall].
    split; [apply NoDup_map_filter, Hnd | apply Forall_filter_keep, Hall].
  - apply ids_drawn_push; assumption.
  - apply ids_drawn_push; [assumption |]. destruct Hb as [Hnd Hall].
    split; [apply NoDup_map_filter, Hnd | apply Forall_filter_keep, Hall].
  - apply ids_drawn_push; [assumption |]. destruct Hb as [Hnd Hall].
    split.
    + rewrite map_fmap in *.
      rewrite list_fmap_insert. cbn [deprecated_at id].
      rewrite list_insert_id; [exact Hnd |].
      rewrite list_lookup_fmap, Hi. reflexivity.
    + apply Forall_insert; [exact Hall |].
      apply (Forall_lookup_1 _ _ _ _ Hall Hi).
Qed.

(** X8.  When [crypto.randomUUID] never returns the same id twice, the
    entries of a session that starts on an empty store have distinct
    ids, deprecated entries included, and every id in the store was
    drawn from [crypto.randomUUID] earlier in the session. *)
Theorem session_ids_distinct (env : Env) (key : buffer) (w : World) :
  (forall i j, uuid_src env i = uuid_src env j -> i = j) ->
  session env key w ->
  NoDup (map id (entries_of (store_file w)))
  /\ forall e, e ∈ entries_of (store_file w) -> id e ∈ drawn_ids w.
Proof.
  intros Hinj Hs.
  apply (session_view env key w
           (fun v => ids_drawn env (entries_of (v_store v)) (v_uuids v))) in Hs.
  - destruct Hs as (Ho & _ & Hnd & Hall). split; [exact Hnd |].
    intros e He. rewrite Forall_forall in Hall.
    destruct (Hall e (proj1 (list_elem_of_In _ _) He)) as (k & Hk & ->).
    unfold drawn_ids. cbn [view v_oracle v_uuids] in *. rewrite Ho.
    rewrite map_fmap. apply list_elem_of_fmap. exists k. split; [reflexivity |].
    apply elem_of_seq. lia.
  - intros v _ _ ->. split; constructor.
  - intros v v' Ho _ Hv (_ & _ & Hstep). rewrite Ho in Hstep.
    eapply entry_step_ids; eassumption.
Qed.

(** ** Rotation, and what else deprecates an entry *)
























(** ** The flows, step by step *)

Lemma prompt_input_run (msg : jsstring) (validate : jsstring -> bool) (w : World)
    (s : jsstring) :
  next_answer w 0 = Text s -> validate s = true ->
  prompt_input msg validate w
  = (Return s, emit (EvPrompt (PromptInput msg)) (advance SrcUser 1 w)).
Proof.
  intros Ha Hv. unfold prompt_input, mbind, M_bind, prompt. rewrite Ha, Hv. reflexivity.
Qed.

(** The end of [generateFlow] and of the two [regen] blocks. *)
Lemma push_save_run (kept : list Entry) (nm : jsstring) (log : jsstring -> Message)
    (w : World) :
  length (masterKey w) = 32%nat ->
  exists pwd enc,
    decryptText (masterKey w) enc = Ok pwd
    /\ length pwd = 12%nat
    /\ Forall (fun c => c ∈ ALL_CLASSES) pwd
    /\ forall w',
        (newPwd ← generatePassword 12;
         newEnc ← encryptText newPwd;
         uuid ← randomUUID;
         now ← Date_toISOString;
         saveStore {| entries := kept ++ [new_entry uuid nm newEnc now] |};;
         console_log (log newPwd);;
         pause) w = w' ->
        let after := kept ++ [new_entry (next_uuid w) nm enc (next_date w 0)] in
        store_file (snd w') = Some {| entries := after |}
        /\ trace (snd w') = trace w ++ push_events after (log pwd).
Proof.
  intros Hkey.
  destruct (generatePassword_spec 12 w)
    as (pwd & w1 & Hgen & Hlen & _ & _ & _ & _ & Hall & ->).
  change (Z.to_nat (2 * Z.max 12 8 - 1)) with 23%nat in Hgen.
  destruct (encryptText_run pwd (Nat.iter 23 draw w)) as (enc & Henc & Hdec);
    [autorewrite with world; exact Hkey | apply generated_well_formed, Hall |].
  autorewrite with world in Hdec.
  exists pwd, enc. split; [exact Hdec |]. split; [lia |]. split; [exact Hall |].
  intros w' <-. step Hgen. step Henc.
  erewrite bind_Return by apply randomUUID_run.
  erewrite bind_Return by apply Date_toISOString_run.
  erewrite bind_Return by apply saveStore_run.
  erewrite bind_Return by apply console_log_run.
  cbv zeta. split.
  - rewrite frames_pause. unfold next_uuid, next_date. autorewrite with world.
    reflexivity.
  - rewrite pause_trace. unfold next_uuid, next_date, push_events, PAUSE.
    autorewrite with world. rewrite <- !app_assoc. reflexivity.
Qed.

(** ** [generateFlow] *)

(** X9.  When the name typed is not blank and the key has 32 bytes,
    [generateFlow] appends one active entry to the store and leaves the
    entries that were there as they are: the new entry has the next id
    of [crypto.randomUUID], the trimmed name, the date of the clock, and
    a secret that decrypts to the 12-character password that the flow
    prints.  The store is written once, before the message. *)
Theorem generateFlow_appends (w : World) (st : Store) (nm : jsstring) :
  store_file w = Some st ->
  length (masterKey w) = 32%nat ->
  next_answer w 0 = Text nm ->
  trim nm <> [] ->
  exists pwd enc,
    let after := entries st ++ [new_entry (next_uuid w) (trim nm) enc (next_date w 0)] in
    store_file (snd (generateFlow w)) = Some {| entries := after |}
    /\ decryptText (masterKey w) enc = Ok pwd
    /\ length pwd = 12%nat
    /\ trace (snd (generateFlow w))
       = trace w ++ [EvPrompt (PromptInput (js "App/site name:"))]
           ++ push_events after (MsgNewPassword nm pwd).
Proof.
  intros Hw Hkey Hnm Hvalid.
  set (w1 := emit (EvPrompt (PromptInput (js "App/site name:"))) (advance SrcUser 1 w)).
  destruct (push_save_run (entries st) (trim nm) (MsgNewPassword nm) w1)
    as (pwd & enc & Hdec & Hlen & _ & Hrun); [exact Hkey |].
  exists pwd, enc. cbv zeta.
  assert (Hflow : generateFlow w
    = (newPwd ← generatePassword 12;
       newEnc ← encryptText newPwd;
       uuid ← randomUUID;
       now ← Date_toISOString;
       saveStore {| entries := entries st ++ [new_entry uuid (trim nm) newEnc now] |};;
       console_log (MsgNewPassword nm newPwd);;
       pause) w1).
  { unfold generateFlow. step (loadStore_existing w st Hw).
    erewrite bind_Return; [reflexivity |].
    apply prompt_input_run; [exact Hnm | apply bool_decide_eq_true; exact Hvalid]. }
  destruct (Hrun _ (eq_sym Hflow)) as [Hst Htr].
  unfold next_uuid, next_date, w1 in Hst, Htr. autorewrite with world in Hst, Htr.
  split; [exact Hst |]. split; [exact Hdec |]. split; [exact Hlen |].
  rewrite Htr, <- !app_assoc. reflexivity.
Qed.

Lemma generateFlow_appends_witness :
  exists pwd enc,
    let w := sample_world [Text (js " example.net ")] (Some sample_store) in
    let after := entries sample_store
                 ++ [new_entry (next_uuid w) (js "example.net") enc (next_date w 0)] in
    store_file (snd (generateFlow w)) = Some {| entries := after |}
    /\ decryptText sample_key enc = Ok pwd
    /\ length pwd = 12%nat.
Proof.
  destruct (generateFlow_appends
              (sample_world [Text (js " example.net ")] (Some sample_store))
              sample_store (js " example.net "))
    as (pwd & enc & Hst & Hdec & Hlen & _).
  - reflexivity.
  - reflexivity.
  - reflexivity.
  - vm_compute. discriminate.
  - exists pwd, enc. cbv zeta. rewrite Hst. auto.
Defined.

(** ** [getFlow] *)

Lemma selects_active (w : World) (st : Store) (i : nat) (e : Entry) :
  selects w st i e -> entries st !! i = Some e /\ e ∈ entries st.
Proof.
  intros (_ & k & sel & _ & _ & Hfind).
  apply list_find_Some in Hfind as (Hi & _ & _).
  split; [exact Hi | eapply list_elem_of_lookup_2, Hi].
Qed.

(** [getFlow] up to the decryption of the selected entry. *)
Lemma getFlow_selected (w : World) (st : Store) (i : nat) (e : Entry) :
  selects w st i e ->
  getFlow w
  = match decryptText (masterKey w) (secret e) with
    | Err _ => getFlow_catch (Some (i, e))
    | Ok pwd =>
        console_log (MsgPassword (name e) pwd);;
        next ← prompt_list (js "Next?")
                 [js "regen"; js "showOld"; js "back"; js "exit"];
        if decide (next = js "regen") then getFlow_regen st i e
        else if decide (next = js "showOld") then showDeprecated
        else if decide (next = js "back") then mret tt
        else process_exit 0
    end (emit (SELECT_ENTRY st) (advance SrcUser 1 w)).
Proof.
  intros (Hw & k & sel & Hsel & Hk & Hfind). unfold getFlow.
  step (loadStore_existing w st Hw).
  rewrite decide_False.
  2:{ intros Hnil. unfold active_ids in Hk. rewrite Hnil in Hk. discriminate. }
  step (prompt_list_choose (js "Select entry:") _ w k sel Hsel Hk).
  erewrite bind_Return by apply get_masterKey_run.
  rewrite Hfind, masterKey_emit, masterKey_advance. reflexivity.
Qed.

(** X10.  When the secret of the selected active entry does not decrypt
    and the user chooses "Delete & new", [getFlow] removes every entry
    that has the id of the corrupted one and appends one active entry of
    the same name under the next id, whose secret decrypts to the
    password printed; the other entries keep their order. *)
Theorem getFlow_replaces_corrupted (w : World) (st : Store) (i : nat) (e : Entry)
    (err : Error) :
  selects w st i e ->
  decryptText (masterKey w) (secret e) = Err err ->
  next_answer w 1 = Choose 1 ->
  length (masterKey w) = 32%nat ->
  exists pwd enc,
    let kept := filter (fun x => id x ≠ id e) (entries st) in
    let after := kept ++ [new_entry (next_uuid w) (name e) enc (next_date w 0)] in
    store_file (snd (getFlow w)) = Some {| entries := after |}
    /\ (e ∉ kept)
    /\ (forall x, x ∈ entries st -> id x <> id e -> x ∈ kept)
    /\ decryptText (masterKey w) enc = Ok pwd
    /\ length pwd = 12%nat
    /\ trace (snd (getFlow w))
       = trace w ++ [SELECT_ENTRY st; EvLog MsgDecryptionFailed; HANDLE_CORRUPTED]
           ++ push_events after (MsgReplaced pwd).
Proof.
  intros Hsel Hdec Hregen Hkey.
  pose proof Hsel as (Hw & _).
  set (w2 := emit HANDLE_CORRUPTED
               (advance SrcUser 1
                  (emit (EvLog MsgDecryptionFailed)
                     (emit (SELECT_ENTRY st) (advance SrcUser 1 w))))).
  destruct (push_save_run (filter (fun x => id x ≠ id e) (entries st)) (name e)
              MsgReplaced w2) as (pwd & enc & Hd & Hlen & _ & Hrun); [exact Hkey |].
  exists pwd, enc. cbv zeta.
  assert (Hflow : getFlow w
    = (newPwd ← generatePassword 12;
       newEnc ← encryptText newPwd;
       uuid ← randomUUID;
       now ← Date_toISOString;
       saveStore {| entries := filter (fun x => id x ≠ id e) (entries st)
                               ++ [new_entry uuid (name e) newEnc now] |};;
       console_log (MsgReplaced newPwd);;
       pause) w2).
  { rewrite (getFlow_selected w st i e Hsel), Hdec. unfold getFlow_catch.
    erewrite bind_Return by apply console_log_run.
    erewrite bind_Return.
    2:{ apply (prompt_list_choose _ _ _ 1 (js "regen")); [| reflexivity].
        rewrite !next_answer_emit, next_answer_advance_user. exact Hregen. }
    rewrite decide_True by reflexivity.
    erewrite bind_Return; [reflexivity |].
    apply loadStore_existing. autorewrite with world. exact Hw. }
  destruct (Hrun _ (eq_sym Hflow)) as [Hst Htr].
  unfold next_uuid, next_date, w2 in Hst, Htr. autorewrite with world in Hst, Htr.
  split; [exact Hst |].
  split; [rewrite list_elem_of_filter; tauto |].
  split; [intros x Hx Hne; apply list_elem_of_filter; auto |].
  split; [exact Hd |]. split; [exact Hlen |].
  rewrite Htr, <- !app_assoc. reflexivity.
Qed.

(** X11.  When the secret of the selected active entry does not decrypt
    and the user chooses "Back", [getFlow] returns to the menu: the
    store file is as it was, nothing is written and no password is
    shown. *)
Theorem getFlow_corrupted_back (w : World) (st : Store) (i : nat) (e : Entry)
    (err : Error) :
  selects w st i e ->
  decryptText (masterKey w) (secret e) = Err err ->
  next_answer w 1 = Choose 0 ->
  fst (getFlow w) = Return tt
  /\ store_file (snd (getFlow w)) = Some st
  /\ trace (snd (getFlow w))
     = trace w ++ [SELECT_ENTRY st; EvLog MsgDecryptionFailed; HANDLE_CORRUPTED].
Proof.
  intros Hsel Hdec Hback. pose proof Hsel as (Hw & _).
  rewrite (getFlow_selected w st i e Hsel), Hdec. unfold getFlow_catch.
  erewrite bind_Return by apply console_log_run.
  erewrite bind_Return.
  2:{ apply (prompt_list_choose _ _ _ 0 (js "back")); [| reflexivity].
      rewrite !next_answer_emit, next_answer_advance_user. exact Hback. }
  rewrite decide_False by discriminate.
  cbn [fst snd mret M_ret]. autorewrite with world.
  split; [reflexivity |]. split; [exact Hw |].
  rewrite <- !app_assoc. reflexivity.
Qed.

(** X12.  When the secret of the selected entry decrypts, [getFlow]
    prints the name of the entry and the decrypted password; on "Back"
    it then returns to the menu and on "Exit" it ends the process with
    code 0.  Neither writes the store. *)
Theorem getFlow_shows_password (w : World) (st : Store) (i : nat) (e : Entry)
    (pwd : jsstring) (j : nat) :
  selects w st i e ->
  decryptText (masterKey w) (secret e) = Ok pwd ->
  next_answer w 1 = Choose j ->
  j = 2%nat \/ j = 3%nat ->
  fst (getFlow w) = (if decide (j = 2%nat) then Return tt else Exit 0)
  /\ store_file (snd (getFlow w)) = Some st
  /\ trace (snd (getFlow w))
     = trace w ++ [SELECT_ENTRY st; EvLog (MsgPassword (name e) pwd); NEXT].
Proof.
  intros Hsel Hdec Hnext Hj. pose proof Hsel as (Hw & _).
  rewrite (getFlow_selected w st i e Hsel), Hdec.
  erewrite bind_Return by apply console_log_run.
  destruct Hj as [-> | ->].
  - erewrite bind_Return.
    2:{ apply (prompt_list_choose _ _ _ 2 (js "back")); [| reflexivity].
        rewrite !next_answer_emit, next_answer_advance_user. exact Hnext. }
    rewrite (decide_False (P := js "back" = js "regen")) by discriminate.
    rewrite (decide_False (P := js "back" = js "showOld")) by discriminate.
    rewrite (decide_True (P := js "back" = js "back")) by reflexivity.
    cbn [fst snd mret M_ret]. autorewrite with world.
    split; [reflexivity |]. split; [exact Hw |].
    rewrite <- !app_assoc. reflexivity.
  - erewrite bind_Return.
    2:{ apply (prompt_list_choose _ _ _ 3 (js "exit")); [| reflexivity].
        rewrite !next_answer_emit, next_answer_advance_user. exact Hnext. }
    rewrite (decide_False (P := js "exit" = js "regen")) by discriminate.
    rewrite (decide_False (P := js "exit" = js "showOld")) by discriminate.
    rewrite (decide_False (P := js "exit" = js "back")) by discriminate.
    cbn [fst snd process_exit]. autorewrite with world.
    split; [reflexivity |]. split; [exact Hw |].
    rewrite <- !app_assoc. reflexivity.
Qed.

(** ** [showDeprecated] *)

Lemma showDeprecated_run (w : World) (st : Store) (k i : nat) (sel pwd : jsstring)
    (e : Entry) :
  store_file w = Some st ->
  next_answer w 0 = Choose k ->
  deprecated_ids st !! k = Some sel ->
  list_find (fun x => id x = sel) (entries st) = Some (i, e) ->
  decryptText (masterKey w) (secret e) = Ok pwd ->
  store_file (snd (showDeprecated w)) = Some st
  /\ trace (snd (showDeprecated w))
     = trace w ++ [SELECT_DEPRECATED st; EvLog (MsgDeprecated (name e) pwd); PAUSE].
Proof.
  intros Hw Hsel Hk Hfind Hdec.
  unfold showDeprecated.
  step (loadStore_existing w st Hw).
  rewrite decide_False.
  2:{ intros Hnil. unfold deprecated_ids in Hk. rewrite Hnil in Hk. discriminate. }
  step (prompt_list_choose (js "Select deprecated:") _ w k sel Hsel Hk).
  rewrite Hfind.
  erewrite bind_Return by apply get_masterKey_run.
  rewrite masterKey_emit, masterKey_advance, Hdec.
  erewrite bind_Return by reflexivity.
  erewrite bind_Return by apply console_log_run.
  rewrite frames_pause, pause_trace. autorewrite with world.
  split; [exact Hw |]. rewrite <- !app_assoc. reflexivity.
Qed.

(** X13.  [showDeprecated] lists the ids of the deprecated entries and
    shows the first entry of the store that has the id selected: it
    prints the name of that entry and the password its secret decrypts
    to, and leaves the store file as it is.  When the ids of the store
    are distinct, that entry is the deprecated entry selected. *)
Theorem showDeprecated_shows_password (w : World) (st : Store) (k i : nat)
    (sel pwd : jsstring) (e : Entry) :
  store_file w = Some st ->
  next_answer w 0 = Choose k ->
  deprecated_ids st !! k = Some sel ->
  list_find (fun x => id x = sel) (entries st) = Some (i, e) ->
  decryptText (masterKey w) (secret e) = Ok pwd ->
  store_file (snd (showDeprecated w)) = Some st
  /\ trace (snd (showDeprecated w))
     = trace w ++ [SELECT_DEPRECATED st; EvLog (MsgDeprecated (name e) pwd); PAUSE]
  /\ (NoDup (map id (entries st)) -> deprecated e = true).
Proof.
  intros Hw Hsel Hk Hfind Hdec.
  destruct (showDeprecated_run w st k i sel pwd e Hw Hsel Hk Hfind Hdec) as [Hst Htr].
  split; [exact Hst |]. split; [exact Htr |].
  intros Hnd.
  apply list_find_Some in Hfind as (Hi & Hid & _).
  apply list_elem_of_lookup_2 in Hk. unfold deprecated_ids in Hk.
  rewrite map_fmap in Hk. apply list_elem_of_fmap in Hk as (e' & Hsel' & He').
  apply list_elem_of_filter in He' as [Hdep He'].
  apply list_elem_of_lookup in He' as [i' Hi'].
  rewrite map_fmap in Hnd.
  assert (i = i') as <-.
  { apply (NoDup_lookup _ i i' sel Hnd); rewrite list_lookup_fmap.
    - rewrite Hi. cbn. rewrite Hid. reflexivity.
    - rewrite Hi'. cbn. rewrite Hsel'. reflexivity. }
  congruence.
Qed.

Lemma showDeprecated_shows_password_witness :
  trace (snd (showDeprecated (sample_world [Choose 0] (Some sample_store))))
  = [SELECT_DEPRECATED sample_store;
     EvLog (MsgDeprecated (js "example.com") (js "hello")); PAUSE].
Proof.
  destruct (showDeprecated_shows_password
              (sample_world [Choose 0] (Some sample_store)) sample_store 0 0
              (id sample_old) (js "hello") sample_old) as (_ & Htr & _).
  - reflexivity.
  - reflexivity.
  - vm_compute. reflexivity.
  - vm_compute. reflexivity.
  - vm_compute. reflexivity.
  - exact Htr.
Defined.

(** ** Stores with nothing to select *)

Lemma loadStore_missing (w : World) :
  store_file w = None ->
  loadStore w
  = (Return {| entries := [] |},
     emit (EvWriteStore {| entries := [] |}) (set_store_file {| entries := [] |} w)).
Proof. intros Hw. unfold loadStore. rewrite Hw. reflexivity. Qed.

(** X14.  When the store file does not exist, [loadStore] writes a file
    that holds the empty store: [getFlow], [showDeprecated] and
    [deleteFlow] write it first, then say that there is nothing to
    select and wait for ENTER, without any selection prompt. *)
Theorem missing_store_file_is_created (w : World) :
  store_file w = None ->
  let empty := {| entries := [] |} in
  let ends_with (r : Outcome unit * World) (m : Message) :=
    store_file (snd r) = Some empty
    /\ trace (snd r) = trace w ++ [EvWriteStore empty; EvLog m; PAUSE] in
  ends_with (getFlow w) MsgNoActive
  /\ ends_with (showDeprecated w) MsgNoDeprecated
  /\ ends_with (deleteFlow w) MsgNoToDelete.
Proof.
  intros Hw. cbv zeta.
  split; [| split].
  - unfold getFlow. step (loadStore_missing w Hw).
    cbn [entries filter list_filter]. rewrite decide_True by reflexivity.
    erewrite bind_Return by apply console_log_run.
    rewrite frames_pause, pause_trace. autorewrite with world.
    split; [reflexivity |]. rewrite <- !app_assoc. reflexivity.
  - unfold showDeprecated. step (loadStore_missing w Hw).
    cbn [entries filter list_filter]. rewrite decide_True by reflexivity.
    erewrite bind_Return by apply console_log_run.
    rewrite frames_pause, pause_trace. autorewrite with world.
    split; [reflexivity |]. rewrite <- !app_assoc. reflexivity.
  - unfold deleteFlow. step (loadStore_missing w Hw).
    cbn [entries map set_values]. rewrite decide_True by reflexivity.
    erewrite bind_Return by apply console_log_run.
    rewrite frames_pause, pause_trace. autorewrite with world.
    split; [reflexivity |]. rewrite <- !app_assoc. reflexivity.
Qed.

Lemma missing_store_file_is_created_witness :
  store_file (snd (getFlow (sample_world [] None))) = Some {| entries := [] |}
  /\ trace (snd (getFlow (sample_world [] None)))
     = [EvWriteStore {| entries := [] |}; EvLog MsgNoActive; PAUSE].
Proof.
  apply (missing_store_file_is_created (sample_world [] None)). reflexivity.
Defined.

(** X15.  When the store has no active entry, [getFlow] says so and
    waits for ENTER; so does [showDeprecated] when no entry is
    deprecated, and [deleteFlow] when the store is empty.  No selection
    is prompted for and the store file stays as it is. *)
Theorem nothing_to_select (w : World) (st : Store) :
  store_file w = Some st ->
  let ends_with (r : Outcome unit * World) (m : Message) :=
    store_file (snd r) = Some st
    /\ trace (snd r) = trace w ++ [EvLog m; PAUSE] in
  (active_ids st = [] -> ends_with (getFlow w) MsgNoActive)
  /\ (deprecated_ids st = [] -> ends_with (showDeprecated w) MsgNoDeprecated)
  /\ (entries st = [] -> ends_with (deleteFlow w) MsgNoToDelete).
Proof.
  intros Hw. cbv zeta.
  split; [| split].
  - intros Hnone. apply map_eq_nil in Hnone.
    unfold getFlow. step (loadStore_existing w st Hw).
    rewrite decide_True by exact Hnone.
    erewrite bind_Return by apply console_log_run.
    rewrite frames_pause, pause_trace. autorewrite with world.
    split; [exact Hw |]. rewrite <- !app_assoc. reflexivity.
  - intros Hnone. apply map_eq_nil in Hnone.
    unfold showDeprecated. step (loadStore_existing w st Hw).
    rewrite decide_True by exact Hnone.
    erewrite bind_Return by apply console_log_run.
    rewrite frames_pause, pause_trace. autorewrite with world.
    split; [exact Hw |]. rewrite <- !app_assoc. reflexivity.
  - intros Hnone.
    unfold deleteFlow. step (loadStore_existing w st Hw).
    rewrite Hnone. cbn [map set_values]. rewrite decide_True by reflexivity.
    erewrite bind_Return by apply console_log_run.
    rewrite frames_pause, pause_trace. autorewrite with world.
    split; [exact Hw |]. rewrite <- !app_assoc. reflexivity.
Qed.

(** ** After a rotation *)

Lemma list_find_rotated (sel : jsstring) (l : list Entry) (i : nat) (e new : Entry)
    (now : jsstring) :
  list_find (fun x => id x = sel) l = Some (i, e) ->
  list_find (fun x => id x = sel) (<[i := deprecated_at now e]> l ++ [new])
  = Some (i, deprecated_at now e).
Proof.
  intros Hfind. apply list_find_Some in Hfind as (Hi & Hid & Hfirst).
  pose proof (lookup_lt_Some _ _ _ Hi) as Hlt.
  apply list_find_Some. split; [| split].
  - rewrite lookup_app_l by (rewrite length_insert; exact Hlt).
    apply list_lookup_insert_eq. exact Hlt.
  - exact Hid.
  - intros j y Hj Hji.
    rewrite lookup_app_l in Hj by (rewrite length_insert; lia).
    rewrite list_lookup_insert_ne in Hj by lia.
    apply (Hfirst j y Hj Hji).
Qed.

(** X16.  The password of an entry that was rotated stays readable:
    after "Deprecate+new" the id of the entry is in the list that
    [showDeprecated] offers, and selecting it there prints the name of
    the entry and the password that [getFlow] had shown before the
    rotation. *)
Theorem rotated_password_stays_readable (w : World) (st : Store) (i : nat) (e : Entry)
    (pwd : jsstring) :
  rotates w st i e ->
  decryptText (masterKey w) (secret e) = Ok pwd ->
  exists st',
    store_file (snd (getFlow w)) = Some st'
    /\ id e ∈ deprecated_ids st'
    /\ forall (w2 : World) (k : nat),
         store_file w2 = Some st' ->
         masterKey w2 = masterKey w ->
         next_answer w2 0 = Choose k ->
         deprecated_ids st' !! k = Some (id e) ->
         trace (snd (showDeprecated w2))
         = trace w2 ++ [SELECT_DEPRECATED st'; EvLog (MsgDeprecated (name e) pwd); PAUSE].
Proof.
  intros Hrot Hdec.
  destruct (getFlow_rotate w st i e Hrot) as (newPwd & newEnc & Hst & Hi & _ & _).
  destruct Hrot as (_ & k0 & sel & _ & _ & _ & Hfind & _ & _).
  pose proof Hfind as Hsel. apply list_find_Some in Hsel as (_ & Hsel & _).
  eexists. split; [exact Hst |].
  pose proof (lookup_lt_Some _ _ _ Hi) as Hlt.
  split.
  - unfold deprecated_ids, rotated_entries. cbn [entries].
    rewrite map_fmap. apply list_elem_of_fmap.
    exists (deprecated_at (next_date w 0) e). split; [reflexivity |].
    apply list_elem_of_filter. split; [reflexivity |].
    apply elem_of_app. left.
    eapply list_elem_of_lookup_2. apply list_lookup_insert_eq. exact Hlt.
  - intros w2 k Hw2 Hkey Hk Hid.
    eapply (showDeprecated_run w2 _ k i (id e) pwd (deprecated_at (next_date w 0) e)).
    + exact Hw2.
    + exact Hk.
    + exact Hid.
    + unfold rotated_entries. cbn [entries]. rewrite Hsel.
      apply list_find_rotated. exact Hfind.
    + rewrite Hkey. exact Hdec.
Qed.

Lemma rotated_password_stays_readable_witness :
  exists st',
    store_file (snd (getFlow (sample_world [Choose 1; Choose 0] (Some sample_store))))
    = Some st'
    /\ id sample_entry ∈ deprecated_ids st'.
Proof.
  destruct (rotated_password_stays_readable
              (sample_world [Choose 1; Choose 0] (Some sample_store))
              sample_store 3 sample_entry (js "hello") sample_rotates)
    as (st' & Hst & Hin & _).
  - vm_compute. reflexivity.
  - exists st'. auto.
Defined.

(** ** The names offered by [deleteFlow] *)

Lemma set_values_spec (xs seen : list jsstring) :
  NoDup (set_values seen xs)
  /\ forall x, x ∈ set_values seen xs <-> x ∈ xs /\ x ∉ seen.
Proof.
  revert seen. induction xs as [| y xs IH]; intros seen; cbn [set_values].
  - split; [constructor |]. intros x. rewrite elem_of_nil. tauto.
  - destruct (decide (y ∈ seen)) as [Hy | Hy].
    + destruct (IH seen) as [Hnd Hin]. split; [exact Hnd |].
      intros x. rewrite Hin, elem_of_cons. split; [tauto |].
      intros [[-> | Hx] Hns]; [contradiction | tauto].
    + destruct (IH (y :: seen)) as [Hnd Hin]. split.
      * apply list.NoDup_cons. split; [| exact Hnd].
        rewrite Hin, elem_of_cons. tauto.
      * intros x. rewrite !elem_of_cons, Hin, elem_of_cons.
        destruct (decide (x = y)) as [-> | Hne]; [tauto |]. tauto.
Qed.

(** X17.  [deleteFlow] offers every name of the store exactly once; once
    the deletion of a name is confirmed, the store that is written
    offers the same names but the deleted one. *)
Theorem deleteFlow_names (w : World) (st : Store) (k : nat) (nm : jsstring) :
  store_file w = Some st ->
  next_answer w 0 = Choose k ->
  set_values [] (map name (entries st)) !! k = Some nm ->
  next_answer w 1 = YesNo true ->
  let names := set_values [] (map name (entries st)) in
  NoDup names
  /\ (forall x, x ∈ names <-> exists e, e ∈ entries st /\ name e = x)
  /\ exists st',
       store_file (snd (deleteFlow w)) = Some st'
       /\ forall x, x ∈ set_values [] (map name (entries st')) <-> x ∈ names /\ x <> nm.
Proof.
  intros Hw Hsel Hk Hyes names.
  destruct (set_values_spec (map name (entries st)) []) as [Hnd Hin].
  assert (Hnames : forall (l : list Entry) x,
             x ∈ set_values [] (map name l) <-> exists e, e ∈ l /\ name e = x).
  { intros l x. destruct (set_values_spec (map name l) []) as [_ Hl].
    rewrite Hl, map_fmap, list_elem_of_fmap. split.
    - intros [(e & -> & He) _]. eauto.
    - intros (e & He & <-). split; [eauto | apply not_elem_of_nil]. }
  split; [exact Hnd |]. split; [apply Hnames |].
  exists {| entries := filter (fun e => name e ≠ nm) (entries st) |}. split.
  - unfold deleteFlow. step (loadStore_existing w st Hw).
    rewrite decide_False by (eapply lookup_Some_not_nil, Hk).
    step (prompt_list_choose (js "Select site to delete:") _ w k nm Hsel Hk).
    erewrite bind_Return
      by (apply prompt_confirm_answer;
          rewrite next_answer_emit, next_answer_advance_user; exact Hyes).
    cbn [negb]. apply saveStore_then. repeat frames_step.
  - intros x. cbn [entries]. unfold names. rewrite !Hnames. split.
    + intros (e & He & <-). apply list_elem_of_filter in He as [Hne He]. eauto.
    + intros [(e & He & <-) Hne]. exists e. split; [| reflexivity].
      apply list_elem_of_filter. auto.
Qed.

Lemma deleteFlow_names_witness :
  exists st',
    store_file (snd (deleteFlow (sample_world [Choose 0; YesNo true] (Some sample_store))))
    = Some st'
    /\ (js "other.org" ∈ set_values [] (map name (entries st')))
    /\ (js "example.com" ∉ set_values [] (map name (entries st'))).
Proof.
  destruct (deleteFlow_names (sample_world [Choose 0; YesNo true] (Some sample_store))
              sample_store 0 (js "example.com"))
    as (_ & _ & st' & Hst & Hnames).
  - reflexivity.
  - reflexivity.
  - vm_compute. reflexivity.
  - reflexivity.
  - exists st'. split; [exact Hst |]. split.
    + apply Hnames. split; [| discriminate].
      vm_compute. apply list_elem_of_In. right. left. reflexivity.
    + intros Hin. apply Hnames in Hin as [_ Hne]. apply Hne. reflexivity.
Defined.

(** ** The menu *)

Lemma bind_returns_inv {A B} (m : M A) (k : A -> M B) (w : World) (b : B) :
  fst ((m ≫= k) w) = Return b ->
  exists a w', m w = (Return a, w') /\ fst (k a w') = Return b.
Proof.
  unfold mbind, M_bind. destruct (m w) as [[a | e | c |] w']; try discriminate.
  intros H. eauto.
Qed.

Lemma exits_zero_bind {A B} (m : M A) (k : A -> M B) :
  exits_zero m -> (forall a, exits_zero (k a)) -> exits_zero (m ≫= k).
Proof.
  intros Hm Hk w c. unfold mbind, M_bind. specialize (Hm w).
  destruct (m w) as [[a | e | c' |] w']; cbn [fst] in *; try discriminate.
  - apply Hk.
  - intros [= <-]. apply Hm. reflexivity.
Qed.

Lemma exits_zero_no_exit {A} (m : M A) :
  (forall w c, fst (m w) <> Exit c) -> exits_zero m.
Proof. intros H w c Hc. destruct (H w c Hc). Qed.

Lemma exits_zero_ret {A} (a : A) : exits_zero (mret a).
Proof. apply exits_zero_no_exit. discriminate. Qed.

Lemma exits_zero_throw {A} (e : Error) : exits_zero (@throw A e).
Proof. apply exits_zero_no_exit. discriminate. Qed.

Lemma exits_zero_process_exit {A} : exits_zero (@process_exit A 0).
Proof. intros w c [= <-]. reflexivity. Qed.

Lemma exits_zero_pending {A} : exits_zero (@pending A).
Proof. apply exits_zero_no_exit. discriminate. Qed.

Lemma exits_zero_lift {A} (r : result A) : exits_zero (lift r).
Proof. destruct r; apply exits_zero_no_exit; discriminate. Qed.

Lemma exits_zero_get_masterKey : exits_zero get_masterKey.
Proof. apply exits_zero_no_exit. discriminate. Qed.

Lemma exits_zero_randomBytes (n : nat) : exits_zero (randomBytes n).
Proof. apply exits_zero_no_exit. discriminate. Qed.

Lemma exits_zero_randomUUID : exits_zero randomUUID.
Proof. apply exits_zero_no_exit. discriminate. Qed.

Lemma exits_zero_Date_toISOString : exits_zero Date_toISOString.
Proof. apply exits_zero_no_exit. discriminate. Qed.

Lemma exits_zero_console_log (m : Message) : exits_zero (console_log m).
Proof. apply exits_zero_no_exit. discriminate. Qed.

Lemma exits_zero_prompt (p : Prompt) : exits_zero (prompt p).
Proof. apply exits_zero_no_exit. discriminate. Qed.

Lemma exits_zero_saveStore (s : Store) : exits_zero (saveStore s).
Proof. apply exits_zero_no_exit. discriminate. Qed.

Lemma exits_zero_loadStore : exits_zero loadStore.
Proof.
  apply exits_zero_no_exit. intros w c. unfold loadStore.
  destruct (store_file w); discriminate.
Qed.

Lemma exits_zero_generatePassword (length : Z) : exits_zero (generatePassword length).
Proof.
  apply exits_zero_no_exit. intros w c.
  destruct (generatePassword_spec length w) as (pwd & w' & -> & _). discriminate.
Qed.

Create HintDb exits_zero discriminated.
#[local] Hint Resolve exits_zero_ret exits_zero_throw exits_zero_process_exit
  exits_zero_pending exits_zero_lift exits_zero_get_masterKey exits_zero_randomBytes
  exits_zero_randomUUID exits_zero_Date_toISOString exits_zero_console_log
  exits_zero_prompt exits_zero_saveStore exits_zero_loadStore
  exits_zero_generatePassword : exits_zero.

Ltac exits_zero_step :=
  match goal with
  | |- exits_zero (_ ≫= _) => apply exits_zero_bind; [| intros ?]
  | |- exits_zero (match ?x with _ => _ end) => destruct x
  | |- exits_zero (if ?b then _ else _) => destruct b
  | |- exits_zero _ => solve [auto with exits_zero]
  end.

Lemma exits_zero_showDeprecated : exits_zero showDeprecated.
Proof.
  unfold showDeprecated, prompt_list, pause, prompt_confirm. repeat exits_zero_step.
Qed.

Lemma exits_zero_run_flow (f : Flow) : exits_zero (run_flow f).
Proof.
  destruct f; cbn [run_flow];
    unfold generateFlow, getFlow, getFlow_catch, getFlow_regen, deleteFlow,
      deprecateEntry, encryptText, prompt_list, prompt_input, pause, prompt_confirm;
    repeat exits_zero_step; apply exits_zero_showDeprecated.
Qed.

(** X18.  [mainMenu] never returns to its caller, however many menus
    are shown: a session ends only by [process.exit], with the exit code
    0, or by an error that nothing catches. *)
Theorem mainMenu_never_returns (fuel : nat) (w : World) :
  (forall r, fst (mainMenu fuel w) <> Return r)
  /\ (forall c, fst (mainMenu fuel w) = Exit c -> c = 0).
Proof.
  split.
  - revert w. induction fuel as [| fuel IH]; intros w r; [discriminate |].
    cbn [mainMenu]. intros H.
    apply bind_returns_inv in H as (_ & w1 & _ & H).
    apply bind_returns_inv in H as (action & w2 & _ & H).
    apply bind_returns_inv in H as (_ & w3 & _ & H).
    apply bind_returns_inv in H as (_ & w4 & _ & H).
    apply bind_returns_inv in H as (_ & w5 & _ & H).
    apply bind_returns_inv in H as (_ & w6 & _ & H).
    apply (IH w6 r H).
  - revert w. induction fuel as [| fuel IH]; intros w; [discriminate |].
    cbn [mainMenu]. revert w.
    change (exits_zero
      (console_log MsgBanner;;
       action ← prompt_list (js "Choose:") [js "gen"; js "get"; js "delete"; js "exit"];
       (if decide (action = js "gen") then generateFlow else mret tt);;
       (if decide (action = js "get") then getFlow else mret tt);;
       (if decide (action = js "delete") then deleteFlow else mret tt);;
       (if decide (action = js "exit") then process_exit 0 else mret tt);;
       mainMenu fuel)).
    unfold prompt_list. repeat exits_zero_step;
      first [exact IH | apply (exits_zero_run_flow Generate)
            | apply (exits_zero_run_flow Get) | apply (exits_zero_run_flow Delete)].
Qed.

Lemma mainMenu_asks (fuel : nat) (w : World) (j : nat) (action : jsstring) :
  next_answer w 0 = Choose j ->
  MENU_CHOICES !! j = Some action ->
  mainMenu (S fuel) w
  = ((if decide (action = js "gen") then generateFlow else mret tt);;
     (if decide (action = js "get") then getFlow else mret tt);;
     (if decide (action = js "delete") then deleteFlow else mret tt);;
     (if decide (action = js "exit") then process_exit 0 else mret tt);;
     mainMenu fuel) (after_menu w).
Proof.
  intros Hj Haction. cbn [mainMenu].
  erewrite bind_Return by apply console_log_run.
  erewrite bind_Return; [reflexivity |].
  apply (prompt_list_choose _ _ _ j action); [| exact Haction].
  rewrite next_answer_emit. exact Hj.
Qed.

(** X19.  Each menu prints the banner, asks once, and runs the flow
    that was chosen and no other; when that flow returns, the menu is
    shown again.  On "Exit" the process ends with code 0 and nothing
    else happens. *)
Theorem mainMenu_runs_the_chosen_flow (fuel : nat) (w : World) :
  (forall f, next_answer w 0 = Choose (menu_index f) ->
     mainMenu (S fuel) w = (run_flow f;; mainMenu fuel) (after_menu w))
  /\ (next_answer w 0 = Choose 3 ->
      mainMenu (S fuel) w = (Exit 0, after_menu w)).
Proof.
  split.
  - intros f Hj. destruct f; cbn [menu_index run_flow] in *.
    + rewrite (mainMenu_asks fuel w 0 (js "gen") Hj eq_refl).
      rewrite (decide_True (P := js "gen" = js "gen")) by reflexivity.
      rewrite (decide_False (P := js "gen" = js "get")) by discriminate.
      rewrite (decide_False (P := js "gen" = js "delete")) by discriminate.
      rewrite (decide_False (P := js "gen" = js "exit")) by discriminate.
      unfold mbind, M_bind. destruct (generateFlow (after_menu w)) as [[[] | | |] w'];
        reflexivity.
    + rewrite (mainMenu_asks fuel w 1 (js "get") Hj eq_refl).
      rewrite (decide_False (P := js "get" = js "gen")) by discriminate.
      rewrite (decide_True (P := js "get" = js "get")) by reflexivity.
      rewrite (decide_False (P := js "get" = js "delete")) by discriminate.
      rewrite (decide_False (P := js "get" = js "exit")) by discriminate.
      rewrite (bind_Return (mret tt) _ (after_menu w) (after_menu w) tt eq_refl).
      unfold mbind, M_bind. destruct (getFlow (after_menu w)) as [[[] | | |] w'];
        reflexivity.
    + rewrite (mainMenu_asks fuel w 2 (js "delete") Hj eq_refl).
      rewrite (decide_False (P := js "delete" = js "gen")) by discriminate.
      rewrite (decide_False (P := js "delete" = js "get")) by discriminate.
      rewrite (decide_True (P := js "delete" = js "delete")) by reflexivity.
      rewrite (decide_False (P := js "delete" = js "exit")) by discriminate.
      rewrite (bind_Return (mret tt) _ (after_menu w) (after_menu w) tt eq_refl).
      rewrite (bind_Return (mret tt) _ (after_menu w) (after_menu w) tt eq_refl).
      unfold mbind, M_bind. destruct (deleteFlow (after_menu w)) as [[[] | | |] w'];
        reflexivity.
  - intros Hj.
    rewrite (mainMenu_asks fuel w 3 (js "exit") Hj eq_refl).
    rewrite (decide_False (P := js "exit" = js "gen")) by discriminate.
    rewrite (decide_False (P := js "exit" = js "get")) by discriminate.
    rewrite (decide_False (P := js "exit" = js "delete")) by discriminate.
    rewrite (decide_True (P := js "exit" = js "exit")) by reflexivity.
    reflexivity.
Qed.

(** ** The menu stays within the session *)

Lemma session_bind {A B} (env : Env) (key : buffer) (m : M A) (k : A -> M B) :
  (forall w, session env key w -> session env key (snd (m w))) ->
  (forall a w, session env key w -> session env key (snd (k a w))) ->
  forall w, session env key w -> session env key (snd ((m ≫= k) w)).
Proof.
  intros Hm Hk w Hw. specialize (Hm w Hw). unfold mbind, M_bind.
  destruct (m w) as [[a | e | c |] w']; cbn [snd] in *; auto.
Qed.

Lemma session_keeps_view {A} (env : Env) (key : buffer) (m : M A) :
  keeps_view m -> forall w, session env key w -> session env key (snd (m w)).
Proof. intros Hm w Hw. eapply session_menu; [exact Hw | apply Hm]. Qed.

Lemma mainMenu_in_session (env : Env) (key : buffer) (fuel : nat) (w : World) :
  session env key w -> session env key (snd (mainMenu fuel w)).
Proof.
  revert w. induction fuel as [| fuel IH]; intros w Hw; [exact Hw |].
  cbn [mainMenu]. revert w Hw.
  apply session_bind; [apply session_keeps_view; auto with keeps_view | intros _].
  apply session_bind; [apply session_keeps_view; auto with keeps_view | intros action].
  apply session_bind.
  { destruct (decide (action = js "gen"));
      [apply (session_flow env key Generate)
      | apply session_keeps_view; auto with keeps_view]. }
  intros _. apply session_bind.
  { destruct (decide (action = js "get"));
      [apply (session_flow env key Get)
      | apply session_keeps_view; auto with keeps_view]. }
  intros _. apply session_bind.
  { destruct (decide (action = js "delete"));
      [apply (session_flow env key Delete)
      | apply session_keeps_view; auto with keeps_view]. }
  intros _. apply session_bind; [| intros _; exact IH].
  destruct (decide (action = js "exit")); apply session_keeps_view;
    auto with keeps_view.
Qed.

Lemma session_same_key (env : Env) (key : buffer) (w : World) :
  session env key w -> oracle w = env /\ masterKey w = key.
Proof.
  intros Hs.
  destruct (session_view env key w (fun _ => True) (fun _ _ _ _ => I)
              (fun _ _ _ _ _ _ => I) Hs) as (Ho & Hk & _).
  auto.
Qed.

(** X20.  A run of the menu, with any answers and however it ends,
    started in a world of a session ends in a world of that session:
    the flows and the menu never assign the master key, and what they do
    to the store keeps the properties of a session. *)
Theorem mainMenu_session (env : Env) (key : buffer) (fuel : nat) (w : World) :
  session env key w ->
  session env key (snd (mainMenu fuel w))
  /\ masterKey (snd (mainMenu fuel w)) = masterKey w
  /\ oracle (snd (mainMenu fuel w)) = oracle w.
Proof.
  intros Hw.
  pose proof (mainMenu_in_session env key fuel w Hw) as Hs.
  split; [exact Hs |].
  destruct (session_same_key env key _ Hs) as [Ho' Hk'].
  destruct (session_same_key env key _ Hw) as [Ho Hk].
  split; congruence.
Qed.

(** ** Writes of the store file *)

Lemma count_writes_app (a b : list Event) :
  count_writes (a ++ b) = (count_writes a + count_writes b)%nat.
Proof. unfold count_writes. rewrite list.filter_app, length_app. reflexivity. Qed.

Lemma count_writes_draws (k : nat) : count_writes (replicate k EvMathRandom) = 0%nat.
Proof. induction k as [| k IH]; [reflexivity | exact IH]. Qed.

Lemma writes_le_mono {A} (n n' : nat) (m : M A) :
  (n <= n')%nat -> writes_le n m -> writes_le n' m.
Proof.
  intros Hle Hm w Hw. destruct (Hm w Hw) as (Hs & evs & Htr & Hn).
  split; [exact Hs |]. exists evs. split; [exact Htr | lia].
Qed.

Lemma writes_le_bind {A B} (n1 n2 : nat) (m : M A) (k : A -> M B) :
  writes_le n1 m -> (forall a, writes_le n2 (k a)) -> writes_le (n1 + n2) (m ≫= k).
Proof.
  intros Hm Hk w Hw. destruct (Hm w Hw) as (Hs & evs & Htr & Hn).
  unfold mbind, M_bind.
  destruct (m w) as [[a | e | c |] w']; cbn [snd] in *;
    try (split; [exact Hs |]; exists evs; split; [exact Htr | lia]).
  destruct (Hk a w' Hs) as (Hs' & evs' & Htr' & Hn').
  split; [exact Hs' |]. exists (evs ++ evs'). split.
  - rewrite Htr', Htr, app_assoc. reflexivity.
  - rewrite count_writes_app. lia.
Qed.

Lemma writes_le_quiet {A} (r : Outcome A) : writes_le 0 (fun w => (r, w)).
Proof.
  intros w Hw. split; [exact Hw |]. exists []. rewrite app_nil_r. auto.
Qed.

Lemma writes_le_ret {A} (a : A) : writes_le 0 (mret a).
Proof. apply (writes_le_quiet (Return a)). Qed.

Lemma writes_le_throw {A} (e : Error) : writes_le 0 (@throw A e).
Proof. apply (writes_le_quiet (Throw e)). Qed.

Lemma writes_le_process_exit {A} (c : Z) : writes_le 0 (@process_exit A c).
Proof. apply (writes_le_quiet (Exit c)). Qed.

Lemma writes_le_pending {A} : writes_le 0 (@pending A).
Proof. apply (writes_le_quiet Pending). Qed.

Lemma writes_le_lift {A} (r : result A) : writes_le 0 (lift r).
Proof. destruct r; [apply writes_le_ret | apply writes_le_throw]. Qed.

Lemma writes_le_get_masterKey : writes_le 0 get_masterKey.
Proof. intros w Hw. split; [exact Hw |]. exists []. rewrite app_nil_r. auto. Qed.

Lemma writes_le_randomBytes (n : nat) : writes_le 0 (randomBytes n).
Proof. intros w Hw. split; [exact Hw |]. exists [EvRandomBytes n]. auto. Qed.

Lemma writes_le_randomUUID : writes_le 0 randomUUID.
Proof. intros w Hw. split; [exact Hw |]. exists [EvRandomUUID]. auto. Qed.

Lemma writes_le_Date_toISOString : writes_le 0 Date_toISOString.
Proof. intros w Hw. split; [exact Hw |]. exists [EvDate]. auto. Qed.

Lemma writes_le_console_log (m : Message) : writes_le 0 (console_log m).
Proof. intros w Hw. split; [exact Hw |]. exists [EvLog m]. auto. Qed.

Lemma writes_le_prompt (p : Prompt) : writes_le 0 (prompt p).
Proof. intros w Hw. split; [exact Hw |]. exists [EvPrompt p]. auto. Qed.

(** Where the file exists, [loadStore] only reads it. *)
Lemma writes_le_loadStore : writes_le 0 loadStore.
Proof.
  intros w Hw. unfold loadStore. destruct (store_file w) as [st |] eqn:Hst.
  - cbn [snd]. rewrite Hst. split; [exact Hw |]. exists []. rewrite app_nil_r. auto.
  - destruct Hw as [st Hw]. discriminate.
Qed.

Lemma writes_le_saveStore (s : Store) : writes_le 1 (saveStore s).
Proof.
  intros w Hw. split; [eexists; reflexivity |]. exists [EvWriteStore s]. auto.
Qed.

Lemma writes_le_generatePassword (length : Z) : writes_le 0 (generatePassword length).
Proof.
  intros w Hw.
  destruct (generatePassword_spec length w)
    as (pwd & w' & -> & _ & _ & _ & _ & _ & _ & ->).
  cbn [snd]. autorewrite with world. split; [exact Hw |].
  eexists. split; [reflexivity |]. rewrite count_writes_draws. lia.
Qed.

Create HintDb writes discriminated.
#[local] Hint Resolve writes_le_ret writes_le_throw writes_le_process_exit
  writes_le_pending writes_le_lift writes_le_get_masterKey writes_le_randomBytes
  writes_le_randomUUID writes_le_Date_toISOString writes_le_console_log
  writes_le_prompt writes_le_loadStore writes_le_generatePassword : writes.

Ltac writes_step :=
  match goal with
  | |- writes_le 0 (_ ≫= _) => apply (writes_le_bind 0 0); [| intros ?]
  | |- writes_le 1 (saveStore _ ≫= _) =>
      apply (writes_le_bind 1 0); [apply writes_le_saveStore | intros ?]
  | |- writes_le 1 (_ ≫= _) => apply (writes_le_bind 0 1); [| intros ?]
  | |- writes_le _ (match ?x with _ => _ end) => destruct x
  | |- writes_le _ (if ?b then _ else _) => destruct b
  | |- writes_le 0 _ => solve [auto with writes]
  | |- writes_le 1 _ => apply (writes_le_mono 0 1); [lia |]
  end.

Lemma writes_le_showDeprecated : writes_le 0 showDeprecated.
Proof.
  unfold showDeprecated, prompt_list, pause, prompt_confirm. cbv zeta.
  repeat writes_step.
Qed.

Lemma writes_le_run_flow (f : Flow) : writes_le 1 (run_flow f).
Proof.
  destruct f; cbn [run_flow];
    unfold generateFlow, getFlow, getFlow_catch, getFlow_regen, deleteFlow,
      deprecateEntry, encryptText, prompt_list, prompt_input, pause, prompt_confirm;
    cbv zeta; repeat writes_step; apply writes_le_showDeprecated.
Qed.

(** X21.  Where the store file exists, a flow writes it at most once,
    whatever the user answers and however the flow ends, and
    [showDeprecated] never writes it: everything else a flow does is
    reading, printing and prompting. *)
Theorem flows_write_at_most_once (f : Flow) (w : World) :
  is_Some (store_file w) ->
  (exists evs,
      trace (snd (run_flow f w)) = trace w ++ evs /\ (count_writes evs <= 1)%nat)
  /\ (exists evs,
        trace (snd (showDeprecated w)) = trace w ++ evs /\ count_writes evs = 0%nat
        /\ store_file (snd (showDeprecated w)) = store_file w).
Proof.
  intros Hw. split.
  - apply (writes_le_run_flow f w Hw).
  - destruct (writes_le_showDeprecated w Hw) as (_ & evs & Htr & Hn).
    exists evs. split; [exact Htr |]. split; [lia |].
    destruct Hw as [st Hw]. unfold showDeprecated.
    step (loadStore_existing w st Hw).
    match goal with
    | |- store_file (snd (?m w)) = _ =>
        assert (Hfr : frames m) by (cbv beta zeta; repeat frames_step)
    end.
    apply Hfr.
Qed.

Lemma flows_write_at_most_once_witness :
  exists evs,
    trace (snd (run_flow Get (sample_world [Choose 1; Choose 0] (Some sample_store))))
    = evs /\ (count_writes evs <= 1)%nat.
Proof.
  destruct (flows_write_at_most_once Get
              (sample_world [Choose 1; Choose 0] (Some sample_store)))
    as [(evs & Htr & Hn) _].
  - eexists. reflexivity.
  - exists evs. split; [exact Htr | exact Hn].
Defined.

(** ** Base64 *)

Lemma base64_digit_spec (d : Z) :
  0 <= d < 64 ->
  base64_value (base64_digit d) = Some d
  /\ base64_digit d <> EQUALS
  /\ 0 <= base64_digit d < 256.
Proof.
  intros Hd. rewrite <- (Z2Nat.id d) by lia.
  assert (Hn : (Z.to_nat d < 64)%nat) by lia.
  revert Hn. generalize (Z.to_nat d). intros n Hn.
  do 64 (destruct n as [| n]; [vm_compute; repeat split; congruence |]).
  lia.
Qed.

Lemma base64_sextets_digit (d : Z) (r : jsstring) :
  0 <= d < 64 ->
  base64_sextets (base64_digit d :: r) = d :: base64_sextets r.
Proof.
  intros Hd. destruct (base64_digit_spec d Hd) as (Hv & Hne & Hr).
  cbn [base64_sextets]. rewrite Z.mod_small by exact Hr.
  destruct (Z.eqb_spec (base64_digit d) EQUALS); [contradiction |].
  rewrite Hv. reflexivity.
Qed.

Lemma base64_sextets_equals (r : jsstring) : base64_sextets (EQUALS :: r) = [].
Proof. reflexivity. Qed.

Lemma from_base64_toString_base64_upto (n : nat) (b : buffer) :
  (length b <= n)%nat -> is_bytes b -> from_base64 (toString_base64 b) = b.
Proof.
  unfold from_base64, is_bytes.
  revert b. induction n as [| n IH]; intros b Hlen Hb.
  { destruct b; [reflexivity | cbn [length] in Hlen; lia]. }
  destruct b as [| x [| y [| z r]]]; [reflexivity | | |].
  - apply Forall_cons_iff in Hb as [Hx _]. unfold is_byte in Hx.
    cbn [toString_base64].
    rewrite !base64_sextets_digit, base64_sextets_equals by zlia.
    cbn [base64_bytes]. f_equal. zlia.
  - apply Forall_cons_iff in Hb as [Hx Hb]. apply Forall_cons_iff in Hb as [Hy _].
    unfold is_byte in Hx, Hy. cbn [toString_base64].
    rewrite !base64_sextets_digit, base64_sextets_equals by zlia.
    cbn [base64_bytes]. f_equal; [| f_equal]; zlia.
  - apply Forall_cons_iff in Hb as [Hx Hb]. apply Forall_cons_iff in Hb as [Hy Hb].
    apply Forall_cons_iff in Hb as [Hz Hr].
    unfold is_byte in Hx, Hy, Hz. cbn [toString_base64].
    rewrite !base64_sextets_digit by zlia.
    cbn [base64_bytes]. rewrite IH by (cbn [length] in Hlen; assumption || lia).
    f_equal; [| f_equal; [| f_equal]]; zlia.
Qed.

(** Decoding what was encoded gives the bytes back. *)
Lemma from_base64_toString_base64 (b : buffer) :
  is_bytes b -> from_base64 (toString_base64 b) = b.
Proof. apply (from_base64_toString_base64_upto (length b)). lia. Qed.

Example base64_samples :
  toString_base64 (utf8_encode (js "Man")) = js "TWFu"
  /\ toString_base64 (utf8_encode (js "light w")) = js "bGlnaHQgdw=="
  /\ toString_base64 (utf8_encode (js "light wo")) = js "bGlnaHQgd28="
  /\ from_base64 (js "bGlnaHQgd28=") = utf8_encode (js "light wo")
  /\ from_base64 (js "bGln aHQg%d28") = utf8_encode (js "light wo")
  /\ from_base64 (js "_-8=TWFu") = [255; 239].
Proof. repeat split; vm_compute; reflexivity. Qed.

(** ** Running the start-up code *)

Lemma sbind_Done {A B} (m : Startup A) (k : A -> Startup B) (s s' : Machine) (a : A) :
  m s = (Done a, s') -> (m ≫= k) s = k a s'.
Proof. intros H. unfold mbind, Startup_bind. rewrite H. reflexivity. Qed.

Lemma config_file_tell ev s : config_file (tell ev s) = config_file s.
Proof. reflexivity. Qed.
Lemma console_tell ev s : console (tell ev s) = console s ++ [ev].
Proof. reflexivity. Qed.
Lemma world_tell ev s : world (tell ev s) = world s.
Proof. reflexivity. Qed.
Lemma config_file_set_world w s : config_file (set_world w s) = config_file s.
Proof. reflexivity. Qed.
Lemma console_set_world w s : console (set_world w s) = console s.
Proof. reflexivity. Qed.
Lemma world_set_world w s : world (set_world w s) = w.
Proof. reflexivity. Qed.
Lemma config_file_set_config_file c s : config_file (set_config_file c s) = Some c.
Proof. reflexivity. Qed.
Lemma console_set_config_file c s : console (set_config_file c s) = console s.
Proof. reflexivity. Qed.
Lemma world_set_config_file c s : world (set_config_file c s) = world s.
Proof. reflexivity. Qed.

Lemma oracle_set_masterKey key w : oracle (set_masterKey key w) = oracle w.
Proof. reflexivity. Qed.
Lemma masterKey_set_masterKey key w : masterKey (set_masterKey key w) = key.
Proof. reflexivity. Qed.
Lemma store_file_set_masterKey key w : store_file (set_masterKey key w) = store_file w.
Proof. reflexivity. Qed.
Lemma cursor_set_masterKey key w : cursor (set_masterKey key w) = cursor w.
Proof. reflexivity. Qed.
Lemma trace_set_masterKey key w : trace (set_masterKey key w) = trace w.
Proof. reflexivity. Qed.

Create Rewrite HintDb machine.
#[local] Hint Rewrite config_file_tell console_tell world_tell config_file_set_world
  console_set_world world_set_world config_file_set_config_file
  console_set_config_file world_set_config_file
  oracle_set_masterKey masterKey_set_masterKey store_file_set_masterKey
  cursor_set_masterKey trace_set_masterKey : machine.

Lemma Machine_eq (s s' : Machine) :
  config_file s = config_file s' -> console s = console s' -> world s = world s' ->
  s = s'.
Proof. destruct s, s'. cbn. intros -> -> ->. reflexivity. Qed.

Lemma prompt_password_run (message : jsstring) (validate : jsstring -> bool)
    (s : Machine) (v : jsstring) :
  next_answer (world s) 0 = Text v -> validate v = true ->
  prompt_password message validate s
  = (Done v, tell (SvPassword message) (set_world (advance SrcUser 1 (world s)) s)).
Proof. intros Ha Hv. unfold prompt_password. rewrite Ha, Hv. reflexivity. Qed.

Lemma loadConfig_run (s : Machine) (cfg : Config) :
  config_file s = Some cfg -> loadConfig s = (Done cfg, s).
Proof. intros H. unfold loadConfig. rewrite H. reflexivity. Qed.

Lemma run_randomBytes (n : nat) (s : Machine) :
  run (randomBytes n) s
  = (Done (map (fun k => next_byte (world s) k mod 256) (seq 0 n)),
     set_world (emit (EvRandomBytes n) (advance SrcRandomBytes n (world s))) s).
Proof. reflexivity. Qed.

Ltac sstep H := rewrite (sbind_Done _ _ _ _ _ H).

(** ** [initSetup], [initAuth] and [initEncryptionKey] *)

Lemma next_key_spec (w : World) : length (next_key w) = 32%nat /\ is_bytes (next_key w).
Proof.
  unfold next_key. split.
  - rewrite length_map, length_seq. reflexivity.
  - apply Forall_map, Forall_forall. intros i _. unfold is_byte.
    apply Z.mod_pos_bound. lia.
Qed.

Lemma next_key_advance_user (w : World) :
  next_key (advance SrcUser 1 w) = next_key w.
Proof. reflexivity. Qed.

Lemma initSetup_run (s : Machine) (p : jsstring) :
  next_answer (world s) 0 = Text p ->
  trim p <> [] ->
  next_answer (world s) 1 = Text p ->
  initSetup s
  = (Done tt,
     {| config_file := Some (fresh_config (world s) p);
        console := console s ++ setup_console (fresh_config (world s) p);
        world := after_setup (world s) |}).
Proof.
  intros Hp Hvalid Hc. unfold initSetup.
  erewrite sbind_Done by reflexivity.
  erewrite sbind_Done.
  2:{ apply prompt_password_run; [exact Hp | apply bool_decide_eq_true; exact Hvalid]. }
  erewrite sbind_Done.
  2:{ apply prompt_password_run.
      - autorewrite with machine. rewrite next_answer_advance_user. exact Hc.
      - apply bool_decide_eq_true. reflexivity. }
  erewrite sbind_Done by apply run_randomBytes.
  cbv zeta.
  erewrite sbind_Done by reflexivity.
  erewrite sbind_Done by reflexivity.
  erewrite sbind_Done by reflexivity.
  unfold console_log_notice. f_equal.
  apply Machine_eq; autorewrite with machine; cbn [config_file console world].
  - reflexivity.
  - unfold setup_console, fresh_config. cbn [encryptionKey].
    rewrite <- !app_assoc. reflexivity.
  - reflexivity.
Qed.

Lemma initEncryptionKey_run (s : Machine) (cfg : Config) :
  config_file s = Some cfg ->
  initEncryptionKey s
  = if decide (length (from_base64 (encryptionKey cfg)) = 32%nat)
    then (Done tt, set_world (set_masterKey (from_base64 (encryptionKey cfg)) (world s)) s)
    else (Exited 1, tell (SvError NoticeInvalidKeyLength) s).
Proof.
  intros Hcfg. unfold initEncryptionKey. sstep (loadConfig_run s cfg Hcfg). cbv zeta.
  destruct (decide (length (from_base64 (encryptionKey cfg)) = 32%nat)) as [Hlen | Hlen].
  - rewrite decide_False by auto. reflexivity.
  - rewrite decide_True by exact Hlen. reflexivity.
Qed.

(** X22.  The key that [initSetup] writes is accepted by
    [initEncryptionKey]: once the password has been typed twice,
    [initSetup] writes a configuration with that password and the base64
    form of 32 bytes drawn from [crypto.randomBytes], and
    [initEncryptionKey], run on that configuration, decodes exactly
    those 32 bytes and makes them the master key. *)
Theorem initSetup_key_is_accepted (s : Machine) (p : jsstring) :
  next_answer (world s) 0 = Text p ->
  trim p <> [] ->
  next_answer (world s) 1 = Text p ->
  exists s1 s2,
    initSetup s = (Done tt, s1)
    /\ config_file s1 = Some (fresh_config (world s) p)
    /\ console s1 = console s ++ setup_console (fresh_config (world s) p)
    /\ store_file (world s1) = store_file (world s)
    /\ initEncryptionKey s1 = (Done tt, s2)
    /\ masterKey (world s2) = next_key (world s)
    /\ length (masterKey (world s2)) = 32%nat
    /\ from_base64 (encryptionKey (fresh_config (world s) p)) = next_key (world s).
Proof.
  intros Hp Hvalid Hc.
  destruct (next_key_spec (world s)) as [Hlen Hbytes].
  assert (Hrt : from_base64 (encryptionKey (fresh_config (world s) p)) = next_key (world s))
    by (apply from_base64_toString_base64, Hbytes).
  set (s1 := {| config_file := Some (fresh_config (world s) p);
                console := console s ++ setup_console (fresh_config (world s) p);
                world := after_setup (world s) |}).
  exists s1, (set_world (set_masterKey (next_key (world s)) (world s1)) s1).
  split; [apply (initSetup_run s p Hp Hvalid Hc) |].
  split; [reflexivity |]. split; [reflexivity |]. split; [reflexivity |].
  split.
  { rewrite (initEncryptionKey_run s1 (fresh_config (world s) p) eq_refl).
    rewrite Hrt, decide_True by exact Hlen. reflexivity. }
  autorewrite with machine. auto.
Qed.

(** ** The start-up sequence *)

Lemma startup_init (args : list jsstring) (fuel : nat) (s : Machine) :
  args !! 0%nat = Some (js "init") ->
  startup args fuel s = (initSetup;; startup_exit 0) s.
Proof.
  intros Hinit. unfold startup. rewrite decide_True by exact Hinit.
  unfold mbind, Startup_bind, startup_exit.
  destruct (initSetup s) as [[[] | f | c |] s']; reflexivity.
Qed.

Lemma startup_no_init (args : list jsstring) (fuel : nat) (s : Machine) :
  args !! 0%nat <> Some (js "init") ->
  startup args fuel s
  = ((if bool_decide (is_Some (config_file s)) then mret tt
      else console_log_notice NoticeNoConfig;; initSetup);;
     initAuth;;
     initEncryptionKey;;
     run (mainMenu fuel)) s.
Proof.
  intros Hinit. unfold startup. rewrite decide_False by exact Hinit.
  erewrite sbind_Done by reflexivity.
  erewrite sbind_Done by reflexivity. reflexivity.
Qed.

Lemma startup_with_config (args : list jsstring) (fuel : nat) (s : Machine) (cfg : Config) :
  args !! 0%nat <> Some (js "init") ->
  config_file s = Some cfg ->
  startup args fuel s = (initAuth;; initEncryptionKey;; run (mainMenu fuel)) s.
Proof.
  intros Hinit Hcfg. rewrite startup_no_init by exact Hinit.
  rewrite bool_decide_eq_true_2 by (rewrite Hcfg; eauto).
  erewrite sbind_Done by reflexivity. reflexivity.
Qed.

Lemma initAuth_run (s : Machine) (cfg : Config) (pwd : jsstring) :
  config_file s = Some cfg ->
  next_answer (world s) 0 = Text pwd ->
  initAuth s
  = if decide (pwd = appPassword cfg)
    then (Done tt, tell ENTER_PASSWORD (set_world (advance SrcUser 1 (world s)) s))
    else (Exited 1,
          tell (SvError NoticeInvalidPassword)
            (tell ENTER_PASSWORD (set_world (advance SrcUser 1 (world s)) s))).
Proof.
  intros Hcfg Hpwd. unfold initAuth. sstep (loadConfig_run s cfg Hcfg).
  erewrite sbind_Done by (apply prompt_password_run; [exact Hpwd | reflexivity]).
  destruct (decide (pwd = appPassword cfg)) as [Heq | Hne].
  - rewrite decide_False by auto. reflexivity.
  - rewrite decide_True by exact Hne. reflexivity.
Qed.

(** X23.  With a configuration in place, a password that is not exactly
    the configured one ends the program with exit code 1 right after the
    prompt: the error is printed, the key is not read, no menu is shown,
    and the store file, the master key and the configuration are as
    they were. *)
Theorem startup_wrong_password (args : list jsstring) (fuel : nat) (s : Machine)
    (cfg : Config) (pwd : jsstring) :
  args !! 0%nat <> Some (js "init") ->
  config_file s = Some cfg ->
  next_answer (world s) 0 = Text pwd ->
  pwd <> appPassword cfg ->
  startup args fuel s
  = (Exited 1,
     {| config_file := Some cfg;
        console := console s ++ [ENTER_PASSWORD; SvError NoticeInvalidPassword];
        world := advance SrcUser 1 (world s) |}).
Proof.
  intros Hinit Hcfg Hpwd Hne.
  rewrite (startup_with_config args fuel s cfg Hinit Hcfg).
  unfold mbind, Startup_bind.
  rewrite (initAuth_run s cfg pwd Hcfg Hpwd), decide_False by exact Hne.
  f_equal. apply Machine_eq; autorewrite with machine; cbn [config_file console world].
  - exact Hcfg.
  - rewrite <- !app_assoc. reflexivity.
  - reflexivity.
Qed.

(** X24.  With the right password but a configured key that does not
    decode to 32 bytes, the program prints the key-length error and ends
    with exit code 1: the master key is not assigned and no menu is
    shown.  With a key that decodes to 32 bytes the menu runs under
    exactly those bytes. *)
Theorem startup_checks_the_key_length (args : list jsstring) (fuel : nat) (s : Machine)
    (cfg : Config) :
  args !! 0%nat <> Some (js "init") ->
  config_file s = Some cfg ->
  next_answer (world s) 0 = Text (appPassword cfg) ->
  let key := from_base64 (encryptionKey cfg) in
  let s1 := tell ENTER_PASSWORD (set_world (advance SrcUser 1 (world s)) s) in
  (length key <> 32%nat ->
   startup args fuel s = (Exited 1, tell (SvError NoticeInvalidKeyLength) s1))
  /\ (length key = 32%nat ->
      startup args fuel s
      = run (mainMenu fuel) (set_world (set_masterKey key (world s1)) s1)).
Proof.
  intros Hinit Hcfg Hpwd key s1.
  rewrite (startup_with_config args fuel s cfg Hinit Hcfg).
  assert (Hauth : initAuth s = (Done tt, s1)).
  { rewrite (initAuth_run s cfg _ Hcfg Hpwd), decide_True by reflexivity. reflexivity. }
  sstep Hauth.
  assert (Hcfg1 : config_file s1 = Some cfg) by exact Hcfg.
  split; intros Hlen.
  - unfold mbind, Startup_bind.
    rewrite (initEncryptionKey_run s1 cfg Hcfg1). fold key.
    rewrite decide_False by exact Hlen. reflexivity.
  - erewrite sbind_Done; [reflexivity |].
    rewrite (initEncryptionKey_run s1 cfg Hcfg1). fold key.
    rewrite decide_True by exact Hlen. reflexivity.
Qed.

(** X25.  On the first run, when there is no configuration, the program
    says so and runs the setup, then asks for the password again; typed
    a third time, it starts the menu under the 32 bytes that the setup
    drew, with a configuration that holds the password and the base64
    form of those bytes.  The store file is not touched on the way. *)
Theorem startup_first_run (args : list jsstring) (fuel : nat) (s : Machine)
    (p : jsstring) :
  args !! 0%nat <> Some (js "init") ->
  config_file s = None ->
  next_answer (world s) 0 = Text p ->
  trim p <> [] ->
  next_answer (world s) 1 = Text p ->
  next_answer (world s) 2 = Text p ->
  let cfg := fresh_config (world s) p in
  exists s1,
    startup args fuel s = run (mainMenu fuel) s1
    /\ config_file s1 = Some cfg
    /\ console s1
       = console s ++ SvLog NoticeNoConfig :: setup_console cfg ++ [ENTER_PASSWORD]
    /\ masterKey (world s1) = next_key (world s)
    /\ length (masterKey (world s1)) = 32%nat
    /\ store_file (world s1) = store_file (world s)
    /\ trace (world s1) = trace (world s) ++ [EvRandomBytes 32].
Proof.
  intros Hinit Hnone Hp Hvalid Hc Hauth cfg.
  destruct (next_key_spec (world s)) as [Hlen Hbytes].
  assert (Hrt : from_base64 (encryptionKey cfg) = next_key (world s))
    by (apply from_base64_toString_base64, Hbytes).
  rewrite startup_no_init by exact Hinit.
  rewrite bool_decide_eq_false_2 by (rewrite Hnone; intros [c Hc']; discriminate).
  set (s0 := tell (SvLog NoticeNoConfig) s).
  set (sA := {| config_file := Some cfg;
                console := console s0 ++ setup_console cfg;
                world := after_setup (world s) |}).
  assert (Hsetup : (console_log_notice NoticeNoConfig;; initSetup) s = (Done tt, sA)).
  { erewrite sbind_Done by reflexivity.
    apply (initSetup_run s0 p Hp Hvalid Hc). }
  sstep Hsetup.
  set (sB := tell ENTER_PASSWORD (set_world (advance SrcUser 1 (world sA)) sA)).
  assert (Hpass : initAuth sA = (Done tt, sB)).
  { rewrite (initAuth_run sA cfg p eq_refl).
    - rewrite decide_True by reflexivity. reflexivity.
    - cbn [world sA]. unfold after_setup.
      rewrite next_answer_emit.
      unfold next_answer. autorewrite with world.
      unfold next_answer in Hauth. exact Hauth. }
  sstep Hpass.
  erewrite sbind_Done.
  2:{ rewrite (initEncryptionKey_run sB cfg eq_refl).
      rewrite Hrt, decide_True by exact Hlen. reflexivity. }
  eexists. split; [reflexivity |].
  unfold sB, sA, s0. autorewrite with machine. cbn [config_file console world].
  autorewrite with machine. unfold after_setup. autorewrite with world.
  split; [reflexivity |].
  split; [rewrite <- !app_assoc; reflexivity |].
  auto.
Qed.

(** X26.  [passwdm init] runs the setup and ends with exit code 0,
    whether or not a configuration exists: it asks for the new password
    twice and never for the old one, replaces the configuration --
    password and key -- and shows no menu; the store file and the master
    key are not touched. *)
Theorem startup_init_replaces_the_configuration (args : list jsstring) (fuel : nat)
    (s : Machine) (p : jsstring) :
  args !! 0%nat = Some (js "init") ->
  next_answer (world s) 0 = Text p ->
  trim p <> [] ->
  next_answer (world s) 1 = Text p ->
  let cfg := fresh_config (world s) p in
  startup args fuel s
  = (Exited 0,
     {| config_file := Some cfg;
        console := console s ++ setup_console cfg;
        world := after_setup (world s) |})
  /\ store_file (after_setup (world s)) = store_file (world s)
  /\ masterKey (after_setup (world s)) = masterKey (world s)
  /\ trace (after_setup (world s)) = trace (world s) ++ [EvRandomBytes 32].
Proof.
  intros Hinit Hp Hvalid Hc cfg. split; [| auto].
  rewrite (startup_init args fuel s Hinit).
  sstep (initSetup_run s p Hp Hvalid Hc). reflexivity.
Qed.

(** ** No menu without the password and a key *)

Lemma before_menu_refl (s : Machine) : before_menu s s.
Proof.
  unfold before_menu. split; [reflexivity |]. split; [reflexivity |].
  split; [reflexivity |]. exists 0%nat. rewrite app_nil_r. reflexivity.
Qed.

Lemma before_menu_trans (s1 s2 s3 : Machine) :
  before_menu s1 s2 -> before_menu s2 s3 -> before_menu s1 s3.
Proof.
  intros (Ho & Hs & Hk & n & Ht) (Ho' & Hs' & Hk' & n' & Ht').
  unfold before_menu. split; [congruence |]. split; [congruence |].
  split; [congruence |]. exists (n + n')%nat.
  rewrite Ht', Ht, <- app_assoc, replicate_add. reflexivity.
Qed.

Lemma before_menu_world (s s' : Machine) :
  world s' = world s -> before_menu s s'.
Proof.
  intros H. unfold before_menu. rewrite H. split; [reflexivity |].
  split; [reflexivity |]. split; [reflexivity |].
  exists 0%nat. rewrite app_nil_r. reflexivity.
Qed.

Lemma before_menu_prompt (s : Machine) (ev : StartupEvent) :
  before_menu s (tell ev (set_world (advance SrcUser 1 (world s)) s)).
Proof.
  unfold before_menu. autorewrite with machine world.
  split; [reflexivity |]. split; [reflexivity |]. split; [reflexivity |].
  exists 0%nat. rewrite app_nil_r. reflexivity.
Qed.

Lemma prompt_password_before_menu (message : jsstring) (validate : jsstring -> bool)
    (s : Machine) :
  before_menu s (snd (prompt_password message validate s))
  /\ config_file (snd (prompt_password message validate s)) = config_file s
  /\ (forall v, fst (prompt_password message validate s) = Done v ->
        next_answer (world s) 0 = Text v)
  /\ (fst (prompt_password message validate s) = Waiting
      \/ exists v, fst (prompt_password message validate s) = Done v).
Proof.
  unfold prompt_password.
  destruct (next_answer (world s) 0) as [k | v | b]; [| destruct (validate v) |];
    cbn [fst snd];
    (split; [apply before_menu_prompt |]); (split; [reflexivity |]);
    (split; [intros v' [= <-]; reflexivity || discriminate | eauto]).
Qed.

(** What [initSetup] can do: wait for an answer, or return with a
    configuration written. *)
Lemma initSetup_before_menu (s : Machine) :
  before_menu s (snd (initSetup s))
  /\ (fst (initSetup s) = Waiting
      \/ fst (initSetup s) = Done tt /\ is_Some (config_file (snd (initSetup s)))).
Proof.
  cut (exists r, initSetup s = r
                 /\ before_menu s (snd r)
                 /\ (fst r = Waiting
                     \/ fst r = Done tt /\ is_Some (config_file (snd r)))).
  { intros (r & -> & H). exact H. }
  unfold initSetup.
  erewrite sbind_Done by reflexivity.
  set (s0 := tell (SvLog NoticeInitializing) s).
  assert (H0 : before_menu s s0) by (apply before_menu_world; reflexivity).
  destruct (prompt_password_before_menu (js "Set application access password:")
              (fun v => bool_decide (trim v ≠ [])) s0) as (H1 & _ & _ & Hr1).
  unfold mbind at 1, Startup_bind at 1.
  destruct (prompt_password _ _ s0) as [[password | f | c |] s1]; cbn [fst snd] in *;
    try (destruct Hr1 as [Hr1 | [v Hr1]]; discriminate).
  2:{ eexists. split; [reflexivity |]. cbn [fst snd].
      split; [eapply before_menu_trans; [exact H0 | exact H1] | auto]. }
  destruct (prompt_password_before_menu (js "Confirm password:")
              (fun v => bool_decide (v = password)) s1) as (H2 & _ & _ & Hr2).
  unfold mbind at 1, Startup_bind at 1.
  destruct (prompt_password _ _ s1) as [[confirm | f | c |] s2]; cbn [fst snd] in *;
    try (destruct Hr2 as [Hr2 | [v Hr2]]; discriminate).
  2:{ eexists. split; [reflexivity |]. cbn [fst snd].
      split; [| auto].
      eapply before_menu_trans; [exact H0 |]. eapply before_menu_trans; [exact H1 | exact H2]. }
  erewrite sbind_Done by apply run_randomBytes. cbv zeta.
  erewrite sbind_Done by reflexivity.
  erewrite sbind_Done by reflexivity.
  erewrite sbind_Done by reflexivity.
  unfold console_log_notice. eexists. split; [reflexivity |]. cbn [fst snd].
  split; [| right; split; [reflexivity |]].
  - eapply before_menu_trans; [exact H0 |].
    eapply before_menu_trans; [exact H1 |].
    eapply before_menu_trans; [exact H2 |].
    unfold before_menu. autorewrite with machine world.
    split; [reflexivity |]. split; [reflexivity |]. split; [reflexivity |].
    exists 1%nat. reflexivity.
  - autorewrite with machine. eauto.
Qed.

Lemma initAuth_before_menu (s : Machine) :
  before_menu s (snd (initAuth s))
  /\ config_file (snd (initAuth s)) = config_file s
  /\ ((forall a, fst (initAuth s) <> Done a)
      \/ exists cfg,
           config_file s = Some cfg
           /\ next_answer (world s) 0 = Text (appPassword cfg)).
Proof.
  cut (exists r, initAuth s = r
                 /\ before_menu s (snd r)
                 /\ config_file (snd r) = config_file s
                 /\ ((forall a, fst r <> Done a)
                     \/ exists cfg,
                          config_file s = Some cfg
                          /\ next_answer (world s) 0 = Text (appPassword cfg))).
  { intros (r & -> & H). exact H. }
  unfold initAuth.
  destruct (config_file s) as [cfg |] eqn:Hcfg.
  2:{ unfold mbind, Startup_bind, loadConfig. rewrite Hcfg.
      eexists. split; [reflexivity |]. cbn [fst snd].
      split; [apply before_menu_refl |]. split; [exact Hcfg |]. left. discriminate. }
  sstep (loadConfig_run s cfg Hcfg).
  destruct (prompt_password_before_menu (js "Enter application access password:")
              (fun _ => true) s) as (H1 & Hc1 & Ha1 & Hr1).
  unfold mbind at 1, Startup_bind at 1.
  destruct (prompt_password _ _ s) as [[pwd | f | c |] s1]; cbn [fst snd] in *;
    try (destruct Hr1 as [Hr1 | [v Hr1]]; discriminate).
  2:{ eexists. split; [reflexivity |]. cbn [fst snd].
      split; [exact H1 |]. split; [congruence | left; discriminate]. }
  destruct (decide (pwd ≠ appPassword cfg)) as [Hne | Heq].
  - erewrite sbind_Done by reflexivity. unfold startup_exit.
    eexists. split; [reflexivity |]. cbn [fst snd].
    split; [| split; [autorewrite with machine; congruence | left; discriminate]].
    eapply before_menu_trans; [exact H1 |]. apply before_menu_world. reflexivity.
  - eexists. split; [reflexivity |]. cbn [fst snd mret Startup_ret].
    split; [exact H1 |]. split; [congruence |]. right. exists cfg.
    split; [reflexivity |]. rewrite (Ha1 pwd eq_refl).
    f_equal. destruct (decide (pwd = appPassword cfg)) as [E | E]; [exact E |].
    contradiction.
Qed.

(** When [initAuth] returns, the answer it read is the configured
    password, and the machine has changed by that prompt only. *)
Lemma initAuth_Done (s s' : Machine) :
  initAuth s = (Done tt, s') ->
  exists cfg,
    config_file s = Some cfg
    /\ next_answer (world s) 0 = Text (appPassword cfg)
    /\ s' = tell ENTER_PASSWORD (set_world (advance SrcUser 1 (world s)) s).
Proof.
  unfold initAuth, mbind, Startup_bind, loadConfig, prompt_password.
  destruct (config_file s) as [cfg |]; [| discriminate].
  destruct (next_answer (world s) 0) as [k | v | b]; try discriminate.
  destruct (decide (v ≠ appPassword cfg)) as [Hne | Heq]; [discriminate |].
  intros [= <-]. exists cfg. split; [reflexivity |]. split; [| reflexivity].
  f_equal. destruct (decide (v = appPassword cfg)) as [E | E]; [exact E |].
  contradiction.
Qed.

(** From the password prompt on: the menu starts in [unlocked s cfg],
    after the configured password was typed at the prompt and the key
    decoded to 32 bytes; or the program ends, or waits, before the
    menu. *)
Lemma initAuth_cases (fuel : nat) (s : Machine) :
  (exists cfg,
      config_file s = Some cfg
      /\ next_answer (world s) 0 = Text (appPassword cfg)
      /\ length (from_base64 (encryptionKey cfg)) = 32%nat
      /\ (initAuth;; initEncryptionKey;; run (mainMenu fuel)) s
         = run (mainMenu fuel) (unlocked s cfg))
  \/ (before_menu s (snd ((initAuth;; initEncryptionKey;; run (mainMenu fuel)) s))
      /\ forall a, fst ((initAuth;; initEncryptionKey;; run (mainMenu fuel)) s) <> Done a).
Proof.
  cut (exists r,
          (initAuth;; initEncryptionKey;; run (mainMenu fuel)) s = r
          /\ ((exists cfg,
                  config_file s = Some cfg
                  /\ next_answer (world s) 0 = Text (appPassword cfg)
                  /\ length (from_base64 (encryptionKey cfg)) = 32%nat
                  /\ r = run (mainMenu fuel) (unlocked s cfg))
              \/ (before_menu s (snd r) /\ forall a, fst r <> Done a))).
  { intros (r & -> & H). exact H. }
  destruct (initAuth_before_menu s) as (HbB & _ & _).
  unfold mbind at 1, Startup_bind at 1.
  destruct (initAuth s) as [[[] | f | c |] sB] eqn:Hauth; cbn [fst snd] in *;
    try (eexists; split; [reflexivity |]; right; cbn [fst snd];
         split; [exact HbB | discriminate]).
  destruct (initAuth_Done s sB Hauth) as (cfg & Hcfg & Hanswer & HsB).
  assert (HcfgB : config_file sB = Some cfg) by (rewrite HsB; exact Hcfg).
  unfold mbind at 1, Startup_bind at 1.
  rewrite (initEncryptionKey_run sB cfg HcfgB).
  destruct (decide (length (from_base64 (encryptionKey cfg)) = 32%nat)) as [Hlen | Hlen].
  - eexists. split; [reflexivity |]. left. exists cfg.
    split; [exact Hcfg |]. split; [exact Hanswer |]. split; [exact Hlen |].
    rewrite HsB. reflexivity.
  - eexists. split; [reflexivity |]. right. cbn [fst snd].
    split; [| discriminate].
    eapply before_menu_trans; [exact HbB |]. apply before_menu_world. reflexivity.
Qed.

Lemma sbind_cases {A B} (m : Startup A) (k : A -> Startup B) (s : Machine)
    (r : Ending A * Machine) :
  m s = r ->
  (m ≫= k) s
  = match r with
    | (Done a, s') => k a s'
    | (Failed f, s') => (Failed f, s')
    | (Exited c, s') => (Exited c, s')
    | (Waiting, s') => (Waiting, s')
    end.
Proof. intros <-. reflexivity. Qed.

(** The two ways the start-up sequence can go. *)
Lemma startup_cases (args : list jsstring) (fuel : nat) (s : Machine) :
  (exists sA cfg,
      before_menu s sA
      /\ startup args fuel s = (initAuth;; initEncryptionKey;; run (mainMenu fuel)) sA
      /\ config_file sA = Some cfg
      /\ next_answer (world sA) 0 = Text (appPassword cfg)
      /\ length (from_base64 (encryptionKey cfg)) = 32%nat
      /\ startup args fuel s = run (mainMenu fuel) (unlocked sA cfg))
  \/ (before_menu s (snd (startup args fuel s))
      /\ forall a, fst (startup args fuel s) <> Done a).
Proof.
  destruct (decide (args !! 0%nat = Some (js "init"))) as [Hinit | Hinit].
  { right. rewrite (startup_init args fuel s Hinit).
    destruct (initSetup_before_menu s) as (Hb & Hr).
    unfold mbind, Startup_bind, startup_exit.
    destruct (initSetup s) as [[[] | f | c |] s']; cbn [fst snd] in *;
      (split; [exact Hb | discriminate]). }
  rewrite (startup_no_init args fuel s Hinit).
  (* the optional setup *)
  assert (Hsetup : exists rA,
             (if bool_decide (is_Some (config_file s)) then mret tt
              else console_log_notice NoticeNoConfig;; initSetup) s = rA
             /\ before_menu s (snd rA) /\ (fst rA = Waiting \/ fst rA = Done tt)).
  { destruct (bool_decide (is_Some (config_file s))).
    - eexists. split; [reflexivity |].
      split; [apply before_menu_refl | right; reflexivity].
    - erewrite sbind_Done by reflexivity.
      destruct (initSetup_before_menu (tell (SvLog NoticeNoConfig) s)) as (Hb & Hr).
      eexists. split; [reflexivity |]. split; [| tauto].
      eapply before_menu_trans; [| exact Hb]. apply before_menu_world. reflexivity. }
  destruct Hsetup as (rA & HA & HbA & HrA).
  rewrite (sbind_cases _ _ s rA HA).
  destruct rA as [[[] | f | c |] sA]; cbn [fst snd] in *;
    try (destruct HrA; discriminate).
  2:{ right. cbn [fst snd]. split; [exact HbA | discriminate]. }
  (* the password and the key *)
  destruct (initAuth_cases fuel sA) as [(cfg & Hcfg & Hanswer & Hlen & Hrun) | [Hb Hr]].
  - left. exists sA, cfg. auto 10.
  - right. split; [eapply before_menu_trans; eassumption | exact Hr].
Qed.

Lemma before_menu_unlocked (s sA : Machine) (cfg : Config) :
  before_menu s sA ->
  store_file (world (unlocked sA cfg)) = store_file (world s)
  /\ oracle (world (unlocked sA cfg)) = oracle (world s).
Proof.
  intros (Ho & Hs & _). unfold unlocked. autorewrite with machine world. auto.
Qed.

(** X27.  However the program is started and whatever is typed, the
    menu runs only after [initAuth] has run, the answer typed at its
    prompt "Enter application access password:" was exactly the
    configured password, and the configured key decoded to 32 bytes;
    until that prompt no flow has run, and the menu then starts with
    that one more answer read, under the bytes of the key, on the store
    file as it was.  In every other case the program ends, or waits,
    before the menu: it returns no answer, and the store file and the
    master key are as they were, no flow having run. *)
Theorem startup_guards_the_menu (args : list jsstring) (fuel : nat) (s : Machine) :
  (exists sA s1 cfg,
      startup args fuel s = run (mainMenu fuel) s1
      /\ config_file s1 = Some cfg
      /\ masterKey (world s1) = from_base64 (encryptionKey cfg)
      /\ length (masterKey (world s1)) = 32%nat
      /\ store_file (world s1) = store_file (world s)
      /\ oracle (world s1) = oracle (world s)
      /\ before_menu s sA
      /\ startup args fuel s = (initAuth;; initEncryptionKey;; run (mainMenu fuel)) sA
      /\ config_file sA = Some cfg
      /\ next_answer (world sA) 0 = Text (appPassword cfg)
      /\ s1 = unlocked sA cfg
      /\ console s1 = console sA ++ [ENTER_PASSWORD]
      /\ cursor (world s1) SrcUser = S (cursor (world sA) SrcUser))
  \/ ((forall a, fst (startup args fuel s) <> Done a)
      /\ store_file (world (snd (startup args fuel s))) = store_file (world s)
      /\ masterKey (world (snd (startup args fuel s))) = masterKey (world s)
      /\ exists n,
           trace (world (snd (startup args fuel s)))
           = trace (world s) ++ replicate n (EvRandomBytes 32)).
Proof.
  destruct (startup_cases args fuel s)
    as [(sA & cfg & Hb & Hfrom & Hcfg & Hanswer & Hlen & Hrun)
       | [(_ & Hs & Hk & Ht) Hr]]; [left | right; auto].
  destruct (before_menu_unlocked s sA cfg Hb) as [Hst Ho].
  exists sA, (unlocked sA cfg), cfg.
  split; [exact Hrun |]. split; [exact Hcfg |]. split; [reflexivity |].
  split; [exact Hlen |]. split; [exact Hst |]. split; [exact Ho |].
  split; [exact Hb |]. split; [exact Hfrom |]. split; [exact Hcfg |].
  split; [exact Hanswer |]. split; [reflexivity |]. split; reflexivity.
Qed.

Lemma Forall_conj {A} (P Q : A -> Prop) (l : list A) :
  Forall (fun x => P x /\ Q x) l <-> Forall P l /\ Forall Q l.
Proof.
  induction l as [| x l IH].
  - split; [split; constructor | constructor].
  - rewrite !Forall_cons_iff, IH. tauto.
Qed.

Lemma world_run {A} (m : M A) (s : Machine) : world (snd (run m s)) = snd (m (world s)).
Proof. unfold run. destruct (m (world s)) as [[a | e | c |] w]; reflexivity. Qed.

(** X28.  A session that the program starts on a missing or empty store
    keeps the store sound, whatever the arguments and whatever is typed,
    and however the program ends: every entry has a trimmed name that is
    not empty, and a secret that decrypts under the master key to a
    12-character password. *)
Theorem started_session_keeps_the_store_sound (args : list jsstring) (fuel : nat)
    (s : Machine) :
  entries_of (store_file (world s)) = [] ->
  Forall (fun e => name e <> [] /\ trim (name e) = name e
                   /\ good_secret (masterKey (world (snd (startup args fuel s))))
                        (secret e))
    (entries_of (store_file (world (snd (startup args fuel s))))).
Proof.
  intros Hempty.
  destruct (startup_cases args fuel s)
    as [(sA & cfg & Hb & _ & _ & _ & _ & ->) | [(_ & Hs & _) _]].
  2:{ rewrite Hs, Hempty. constructor. }
  destruct (before_menu_unlocked s sA cfg Hb) as [Hst _].
  set (s1 := unlocked sA cfg) in *.
  rewrite world_run.
  assert (Hsession : session (oracle (world s1)) (masterKey (world s1))
                       (snd (mainMenu fuel (world s1)))).
  { apply mainMenu_in_session, session_start; [reflexivity | reflexivity |].
    rewrite Hst. exact Hempty. }
  destruct (session_same_key _ _ _ Hsession) as [_ Hkey].
  apply (session_view _ _ _
           (fun v => Forall (fun e => trimmed_name (name e)
                                      /\ good_secret (masterKey (world s1)) (secret e))
                       (entries_of (v_store v)))) in Hsession.
  - destruct Hsession as (_ & _ & Hall). cbn [view v_store] in Hall.
    rewrite Hkey. eapply Forall_impl; [| exact Hall].
    intros e [[Hn Ht] Hg]. auto.
  - intros v _ _ ->. constructor.
  - intros v v' _ Hk Hv (_ & _ & Hstep). rewrite Hk in Hstep.
    apply Forall_conj. apply Forall_conj in Hv as [Hn Hg]. split.
    + eapply entry_step_names; eassumption.
    + eapply entry_step_secrets; eassumption.
Qed.

(** ** Answers that the validators refuse *)

(** X29.  A blank name is not accepted by [generateFlow]: the prompt
    does not resolve on it, so no password is generated, nothing is drawn
    from the random sources and the store is not written. *)
Theorem generateFlow_refuses_blank_name (w : World) (st : Store) (nm : jsstring) :
  store_file w = Some st ->
  next_answer w 0 = Text nm ->
  trim nm = [] ->
  generateFlow w
  = (Pending, emit (EvPrompt (PromptInput (js "App/site name:"))) (advance SrcUser 1 w))
  /\ store_file (snd (generateFlow w)) = Some st
  /\ trace (snd (generateFlow w)) = trace w ++ [EvPrompt (PromptInput (js "App/site name:"))].
Proof.
  intros Hw Hnm Hblank.
  assert (Hrun : generateFlow w
                 = (Pending,
                    emit (EvPrompt (PromptInput (js "App/site name:")))
                      (advance SrcUser 1 w))).
  { unfold generateFlow. step (loadStore_existing w st Hw).
    unfold mbind at 1, M_bind at 1.
    unfold prompt_input, mbind, M_bind, prompt. rewrite Hnm.
    rewrite bool_decide_eq_false_2 by (intros H; apply H; exact Hblank).
    reflexivity. }
  rewrite Hrun. cbn [snd]. autorewrite with world. auto.
Qed.

Lemma generateFlow_refuses_blank_name_witness :
  fst (generateFlow (sample_world [Text (js "   ")] (Some sample_store))) = Pending
  /\ store_file (snd (generateFlow (sample_world [Text (js "   ")] (Some sample_store))))
     = Some sample_store.
Proof.
  destruct (generateFlow_refuses_blank_name
              (sample_world [Text (js "   ")] (Some sample_store)) sample_store (js "   "))
    as (Hrun & Hst & _).
  - reflexivity.
  - reflexivity.
  - vm_compute. reflexivity.
  - rewrite Hrun. auto.
Defined.

Lemma sbind_Waiting {A B} (m : Startup A) (k : A -> Startup B) (s s' : Machine) :
  m s = (Waiting, s') -> (m ≫= k) s = (Waiting, s').
Proof. intros H. unfold mbind, Startup_bind. rewrite H. reflexivity. Qed.

Lemma prompt_password_refused (message : jsstring) (validate : jsstring -> bool)
    (s : Machine) (v : jsstring) :
  next_answer (world s) 0 = Text v -> validate v = false ->
  prompt_password message validate s
  = (Waiting, tell (SvPassword message) (set_world (advance SrcUser 1 (world s)) s)).
Proof. intros Ha Hv. unfold prompt_password. rewrite Ha, Hv. reflexivity. Qed.

(** X30.  [initSetup] writes nothing for a blank password or for a
    confirmation that differs from the password: the prompt that refuses
    the answer does not resolve, no key is drawn and the configuration
    file is as it was. *)
Theorem initSetup_refuses (s : Machine) (p c : jsstring) :
  next_answer (world s) 0 = Text p ->
  trim p = [] \/ (next_answer (world s) 1 = Text c /\ c <> p) ->
  fst (initSetup s) = Waiting
  /\ config_file (snd (initSetup s)) = config_file s
  /\ trace (world (snd (initSetup s))) = trace (world s)
  /\ console (snd (initSetup s))
     = console s
       ++ SvLog NoticeInitializing :: SvPassword (js "Set application access password:")
       :: (if decide (trim p = []) then [] else [SvPassword (js "Confirm password:")]).
Proof.
  intros Hp Hbad.
  set (s1 := tell (SvPassword (js "Set application access password:"))
               (set_world (advance SrcUser 1 (world s))
                  (tell (SvLog NoticeInitializing) s))).
  set (s2 := tell (SvPassword (js "Confirm password:"))
               (set_world (advance SrcUser 1 (world s1)) s1)).
  assert (Hrun : initSetup s = (Waiting, if decide (trim p = []) then s1 else s2)).
  { unfold initSetup. erewrite sbind_Done by reflexivity.
    destruct (decide (trim p = [])) as [Hblank | Hvalid].
    - apply sbind_Waiting. apply (prompt_password_refused _ _ (tell (SvLog NoticeInitializing) s) p);
        [exact Hp |].
      apply bool_decide_eq_false_2. intros H. apply H. exact Hblank.
    - destruct Hbad as [Hblank | [Hc Hne]]; [contradiction |].
      erewrite sbind_Done.
      2:{ apply (prompt_password_run _ _ (tell (SvLog NoticeInitializing) s) p);
            [exact Hp | apply bool_decide_eq_true; exact Hvalid]. }
      apply sbind_Waiting. apply (prompt_password_refused _ _ s1 c).
      + unfold s1. autorewrite with machine. rewrite next_answer_advance_user. exact Hc.
      + apply bool_decide_eq_false_2. exact Hne. }
  rewrite Hrun. cbn [fst snd]. split; [reflexivity |].
  destruct (decide (trim p = [])); unfold s2, s1; autorewrite with machine world;
    rewrite <- ?app_assoc; auto.
Qed.

Lemma initSetup_refuses_witness :
  fst (initSetup (sample_machine [Text sample_password; Text (js "open sesam")] None None))
  = Waiting
  /\ config_file (snd (initSetup (sample_machine
                                    [Text sample_password; Text (js "open sesam")]
                                    None None)))
     = None.
Proof.
  destruct (initSetup_refuses
              (sample_machine [Text sample_password; Text (js "open sesam")] None None)
              sample_password (js "open sesam")) as (Hw & Hcfg & _).
  - reflexivity.
  - right. split; [reflexivity | vm_compute; discriminate].
  - auto.
Defined.

(** ** The further theorems on the sample data *)

Lemma masterKey_must_have_32_bytes_witness :
  encryptText (js "hello") short_key_world
  = (Throw ERR_CRYPTO_INVALID_KEYLEN,
     emit (EvRandomBytes IV_LEN) (advance SrcRandomBytes IV_LEN short_key_world)).
Proof.
  destruct (masterKey_must_have_32_bytes short_key_world (js "hello")) as (_ & Hthrow & _).
  apply Hthrow. vm_compute. discriminate.
Defined.

Lemma sample_selects_damaged :
  selects (sample_world [Choose 1; Choose 1] (Some sample_damaged_store))
    sample_damaged_store 1 sample_damaged.
Proof.
  split; [reflexivity |]. exists 1%nat, (id sample_damaged).
  split; [reflexivity |]. split; vm_compute; reflexivity.
Defined.

Lemma getFlow_replaces_corrupted_witness :
  exists pwd enc,
    let w := sample_world [Choose 1; Choose 1] (Some sample_damaged_store) in
    store_file (snd (getFlow w))
    = Some {| entries := [sample_other;
                          new_entry (next_uuid w) (js "broken.io") enc (next_date w 0)] |}
    /\ decryptText sample_key enc = Ok pwd.
Proof.
  destruct (getFlow_replaces_corrupted
              (sample_world [Choose 1; Choose 1] (Some sample_damaged_store))
              sample_damaged_store 1 sample_damaged ERR_AUTH_FAILED
              sample_selects_damaged)
    as (pwd & enc & Hst & _ & _ & Hdec & _).
  - vm_compute. reflexivity.
  - reflexivity.
  - reflexivity.
  - exists pwd, enc. cbv zeta. split; [rewrite Hst; reflexivity | exact Hdec].
Defined.

Lemma sample_selects_damaged_back :
  selects (sample_world [Choose 1; Choose 0] (Some sample_damaged_store))
    sample_damaged_store 1 sample_damaged.
Proof.
  split; [reflexivity |]. exists 1%nat, (id sample_damaged).
  split; [reflexivity |]. split; vm_compute; reflexivity.
Defined.

Lemma getFlow_corrupted_back_witness :
  fst (getFlow (sample_world [Choose 1; Choose 0] (Some sample_damaged_store))) = Return tt
  /\ store_file (snd (getFlow (sample_world [Choose 1; Choose 0]
                                 (Some sample_damaged_store))))
     = Some sample_damaged_store.
Proof.
  destruct (getFlow_corrupted_back
              (sample_world [Choose 1; Choose 0] (Some sample_damaged_store))
              sample_damaged_store 1 sample_damaged ERR_AUTH_FAILED
              sample_selects_damaged_back)
    as (Hret & Hst & _).
  - vm_compute. reflexivity.
  - reflexivity.
  - auto.
Defined.

Lemma sample_selects_entry :
  selects (sample_world [Choose 1; Choose 3] (Some sample_store)) sample_store 3 sample_entry.
Proof.
  split; [reflexivity |]. exists 1%nat, (id sample_entry).
  split; [reflexivity |]. split; vm_compute; reflexivity.
Defined.

Lemma getFlow_shows_password_witness :
  fst (getFlow (sample_world [Choose 1; Choose 3] (Some sample_store))) = Exit 0
  /\ trace (snd (getFlow (sample_world [Choose 1; Choose 3] (Some sample_store))))
     = [SELECT_ENTRY sample_store; EvLog (MsgPassword (js "example.com") (js "hello")); NEXT].
Proof.
  destruct (getFlow_shows_password
              (sample_world [Choose 1; Choose 3] (Some sample_store))
              sample_store 3 sample_entry (js "hello") 3 sample_selects_entry)
    as (Hret & _ & Htr).
  - vm_compute. reflexivity.
  - reflexivity.
  - right. reflexivity.
  - split; [exact Hret | exact Htr].
Defined.

Lemma nothing_to_select_witness :
  trace (snd (getFlow (sample_world [] (Some {| entries := [sample_old] |}))))
  = [EvLog MsgNoActive; PAUSE].
Proof.
  destruct (nothing_to_select (sample_world [] (Some {| entries := [sample_old] |}))
              {| entries := [sample_old] |} eq_refl) as (Hget & _ & _).
  apply Hget. reflexivity.
Defined.

Lemma sample_session_is_session : session (sample_env sample_script) sample_key sample_session.
Proof. apply session_flow, session_flow, session_start; reflexivity. Defined.

Lemma session_names_trimmed_witness :
  Forall (fun e => name e <> [] /\ trim (name e) = name e)
    (entries_of (store_file sample_session)).
Proof.
  apply (session_names_trimmed (sample_env sample_script) sample_key).
  apply sample_session_is_session.
Defined.

Lemma session_secrets_decrypt_witness :
  Forall (fun e => good_secret sample_key (secret e)) (entries_of (store_file sample_session)).
Proof.
  apply (session_secrets_decrypt (sample_env sample_script) sample_key sample_session).
  apply sample_session_is_session.
Defined.

Lemma sample_uuids_distinct (script : list Answer) (i j : nat) :
  uuid_src (sample_env script) i = uuid_src (sample_env script) j -> i = j.
Proof.
  cbn [uuid_src sample_env]. intros H. apply app_inv_head in H.
  injection H as H. lia.
Qed.

Lemma session_ids_distinct_witness :
  NoDup (map id (entries_of (store_file sample_session))).
Proof.
  apply (session_ids_distinct (sample_env sample_script) sample_key sample_session).
  - apply sample_uuids_distinct.
  - apply sample_session_is_session.
Defined.

Lemma mainMenu_session_witness :
  session (sample_env sample_script) sample_key (snd (mainMenu 2 sample_session)).
Proof.
  apply (mainMenu_session (sample_env sample_script) sample_key 2 sample_session).
  apply sample_session_is_session.
Defined.

(** ** The start-up theorems on the sample data *)

Example sample_config_key : from_base64 (encryptionKey sample_config) = sample_key.
Proof. vm_compute. reflexivity. Qed.

Lemma initSetup_key_is_accepted_witness :
  exists s1 s2,
    initSetup (sample_machine [Text sample_password; Text sample_password] None None)
    = (Done tt, s1)
    /\ initEncryptionKey s1 = (Done tt, s2)
    /\ length (masterKey (world s2)) = 32%nat.
Proof.
  destruct (initSetup_key_is_accepted
              (sample_machine [Text sample_password; Text sample_password] None None)
              sample_password)
    as (s1 & s2 & Hsetup & _ & _ & _ & Hkey & _ & Hlen & _).
  - reflexivity.
  - vm_compute. discriminate.
  - reflexivity.
  - exists s1, s2. auto.
Defined.

Lemma startup_wrong_password_witness :
  startup [] 1 (sample_machine [Text (js "guess")] (Some sample_config) (Some sample_store))
  = (Exited 1,
     {| config_file := Some sample_config;
        console := [] ++ [ENTER_PASSWORD; SvError NoticeInvalidPassword];
        world := advance SrcUser 1 (sample_world [Text (js "guess")] (Some sample_store)) |}).
Proof.
  apply (startup_wrong_password [] 1
           (sample_machine [Text (js "guess")] (Some sample_config) (Some sample_store))
           sample_config (js "guess")).
  - discriminate.
  - reflexivity.
  - reflexivity.
  - vm_compute. discriminate.
Defined.

Lemma startup_checks_the_key_length_witness :
  fst (startup [] 1 (sample_machine [Text sample_password] (Some sample_short_config) None))
  = Exited 1.
Proof.
  destruct (startup_checks_the_key_length [] 1
              (sample_machine [Text sample_password] (Some sample_short_config) None)
              sample_short_config) as [Hshort _].
  - discriminate.
  - reflexivity.
  - reflexivity.
  - rewrite Hshort; [reflexivity |]. vm_compute. discriminate.
Defined.

Lemma startup_first_run_witness :
  exists s1,
    startup [] 1 (sample_machine first_run_script None None) = run (mainMenu 1) s1
    /\ length (masterKey (world s1)) = 32%nat
    /\ config_file s1
       = Some (fresh_config (sample_world first_run_script None) sample_password).
Proof.
  destruct (startup_first_run [] 1 (sample_machine first_run_script None None)
              sample_password)
    as (s1 & Hrun & Hcfg & _ & _ & Hlen & _).
  - discriminate.
  - reflexivity.
  - reflexivity.
  - vm_compute. discriminate.
  - reflexivity.
  - reflexivity.
  - exists s1. auto.
Defined.

Lemma startup_init_replaces_the_configuration_witness :
  fst (startup [js "init"] 1
         (sample_machine [Text (js "new password"); Text (js "new password")]
            (Some sample_config) (Some sample_store)))
  = Exited 0.
Proof.
  destruct (startup_init_replaces_the_configuration [js "init"] 1
              (sample_machine [Text (js "new password"); Text (js "new password")]
                 (Some sample_config) (Some sample_store))
              (js "new password")) as [Hrun _].
  - reflexivity.
  - reflexivity.
  - vm_compute. discriminate.
  - reflexivity.
  - rewrite Hrun. reflexivity.
Defined.

Lemma started_session_keeps_the_store_sound_witness :
  Forall (fun e => name e <> [] /\ trim (name e) = name e
                   /\ good_secret
                        (masterKey (world (snd (startup [] 2
                           (sample_machine first_run_script None None)))))
                        (secret e))
    (entries_of (store_file (world (snd (startup [] 2
       (sample_machine first_run_script None None)))))).
Proof.
  apply (started_session_keeps_the_store_sound [] 2
           (sample_machine first_run_script None None)).
  reflexivity.
Defined.

(** The first run, computed: the program ends by Exit with one entry in
    the store. *)
Example first_run_computed :
  fst (startup [] 2 (sample_machine first_run_script None None)) = Exited 0
  /\ map name (entries_of (store_file (world (snd (startup [] 2
       (sample_machine first_run_script None None))))))
     = [js "example.com"].
Proof. split; vm_compute; reflexivity. Qed.
